(** * Duplicate image detection and resolution: a model of the Python tools

    The development embeds [image_clone_remover.py] (class
    [DuplicateImageDetector]) and the duplicate check of
    [image_splitter_by_ratio.py] (class [AdvancedImageSorter]) and states
    the properties of the design document about them.

    Python dictionaries that are only probed by key are finite maps
    ([gmap]); the [defaultdict(list)] that the program iterates over is an
    association list kept in insertion order.  The file system is a finite
    map from paths to entries, which are files, directories or symbolic
    links, together with fault oracles that say when an operating-system
    call raises and how much of a copy was written before it did.  The
    tasks of the thread pool run statement by statement, in any
    interleaving that the lock allows.  What the program prints is left
    out.

    The first part holds the definitions, the second the properties. *)

From Stdlib Require Import ZArith Strings.Byte Ascii String List Lia Permutation.
From stdpp Require Import base gmap strings list fin_maps pretty.


(** ** Strings and paths *)

Module Path.

  (** [str.endswith]: [s] ends with [suffix]. *)
Fixpoint endswith (s suffix : string) : bool :=
    if decide (s = suffix) then true
    else match s with
         | EmptyString => false
         | String _ s' => endswith s' suffix
         end.

  (** [str.startswith] for the one-character separator. *)
Definition starts_with_sep (s : string) : bool :=
    match s with
    | String c _ => bool_decide (c = "/"%char)
    | EmptyString => false
    end.

  (** [posixpath.join] with two arguments. *)
Definition join (a b : string) : string :=
    if starts_with_sep b then b
    else if bool_decide (a = "") || endswith a "/" then a +:+ b
    else a +:+ "/" +:+ b.


  (** Splitting at the last separator: the part up to and including the
      last ["/"], and the last component (as [posixpath.split] finds it
      with [rfind]). *)
Fixpoint split_last_sep (head cur s : string) : string * string :=
    match s with
    | EmptyString => (head, cur)
    | String c s' =>
        if decide (c = "/"%char)
        then split_last_sep (head +:+ cur +:+ "/") "" s'
        else split_last_sep head (cur +:+ String c "") s'
    end.

Definition dirpart (p : string) : string := fst (split_last_sep "" "" p).

  (** [posixpath.basename]: what follows the last separator. *)
Definition basename (p : string) : string := snd (split_last_sep "" "" p).

  (** Leading dots of a file name, which [splitext] never takes for the
      start of an extension. *)
Fixpoint leading_dots (s : string) : string * string :=
    match s with
    | String c s' =>
        if decide (c = "."%char)
        then let '(d, r) := leading_dots s' in (String c d, r)
        else ("", s)
    | EmptyString => ("", "")
    end.

  (** Splitting at the last dot of a string, if it has one. *)
Fixpoint split_last_dot (stem cur : string) (seen : bool) (s : string)
    : option (string * string) :=
    match s with
    | EmptyString => if seen then Some (stem, cur) else None
    | String c s' =>
        if decide (c = "."%char)
        then split_last_dot (if seen then stem +:+ cur else cur) (String c "") true s'
        else split_last_dot stem (cur +:+ String c "") seen s'
    end.

  (** [posixpath.splitext]: the extension starts at the last dot of the
      last component, provided some character other than a dot comes before
      it in that component. *)
Definition splitext (p : string) : string * string :=
    let '(head, base) := split_last_sep "" "" p in
    let '(dots, rest) := leading_dots base in
    match split_last_dot "" "" false rest with
    | Some (stem, ext) => (head +:+ dots +:+ stem, ext)
    | None => (p, "")
    end.

  (** ASCII lower-casing, as [str.lower] acts on ASCII text. *)
Definition lower_char (c : ascii) : ascii :=
    let n := nat_of_ascii c in
    if (65 <=? n)%nat && (n <=? 90)%nat then ascii_of_nat (n + 32) else c.

Fixpoint lower (s : string) : string :=
    match s with
    | EmptyString => EmptyString
    | String c s' => String (lower_char c) (lower s')
    end.

End Path.

(** ** The file system and the platform

    A path names at most one entry: a regular file, a directory or a
    symbolic link.  An entry carries the bytes that a read returns and the
    modification time that [os.stat] reports; [is_dir] marks directories,
    which can be neither copied nor removed as files; [link] is set for a
    symbolic link and holds the path of the entry that the link names, the
    other fields of a link being of no use.  Paths are taken as canonical
    keys: a symbolic link stands at the end of a path, never on the way to
    an entry. *)

Record file := {
  content : list byte;
  modified : Z;
  is_dir : bool;
  link : option string
}.

(** Exceptions of the operating-system calls that the program catches. *)
Inductive os_error :=
  | FileNotFoundError
  | FileExistsError
  | IsADirectoryError
  | PermissionError
  | OSError.

(** What the program does not define itself: the MD5 digest of [hashlib]
    and the Pillow pipeline of [calculate_image_hash] ([Image.open],
    [convert('RGB')], [resize((8, 8))], [convert('L')], [getdata]), which
    yields the grey levels of the thumbnail or raises ([None]). *)
Record platform := {
  md5_hexdigest : list byte → string;
  thumbnail : list byte → option (list N);
  fresh_dir : string → file
}.

(** How a copy that raises leaves its target: not created, or created and
    holding the bytes written until then (none of them on a full disk),
    with the time of the write for its modification time. *)
Inductive copy_fault :=
  | NotWritten
  | Partial (written : nat) (time : Z).

(** Fault oracles: when a call on an existing entry raises all the same
    (permissions, a full disk, a device error). *)
Record faults := {
  read_fails : string → bool;
  stat_fails : string → bool;
  copy_fails : gmap string file → string → string → option copy_fault;
  remove_fails : gmap string file → string → bool;
  makedirs_fails : string → bool
}.

Module Fs.

  (** The number of symbolic links that the system follows before it
      gives up with [ELOOP]. *)
Definition symloop_max : nat := 40.

  (** Following the symbolic links from a path, as a call that opens or
      stats the path does: the path reached and its entry, which is no
      link; [None] when a link dangles or too many links are met. *)
Fixpoint follow (fuel : nat) (fs : gmap string file) (p : string)
    : option (string * file) :=
    match fs !! p with
    | None => None
    | Some f =>
        match link f with
        | None => Some (p, f)
        | Some t =>
            match fuel with
            | 0 => None
            | S fuel' => follow fuel' fs t
            end
        end
    end.

Definition resolve (fs : gmap string file) (p : string) : option (string * file) :=
    follow symloop_max fs p.

  (** The paths that [follow] goes through, the first one included. *)
Fixpoint trail (fuel : nat) (fs : gmap string file) (p : string) : list string :=
    p :: match fs !! p with
         | Some f =>
             match link f, fuel with
             | Some t, S fuel' => trail fuel' fs t
             | _, _ => []
             end
         | None => []
         end.

  (** What [os.stat] sees at a path: the entry at the end of the links. *)
Definition stat (fs : gmap string file) (p : string) : option file :=
    snd <$> resolve fs p.

  (** [os.path.exists]: [os.stat] succeeds, which it does not on a link
      that dangles. *)
Definition path_exists (fs : gmap string file) (p : string) : bool :=
    bool_decide (is_Some (stat fs p)).

  (** [open(p, 'rb').read()]: the bytes of a regular file. *)
Definition read (F : faults) (fs : gmap string file) (p : string)
    : option (list byte) :=
    if read_fails F p then None
    else match stat fs p with
         | Some f => if is_dir f then None else Some (content f)
         | None => None
         end.

  (** Where [open(p, 'wb')] writes: the path itself when it has no entry
      or an entry that is no link, and else the path at the end of the
      links, which a dangling link makes the system create. *)
Fixpoint landing (fuel : nat) (fs : gmap string file) (p : string)
    : option string :=
    match fs !! p with
    | None => Some p
    | Some f =>
        match link f with
        | None => Some p
        | Some t =>
            match fuel with
            | 0 => None
            | S fuel' => landing fuel' fs t
            end
        end
    end.

  (** The regular file that a copy writes, and what a copy that raises
      has written. *)
Definition copy_of (f : file) : file :=
    {| content := content f; modified := modified f; is_dir := false;
       link := None |}.

Definition partial_copy (f : file) (written : nat) (time : Z) : file :=
    {| content := take written (content f); modified := time; is_dir := false;
       link := None |}.

  (** [shutil.copy2 src dst]: the error raised, if any, and the disk
      afterwards.  A destination that is a directory takes the file under
      its own name; the source is read and the destination written through
      their symbolic links; the destination receives the bytes and the
      modification time of the source.  A copy that raises while it writes
      leaves what it has written. *)
Definition copy2 (F : faults) (fs : gmap string file) (src dst : string)
    : option os_error * gmap string file :=
    let dst :=
      match stat fs dst with
      | Some d => if is_dir d then Path.join dst (Path.basename src) else dst
      | None => dst
      end in
    match resolve fs src with
    | None => (Some FileNotFoundError, fs)
    | Some (s, f) =>
        if is_dir f then (Some IsADirectoryError, fs)
        else
          match landing symloop_max fs dst with
          | None => (Some OSError, fs)
          | Some t =>
              if decide (t = s) then (Some OSError, fs)
              else if bool_decide (is_dir <$> fs !! t = Some true)
              then (Some IsADirectoryError, fs)
              else
                match copy_fails F fs src dst with
                | None => (None, <[t := copy_of f]> fs)
                | Some NotWritten => (Some OSError, fs)
                | Some (Partial written time) =>
                    (Some OSError, <[t := partial_copy f written time]> fs)
                end
          end
    end.

  (** [os.remove]: the entry at the path is taken away, a symbolic link
      as it stands and not what it names. *)
Definition remove (F : faults) (fs : gmap string file) (p : string)
    : os_error + gmap string file :=
    match fs !! p with
    | None => inl FileNotFoundError
    | Some f =>
        if bool_decide (link f = None) && is_dir f then inl IsADirectoryError
        else if remove_fails F fs p then inl PermissionError
        else inr (delete p fs)
    end.

  (** The directory and its ancestors, outermost first: the prefixes of the
      path that end before a separator, and the path itself. *)
Fixpoint ancestors (pre s : string) : list string :=
    match s with
    | EmptyString => if decide (pre = "") then [] else [pre]
    | String c s' =>
        if decide (c = "/"%char)
        then (if decide (pre = "") then [] else [pre])
               ++ ancestors (pre +:+ "/") s'
        else ancestors (pre +:+ String c "") s'
    end.

  (** [os.makedirs(d, exist_ok=True)]: every missing ancestor is created;
      an ancestor that exists and is no directory, or a link that dangles
      in its place, makes the call raise. *)
Definition makedirs (P : platform) (F : faults) (fs : gmap string file)
      (d : string) : os_error + gmap string file :=
    if makedirs_fails F d then inl PermissionError
    else
      foldl (λ acc a,
               match acc with
               | inl e => inl e
               | inr fs' =>
                   match stat fs' a with
                   | Some f => if is_dir f then inr fs' else inl FileExistsError
                   | None =>
                       match fs' !! a with
                       | Some _ => inl FileExistsError
                       | None => inr (<[a := fresh_dir P a]> fs')
                       end
                   end
               end)
            (inr fs) (ancestors "" d).

End Fs.

(** ** Insertion-ordered dictionaries of lists

    [defaultdict(list)] as the detector uses it: [key in d], iteration in
    insertion order, and [d[key].append(x)], which creates the key at the
    end of the dictionary when it is missing. *)

Module ODict.

Fixpoint get {V} (d : list (string * V)) (k : string) : option V :=
    match d with
    | [] => None
    | (k', v) :: d' => if decide (k' = k) then Some v else get d' k
    end.

Definition mem {V} (d : list (string * V)) (k : string) : bool :=
    bool_decide (is_Some (get d k)).

Fixpoint append {A} (d : list (string * list A)) (k : string) (x : A)
    : list (string * list A) :=
    match d with
    | [] => [(k, [x])]
    | (k', l) :: d' =>
        if decide (k' = k) then (k', l ++ [x]) :: d'
        else (k', l) :: append d' k x
    end.

End ODict.

(** ** [image_clone_remover.py]: class [DuplicateImageDetector] *)

Module Detector.

  (** The dictionary that [get_file_info] returns.  The program only
      compares sizes and times, so that integers stand for [st_size] and
      for the clock of [st_mtime]. *)
Record file_info := {
    path : string;
    size : Z;
    mtime : Z;
    name : string
  }.

  (** The fields of the object; [lock] is part of the thread model below
      and [max_threads] only sizes the pool. *)
Record t := {
    image_hashes : gmap string string;
    duplicates : list (string * list string);
    processed_count : nat;
    total_files : nat
  }.

Definition init : t :=
    {| image_hashes := ∅; duplicates := []; processed_count := 0;
       total_files := 0 |}.

  (** [''.join(str(p) for p in pixels)] *)
Definition pixel_string (pixels : list N) : string :=
    String.concat "" (pretty <$> pixels).

Definition image_extensions : list string :=
    [".jpg"; ".jpeg"; ".png"; ".JPG"; ".JPEG"; ".PNG"].

  (** [any(file.endswith(ext) for ext in image_extensions)] *)
Definition is_image_name (file : string) : bool :=
    existsb (Path.endswith file) image_extensions.

  (** [find_image_files], on the triples that [os.walk(directory)] yields. *)
Definition find_image_files (walk : list (string * list string * list string))
    : list string :=
    flat_map (λ '(root, dirs, files),
                Path.join root <$> filter (λ file, is_image_name file) files)
             walk.

  (** Python's [max] and [min] with a key: the first element that no later
      one beats strictly. *)
Fixpoint max_by {A} (key : A → Z) (best : A) (l : list A) : A :=
    match l with
    | [] => best
    | x :: l' => if (key best <? key x)%Z then max_by key x l' else max_by key best l'
    end.

Fixpoint min_by {A} (key : A → Z) (best : A) (l : list A) : A :=
    match l with
    | [] => best
    | x :: l' => if (key x <? key best)%Z then min_by key x l' else min_by key best l'
    end.

  (** [manual_file_selection]: the answers typed at the prompt are a
      script; [None] in the script is text that [int] rejects, and the end
      of the script is the end of the input, where [input] raises. *)
Fixpoint manual_file_selection (inputs : list (option Z))
      (file_infos : list file_info) : option (file_info * list (option Z)) :=
    match inputs with
    | [] => None
    | None :: inputs' => manual_file_selection inputs' file_infos
    | Some choice :: inputs' =>
        if ((1 <=? choice) && (choice <=? Z.of_nat (length file_infos)))%Z
        then match file_infos !! Z.to_nat (choice - 1) with
             | Some info => Some (info, inputs')
             | None => None
             end
        else manual_file_selection inputs' file_infos
    end.

  (** The choice of [keep_file] inside [choose_files_to_keep]; the list
      [first :: others] is the non-empty [file_infos]. *)
Definition select_keep_file (strategy : string) (inputs : list (option Z))
      (first : file_info) (others : list file_info)
    : option (file_info * list (option Z)) :=
    if decide (strategy = "newest") then Some (max_by mtime first others, inputs)
    else if decide (strategy = "oldest") then Some (min_by mtime first others, inputs)
    else if decide (strategy = "largest") then Some (max_by size first others, inputs)
    else if decide (strategy = "smallest") then Some (min_by size first others, inputs)
    else manual_file_selection inputs (first :: others).

  (** The file name tried after [counter - 1] collisions. *)
Definition backup_candidate (base_backup_path : string) (counter : nat) : string :=
    let '(name, ext) := Path.splitext base_backup_path in
    name +:+ "_" +:+ pretty counter +:+ ext.

  (** [while os.path.exists(backup_path): ...]; [fuel] bounds the number
      of iterations, [None] is a search that has not ended within it. *)
Fixpoint free_backup_path (fuel : nat) (fs : gmap string file)
      (base_backup_path backup_path : string) (counter : nat) : option string :=
    if Fs.path_exists fs backup_path then
      match fuel with
      | 0 => None
      | S fuel' =>
          free_backup_path fuel' fs base_backup_path
            (backup_candidate base_backup_path counter) (S counter)
      end
    else Some backup_path.

  (** What [delete_duplicate_files] returns, and the disk it leaves. *)
Record deletion := {
    deleted_files : list string;
    failed_deletions : list (string * os_error);
    disk : gmap string file
  }.

  (** [if backup_dir:] holds for a string that is not empty. *)
Definition configured (backup_dir : option string) : option string :=
    match backup_dir with
    | Some d => if decide (d = "") then None else Some d
    | None => None
    end.

Section with_platform.
Context (P : platform) (F : faults).

    (** [calculate_image_hash]: [None] when anything raises. *)
Definition calculate_image_hash (fs : gmap string file) (image_path : string)
      : option string :=
      match Fs.read F fs image_path with
      | Some bytes =>
          match thumbnail P bytes with
          | Some pixels =>
              Some (md5_hexdigest P
                      (String.list_byte_of_string (pixel_string pixels)))
          | None => None
          end
      | None => None
      end.

    (** [hash_value = self.calculate_image_hash(image_path)] followed by the
        test [if hash_value:], which an empty string fails as [None] does. *)
Definition usable_hash (fs : gmap string file) (image_path : string)
      : option string :=
      match calculate_image_hash fs image_path with
      | Some hash_value => if decide (hash_value = "") then None else Some hash_value
      | None => None
      end.

    (** The [if hash_value in self.image_hashes: ... else: ...] statement
        of the critical section. *)
Definition update_index (d : t) (hash_value image_path : string) : t :=
      match image_hashes d !! hash_value with
      | Some first =>
          let dup :=
            if ODict.mem (duplicates d) hash_value then duplicates d
            else ODict.append (duplicates d) hash_value first in
          {| image_hashes := image_hashes d;
             duplicates := ODict.append dup hash_value image_path;
             processed_count := processed_count d;
             total_files := total_files d |}
      | None =>
          {| image_hashes := <[hash_value := image_path]> (image_hashes d);
             duplicates := duplicates d;
             processed_count := processed_count d;
             total_files := total_files d |}
      end.

    (** [self.processed_count += 1] *)
Definition count_processed (d : t) : t :=
      {| image_hashes := image_hashes d;
         duplicates := duplicates d;
         processed_count := S (processed_count d);
         total_files := total_files d |}.

    (** [process_image], run without interruption. *)
Definition process_image (fs : gmap string file) (d : t) (image_path : string) : t :=
      match usable_hash fs image_path with
      | Some hash_value => count_processed (update_index d hash_value image_path)
      | None => d
      end.

    (** [detect_duplicates] when the tasks complete in the order of
        submission; the thread model below covers every other order. *)
Definition detect_duplicates (fs : gmap string file) (d : t)
        (walk : list (string * list string * list string)) : t :=
      let image_files := find_image_files walk in
      let d := {| image_hashes := image_hashes d; duplicates := duplicates d;
                  processed_count := processed_count d;
                  total_files := length image_files |} in
      if decide (total_files d = 0) then d
      else foldl (process_image fs) d image_files.

    (** [get_file_info] *)
Definition get_file_info (fs : gmap string file) (file_path : string)
      : option file_info :=
      if stat_fails F file_path then None
      else match Fs.stat fs file_path with
           | Some f =>
               Some {| path := file_path;
                       size := Z.of_nat (length (content f));
                       mtime := modified f;
                       name := Path.basename file_path |}
           | None => None
           end.

    (** The loop of [choose_files_to_keep] over [self.duplicates.items()];
        [None] when [manual_file_selection] meets the end of the input. *)
Fixpoint choose_loop (fs : gmap string file) (strategy : string)
        (groups : list (string * list string)) (inputs : list (option Z))
        (files_to_keep files_to_delete : list string)
      : option (list string * list string * list (option Z)) :=
      match groups with
      | [] => Some (files_to_keep, files_to_delete, inputs)
      | (hash_value, file_list) :: groups' =>
          if decide (length file_list ≤ 1)
          then choose_loop fs strategy groups' inputs files_to_keep files_to_delete
          else
            let file_infos := omap (get_file_info fs) file_list in
            match file_infos with
            | [] => choose_loop fs strategy groups' inputs files_to_keep files_to_delete
            | first :: others =>
                match select_keep_file strategy inputs first others with
                | None => None
                | Some (keep_file, inputs') =>
                    choose_loop fs strategy groups' inputs'
                      (files_to_keep ++ [path keep_file])
                      (files_to_delete ++
                         (path <$> filter (λ info, path info ≠ path keep_file) file_infos))
                end
            end
      end.

    (** [choose_files_to_keep] *)
Definition choose_files_to_keep (fs : gmap string file) (d : t)
        (strategy : string) (inputs : list (option Z))
      : option (list string * list string * list (option Z)) :=
      choose_loop fs strategy (duplicates d) inputs [] [].

    (** One round of the loop of [delete_duplicate_files]: the [try] block
        and its handler. *)
Definition delete_one (backup_dir : option string) (st : deletion)
        (file_path : string) : option deletion :=
      let backed_up : option (option os_error * gmap string file) :=
        match configured backup_dir with
        | Some dir =>
            let backup_path := Path.join dir (Path.basename file_path) in
            match free_backup_path (S (base.size (disk st))) (disk st)
                    backup_path backup_path 1 with
            | Some target => Some (Fs.copy2 F (disk st) file_path target)
            | None => None
            end
        | None => Some (None, disk st)
        end in
      match backed_up with
      | None => None
      | Some (Some e, fs') =>
          Some {| deleted_files := deleted_files st;
                  failed_deletions := failed_deletions st ++ [(file_path, e)];
                  disk := fs' |}
      | Some (None, fs') =>
          match Fs.remove F fs' file_path with
          | inr fs'' =>
              Some {| deleted_files := deleted_files st ++ [file_path];
                      failed_deletions := failed_deletions st;
                      disk := fs'' |}
          | inl e =>
              Some {| deleted_files := deleted_files st;
                      failed_deletions := failed_deletions st ++ [(file_path, e)];
                      disk := fs' |}
          end
      end.

Fixpoint delete_loop (backup_dir : option string) (st : deletion)
        (files_to_delete : list string) : option deletion :=
      match files_to_delete with
      | [] => Some st
      | file_path :: rest =>
          match delete_one backup_dir st file_path with
          | Some st' => delete_loop backup_dir st' rest
          | None => None
          end
      end.

    (** [delete_duplicate_files]: [inl] when [os.makedirs] raises, which
        nothing in the function catches. *)
Definition delete_duplicate_files (fs : gmap string file)
        (files_to_delete : list string) (backup_dir : option string)
      : option (os_error + deletion) :=
      let prepared :=
        match configured backup_dir with
        | Some dir => Fs.makedirs P F fs dir
        | None => inr fs
        end in
      match prepared with
      | inl e => Some (inl e)
      | inr fs' =>
          inr <$> delete_loop backup_dir
                    {| deleted_files := []; failed_deletions := []; disk := fs' |}
                    files_to_delete
      end.

End with_platform.

End Detector.

(** ** [image_splitter_by_ratio.py]: the duplicate check of [AdvancedImageSorter] *)

Module Sorter.

Section with_platform.
Context (P : platform) (F : faults).

    (** [calculate_file_hash]: the digest of what [f.read(8192)] returns,
        the empty string when anything raises. *)
Definition calculate_file_hash (fs : gmap string file) (filepath : string)
      : string :=
      match Fs.read F fs filepath with
      | Some bytes => md5_hexdigest P (take (N.to_nat 8192) bytes)
      | None => ""
      end.

    (** The duplicate check of [process_image] with [check_duplicates] on,
        for a file that Pillow has opened: the new [self.duplicates] and
        whether the file was taken for a duplicate. *)
Definition check_duplicate (fs : gmap string file) (source_dir : string)
        (duplicates : list (string * list string)) (filename : string)
      : list (string * list string) * bool :=
      let hash_value := calculate_file_hash fs (Path.join source_dir filename) in
      if decide (hash_value = "") then (duplicates, false)
      else (ODict.append duplicates hash_value filename,
            ODict.mem duplicates hash_value).

End with_platform.

End Sorter.

(** ** The worker pool of [detect_duplicates]

    Every submitted path is a task that runs [process_image].  A task
    computes its hash on its own, waits for [self.lock], and inside the
    [with] block runs one test or one assignment at a time: each of the
    two [in] tests, each [append], the assignment to [self.image_hashes],
    and the load and the store of [self.processed_count += 1] are steps of
    their own, between which any other task may run.  A step of the pool
    is a step of any one task, so that every interleaving which the
    executor can produce is a run of the model, whatever the number of
    threads.  What the block prints is left out. *)

Module Pool.

  (** Where a task stands: the statement that it runs next, with the
      values that it holds in local variables. *)
Inductive pc :=
    | Hashing
    | Waiting (hash_value : string)
    | Testing (hash_value : string)
    | Found (hash_value : string)
    | Opening (hash_value : string)
    | Appending (hash_value : string)
    | Recording (hash_value : string)
    | Counting
    | Storing (count : nat)
    | Leaving
    | Finished
    | Crashed.

#[global] Instance pc_eq_dec : EqDecision pc.
Proof. solve_decision. Defined.

Record t := {
    shared : Detector.t;
    lock : option nat;
    tasks : list (string * pc)
  }.

Definition start (d : Detector.t) (image_files : list string) : t :=
    {| shared := d; lock := None; tasks := (λ p, (p, Hashing)) <$> image_files |}.

Definition all_finished (s : t) : Prop :=
    Forall (λ w, w.2 = Finished) (tasks s).

  (** Assignments to the fields of the shared object. *)
Definition set_image_hashes (d : Detector.t) (m : gmap string string) : Detector.t :=
    {| Detector.image_hashes := m;
       Detector.duplicates := Detector.duplicates d;
       Detector.processed_count := Detector.processed_count d;
       Detector.total_files := Detector.total_files d |}.

Definition set_duplicates (d : Detector.t) (dup : list (string * list string))
    : Detector.t :=
    {| Detector.image_hashes := Detector.image_hashes d;
       Detector.duplicates := dup;
       Detector.processed_count := Detector.processed_count d;
       Detector.total_files := Detector.total_files d |}.

Definition set_processed_count (d : Detector.t) (count : nat) : Detector.t :=
    {| Detector.image_hashes := Detector.image_hashes d;
       Detector.duplicates := Detector.duplicates d;
       Detector.processed_count := count;
       Detector.total_files := Detector.total_files d |}.

  (** [self.duplicates[hash_value]] on the [defaultdict]: a missing key is
      given the empty list. *)
Definition touch (dup : list (string * list string)) (hash_value : string)
    : list (string * list string) :=
    if ODict.mem dup hash_value then dup else dup ++ [(hash_value, [])].

Section with_platform.
Context (P : platform) (F : faults) (fs : gmap string file).

Inductive step : t → t → Prop :=
      (* [hash_value = self.calculate_image_hash(image_path)] and
         [if hash_value:] *)
      | step_no_hash s i p :
          tasks s !! i = Some (p, Hashing) →
          Detector.usable_hash P F fs p = None →
          step s {| shared := shared s; lock := lock s;
                    tasks := <[i := (p, Finished)]> (tasks s) |}
      | step_hash s i p h :
          tasks s !! i = Some (p, Hashing) →
          Detector.usable_hash P F fs p = Some h →
          step s {| shared := shared s; lock := lock s;
                    tasks := <[i := (p, Waiting h)]> (tasks s) |}
      (* [with self.lock:] *)
      | step_acquire s i p h :
          tasks s !! i = Some (p, Waiting h) →
          lock s = None →
          step s {| shared := shared s; lock := Some i;
                    tasks := <[i := (p, Testing h)]> (tasks s) |}
      (* [if hash_value in self.image_hashes:] *)
      | step_test_found s i p h :
          tasks s !! i = Some (p, Testing h) →
          is_Some (Detector.image_hashes (shared s) !! h) →
          step s {| shared := shared s; lock := lock s;
                    tasks := <[i := (p, Found h)]> (tasks s) |}
      | step_test_new s i p h :
          tasks s !! i = Some (p, Testing h) →
          Detector.image_hashes (shared s) !! h = None →
          step s {| shared := shared s; lock := lock s;
                    tasks := <[i := (p, Recording h)]> (tasks s) |}
      (* [if hash_value not in self.duplicates:] *)
      | step_group_missing s i p h :
          tasks s !! i = Some (p, Found h) →
          ODict.mem (Detector.duplicates (shared s)) h = false →
          step s {| shared := shared s; lock := lock s;
                    tasks := <[i := (p, Opening h)]> (tasks s) |}
      | step_group_present s i p h :
          tasks s !! i = Some (p, Found h) →
          ODict.mem (Detector.duplicates (shared s)) h = true →
          step s {| shared := shared s; lock := lock s;
                    tasks := <[i := (p, Appending h)]> (tasks s) |}
      (* [self.duplicates[hash_value].append(self.image_hashes[hash_value])] *)
      | step_open s i p h first :
          tasks s !! i = Some (p, Opening h) →
          Detector.image_hashes (shared s) !! h = Some first →
          step s {| shared :=
                      set_duplicates (shared s)
                        (ODict.append (Detector.duplicates (shared s)) h first);
                    lock := lock s;
                    tasks := <[i := (p, Appending h)]> (tasks s) |}
      (* the same statement when [self.image_hashes[hash_value]] raises
         [KeyError]: the list is there by then, and the [with] block
         releases the lock *)
      | step_open_crash s i p h :
          tasks s !! i = Some (p, Opening h) →
          Detector.image_hashes (shared s) !! h = None →
          step s {| shared :=
                      set_duplicates (shared s)
                        (touch (Detector.duplicates (shared s)) h);
                    lock := None;
                    tasks := <[i := (p, Crashed)]> (tasks s) |}
      (* [self.duplicates[hash_value].append(image_path)] *)
      | step_append s i p h :
          tasks s !! i = Some (p, Appending h) →
          step s {| shared :=
                      set_duplicates (shared s)
                        (ODict.append (Detector.duplicates (shared s)) h p);
                    lock := lock s;
                    tasks := <[i := (p, Counting)]> (tasks s) |}
      (* [self.image_hashes[hash_value] = image_path] *)
      | step_record s i p h :
          tasks s !! i = Some (p, Recording h) →
          step s {| shared :=
                      set_image_hashes (shared s)
                        (<[h := p]> (Detector.image_hashes (shared s)));
                    lock := lock s;
                    tasks := <[i := (p, Counting)]> (tasks s) |}
      (* [self.processed_count += 1]: the load, then the store of the sum *)
      | step_load s i p :
          tasks s !! i = Some (p, Counting) →
          step s {| shared := shared s; lock := lock s;
                    tasks :=
                      <[i := (p, Storing (Detector.processed_count (shared s)))]>
                        (tasks s) |}
      | step_store s i p count :
          tasks s !! i = Some (p, Storing count) →
          step s {| shared := set_processed_count (shared s) (S count);
                    lock := lock s;
                    tasks := <[i := (p, Leaving)]> (tasks s) |}
      (* the end of the [with] block *)
      | step_release s i p :
          tasks s !! i = Some (p, Leaving) →
          step s {| shared := shared s; lock := None;
                    tasks := <[i := (p, Finished)]> (tasks s) |}.

End with_platform.

End Pool.

(** ** Vocabulary of the statements *)

Module Facts.

  (** A detector that has not processed any file. *)
Definition fresh (n : nat) : Detector.t :=
    {| Detector.image_hashes := ∅; Detector.duplicates := [];
       Detector.processed_count := 0; Detector.total_files := n |}.

Section with_platform.
Context (P : platform) (F : faults) (fs : gmap string file).

    (** The files of a list that have the fingerprint [h], in list order. *)
Definition members (h : string) (files : list string) : list string :=
      filter (λ p, Detector.usable_hash P F fs p = Some h) files.

    (** The files of a list whose fingerprint was computed. *)
Definition hashed (files : list string) : list string :=
      filter (λ p, is_Some (Detector.usable_hash P F fs p)) files.

    (** The detector after the files have been processed one after the
        other. *)
Definition run (n : nat) (files : list string) : Detector.t :=
      foldl (Detector.process_image P F fs) (fresh n) files.

    (** The file belongs to a group of the index. *)
Definition grouped (d : Detector.t) (p : string) : Prop :=
      ∃ h l, (h, l) ∈ Detector.duplicates d ∧ p ∈ l.

(** What the index holds after a run, group by group. *)
Record index_of (files : list string) (d : Detector.t) : Prop := {
    index_first : ∀ h, Detector.image_hashes d !! h = head (members h files);
    index_group : ∀ h,
      ODict.get (Detector.duplicates d) h =
      if decide (2 ≤ length (members h files)) then Some (members h files) else None;
    index_count : Detector.processed_count d = length (hashed files);
    index_keys : NoDup (Detector.duplicates d).*1
  }.

End with_platform.

End Facts.

Module Policy.

(** The quantity that a fixed strategy maximises: [min] over a key is
    [max] over its opposite. *)
Definition rank (strategy : string) : option (Detector.file_info → Z) :=
  if decide (strategy = "newest") then Some Detector.mtime
  else if decide (strategy = "oldest") then Some (λ info, - Detector.mtime info)%Z
  else if decide (strategy = "largest") then Some Detector.size
  else if decide (strategy = "smallest") then Some (λ info, - Detector.size info)%Z
  else None.

(** The selector as the design document words it: of the members with the
    best rank, the one whose path comes first in lexicographic order. *)
Fixpoint lexicographic_keeper (r : Detector.file_info → Z)
    (best : Detector.file_info) (l : list Detector.file_info) : Detector.file_info :=
  match l with
  | [] => best
  | x :: l' =>
      if (r best <? r x)%Z then lexicographic_keeper r x l'
      else if (r best =? r x)%Z && String.ltb (Detector.path x) (Detector.path best)
           then lexicographic_keeper r x l'
           else lexicographic_keeper r best l'
  end.

(** What the loop of [choose_files_to_keep] does with one group under a
    fixed strategy of rank [r]: the record kept, if the group has more than
    one listed member and some member can be examined, and the paths put on
    the deletion list. *)
Definition keeper (F : faults) (fs : gmap string file)
    (r : Detector.file_info → Z) (group : string * list string)
  : option Detector.file_info :=
  if decide (length group.2 ≤ 1) then None
  else match omap (Detector.get_file_info F fs) group.2 with
       | first :: others => Some (Detector.max_by r first others)
       | [] => None
       end.

Definition discarded (F : faults) (fs : gmap string file)
    (r : Detector.file_info → Z) (group : string * list string) : list string :=
  match keeper F fs r group with
  | Some keep =>
      Detector.path <$>
        filter (λ info, Detector.path info ≠ Detector.path keep)
               (omap (Detector.get_file_info F fs) group.2)
  | None => []
  end.

End Policy.

Module Account.

(** The members that [choose_files_to_keep] takes into account: those of
    the groups with more than one listed member for which [get_file_info]
    returns a record. *)
Definition examined (F : faults) (fs : gmap string file)
    (groups : list (string * list string)) : nat :=
  sum_list ((λ g, if decide (length g.2 ≤ 1) then 0
                  else length (omap (Detector.get_file_info F fs) g.2)) <$> groups).

(** All listed members. *)
Definition listed (groups : list (string * list string)) : nat :=
  sum_list ((λ g, length g.2) <$> groups).

End Account.

Module Round.

Section with_faults.
Context (F : faults).

(** The name under which a round backs its file up: what the search of
    [delete_duplicate_files] finds on the disk of the round. *)
Definition backup_target (dir : string) (fs : gmap string file)
    (file_path target : string) : Prop :=
  Detector.free_backup_path (S (size fs)) fs
    (Path.join dir (Path.basename file_path))
    (Path.join dir (Path.basename file_path)) 1 = Some target.

(** The disk on which a round calls [os.remove]: the disk of the round, or
    that disk after the copy under the name found has returned. *)
Definition copied (backup_dir : option string) (fs : gmap string file)
    (file_path : string) (fs1 : gmap string file) : Prop :=
  Detector.configured backup_dir = None ∧ fs1 = fs ∨
  ∃ dir target,
    Detector.configured backup_dir = Some dir ∧
    backup_target dir fs file_path target ∧
    Fs.copy2 F fs file_path target = (None, fs1).

(** What one round of the loop can do: the copy raises and the file is
    recorded as failed on the disk that the copy has left; or [os.remove]
    raises after the copy, if one was asked for, and the file is recorded
    as failed; or the file is removed and recorded as deleted. *)
Inductive round (backup_dir : option string) (st : Detector.deletion)
    (file_path : string) (st' : Detector.deletion) : Prop :=
  | round_backup_failed dir target e fs1 :
      Detector.configured backup_dir = Some dir →
      backup_target dir (Detector.disk st) file_path target →
      Fs.copy2 F (Detector.disk st) file_path target = (Some e, fs1) →
      Detector.deleted_files st' = Detector.deleted_files st →
      Detector.failed_deletions st' = Detector.failed_deletions st ++ [(file_path, e)] →
      Detector.disk st' = fs1 →
      round backup_dir st file_path st'
  | round_remove_failed fs1 e :
      copied backup_dir (Detector.disk st) file_path fs1 →
      Fs.remove F fs1 file_path = inl e →
      Detector.deleted_files st' = Detector.deleted_files st →
      Detector.failed_deletions st' = Detector.failed_deletions st ++ [(file_path, e)] →
      Detector.disk st' = fs1 →
      round backup_dir st file_path st'
  | round_deleted fs1 :
      copied backup_dir (Detector.disk st) file_path fs1 →
      Fs.remove F fs1 file_path = inr (Detector.disk st') →
      Detector.deleted_files st' = Detector.deleted_files st ++ [file_path] →
      Detector.failed_deletions st' = Detector.failed_deletions st →
      round backup_dir st file_path st'.

End with_faults.

End Round.

Module PoolFacts.

(** The paths of the tasks that have returned. *)
Definition finished_paths (tasks : list (string * Pool.pc)) : list string :=
  (filter (λ w, w.2 = Pool.Finished) tasks).*1.

(** The task is inside the [with] block. *)
Definition critical (c : Pool.pc) : Prop :=
  match c with
  | Pool.Hashing | Pool.Waiting _ | Pool.Finished | Pool.Crashed => False
  | _ => True
  end.

#[global] Instance critical_dec c : Decision (critical c).
Proof. destruct c; simpl; apply _. Defined.

(** What the task of [p] with hash [h] has made of the detector [base]
    that it found when it took the lock, statement by statement. *)
Definition inside (base d : Detector.t) (h p : string) (c : Pool.pc) : Prop :=
  match c with
  | Pool.Testing h' => h' = h ∧ d = base
  | Pool.Found h' =>
      h' = h ∧ d = base ∧ is_Some (Detector.image_hashes base !! h)
  | Pool.Opening h' =>
      h' = h ∧ d = base ∧ is_Some (Detector.image_hashes base !! h) ∧
      ODict.mem (Detector.duplicates base) h = false
  | Pool.Appending h' =>
      h' = h ∧
      ∃ first,
        Detector.image_hashes base !! h = Some first ∧
        d = Pool.set_duplicates base
              (if ODict.mem (Detector.duplicates base) h
               then Detector.duplicates base
               else ODict.append (Detector.duplicates base) h first)
  | Pool.Recording h' =>
      h' = h ∧ d = base ∧ Detector.image_hashes base !! h = None
  | Pool.Counting => d = Detector.update_index base h p
  | Pool.Storing count =>
      d = Detector.update_index base h p ∧ count = Detector.processed_count d
  | Pool.Leaving => d = Detector.count_processed (Detector.update_index base h p)
  | _ => False
  end.

Section with_platform.
Context (P : platform) (F : faults) (fs : gmap string file).

(** What holds in every state of a run from [Pool.start (Facts.fresh n)
    files]: no task has raised; only the holder of the lock is inside the
    [with] block; and the shared detector is the result of processing, one
    after the other and in some order [past], the files of the tasks that
    have returned, up to the statements that the holder of the lock has
    run of its own block. *)
Record invariant (n : nat) (files : list string) (s : Pool.t) : Prop := {
  inv_paths : (Pool.tasks s).*1 = files;
  inv_waiting : ∀ i p h,
    Pool.tasks s !! i = Some (p, Pool.Waiting h) →
    Detector.usable_hash P F fs p = Some h;
  inv_alive : ∀ i p, Pool.tasks s !! i ≠ Some (p, Pool.Crashed);
  inv_state : ∃ past,
    past ≡ₚ finished_paths (Pool.tasks s) ∧
    match Pool.lock s with
    | None =>
        Pool.shared s = Facts.run P F fs n past ∧
        ∀ i w, Pool.tasks s !! i = Some w → ¬ critical w.2
    | Some i =>
        (∀ j w, Pool.tasks s !! j = Some w → j ≠ i → ¬ critical w.2) ∧
        ∃ p c h,
          Pool.tasks s !! i = Some (p, c) ∧
          Detector.usable_hash P F fs p = Some h ∧
          inside (Facts.run P F fs n past) (Pool.shared s) h p c
    end
}.

End with_platform.

End PoolFacts.

(** ** A small platform and disk for running the model *)

Module Demo.

(** The digest is the text of its argument, so that two files collide only
    where the program makes them collide; the thumbnail of a file is the
    list of its byte values, and a file without bytes does not decode. *)
Definition plain : platform :=
  {| md5_hexdigest := String.string_of_list_byte;
     thumbnail := λ bytes,
       match bytes with
       | [] => None
       | _ => Some (Byte.to_N <$> bytes)
       end;
     fresh_dir := λ _, {| content := []; modified := 0; is_dir := true;
                          link := None |} |}.

Definition no_faults : faults :=
  {| read_fails := λ _, false;
     stat_fails := λ _, false;
     copy_fails := λ _ _ _, None;
     remove_fails := λ _ _, false;
     makedirs_fails := λ _, false |}.

(** A full disk, on which a copy creates its target and then raises
    before it has written a byte. *)
Definition full_disk : faults :=
  {| read_fails := λ _, false;
     stat_fails := λ _, false;
     copy_fails := λ _ _ _, Some (Partial 0 99);
     remove_fails := λ _ _, false;
     makedirs_fails := λ _, false |}.


Definition regular (bytes : list byte) (t : Z) : file :=
  {| content := bytes; modified := t; is_dir := false; link := None |}.

Definition symlink (target : string) : file :=
  {| content := []; modified := 0; is_dir := false; link := Some target |}.

(** [a.jpg], [b.jpg] and [d.jpg] have the same bytes, [c.jpg] differs,
    and [broken.jpg] does not decode. *)
Definition disk : gmap string file :=
  list_to_map
    [("./a.jpg", regular [x01; x02] 10);
     ("./b.jpg", regular [x01; x02] 20);
     ("./c.jpg", regular [x07] 30);
     ("./d.jpg", regular [x01; x02] 15);
     ("./broken.jpg", regular [] 5)].

(** A disk on which [./link.jpg] is a symbolic link to [./a.jpg]. *)
Definition linked_disk : gmap string file :=
  list_to_map
    [("./a.jpg", regular [x01; x02] 10);
     ("./c.jpg", regular [x07] 30);
     ("./d.jpg", regular [x01; x02] 15);
     ("./link.jpg", symlink "./a.jpg")].

(** The pool when the tasks of [./a.jpg] and [./b.jpg] have returned and
    the task of [./b.jpg] was the first inside the [with] block. *)
Definition late_first : Pool.t :=
  {| Pool.shared :=
       {| Detector.image_hashes := {[ "12" := "./b.jpg" ]};
          Detector.duplicates := [("12", ["./b.jpg"; "./a.jpg"])];
          Detector.processed_count := 2;
          Detector.total_files := 2 |};
     Pool.lock := None;
     Pool.tasks := [("./a.jpg", Pool.Finished); ("./b.jpg", Pool.Finished)] |}.

(** Two copies with the same bytes and the same modification time. *)
Definition tied_disk : gmap string file :=
  list_to_map
    [("./a.jpg", regular [x01; x02] 10);
     ("./b.jpg", regular [x01; x02] 10)].

(** The demonstration platform with another digest. *)
Definition with_digest (md5 : list byte → string) : platform :=
  {| md5_hexdigest := md5;
     thumbnail := thumbnail plain;
     fresh_dir := fresh_dir plain |}.

(** Two files of 8193 bytes that differ in the last byte only. *)
Definition long_a : list byte := repeat x00 (N.to_nat 8192) ++ [x01].
Definition long_b : list byte := repeat x00 (N.to_nat 8192) ++ [x02].

Definition long_disk : gmap string file :=
  list_to_map
    [("in/a.raw", regular long_a 10);
     ("in/b.raw", regular long_b 20)].

(** Two files whose thumbnails are the grey levels [1; 2] and [12]. *)
Definition merged_disk : gmap string file :=
  list_to_map
    [("./a.jpg", regular [x01; x02] 10);
     ("./e.jpg", regular [x0c] 40)].

End Demo.

(** ** Vocabulary of the further properties *)

Module Choice.

(** No path is listed in two groups. *)
Inductive separated : list (string * list string) → Prop :=
  | separated_nil : separated []
  | separated_cons g groups :
      (∀ g' p, g' ∈ groups → p ∈ g.2 → p ∉ g'.2) →
      separated groups →
      separated (g :: groups).

Section with_faults.
Context (F : faults) (fs : gmap string file).

(** What the loop of [choose_files_to_keep] adds to its two lists while it
    goes through the groups: nothing for a group that it passes over, and
    for any other group the path of one of the records of [file_infos]
    to [files_to_keep] and the paths of the records with another path to
    [files_to_delete]. *)
Inductive chosen : list (string * list string) → list string → list string → Prop :=
  | chosen_nil : chosen [] [] []
  | chosen_skip g groups keeps deletes :
      length g.2 ≤ 1 ∨ omap (Detector.get_file_info F fs) g.2 = [] →
      chosen groups keeps deletes →
      chosen (g :: groups) keeps deletes
  | chosen_pick g groups keep keeps deletes :
      2 ≤ length g.2 →
      keep ∈ omap (Detector.get_file_info F fs) g.2 →
      chosen groups keeps deletes →
      chosen (g :: groups) (Detector.path keep :: keeps)
        ((Detector.path <$>
            filter (λ info, Detector.path info ≠ Detector.path keep)
                   (omap (Detector.get_file_info F fs) g.2)) ++ deletes).

End with_faults.

End Choice.

Module Ties.

Section with_platform.
Context (P : platform) (F : faults) (fs : gmap string file).

(** No two files of the list that have the same fingerprint and can be
    examined have the same rank. *)
Definition untied (r : Detector.file_info → Z) (files : list string) : Prop :=
  ∀ p q h ip iq, p ∈ files → q ∈ files →
    Detector.usable_hash P F fs p = Some h →
    Detector.usable_hash P F fs q = Some h →
    Detector.get_file_info F fs p = Some ip →
    Detector.get_file_info F fs q = Some iq →
    r ip = r iq → p = q.

End with_platform.

End Ties.

Module Progress.

(** The number of steps that a task has still to take. *)
Definition remaining (c : Pool.pc) : nat :=
  match c with
  | Pool.Hashing => 10
  | Pool.Waiting _ => 9
  | Pool.Testing _ => 8
  | Pool.Found _ => 7
  | Pool.Opening _ => 6
  | Pool.Appending _ => 5
  | Pool.Recording _ => 5
  | Pool.Counting => 4
  | Pool.Storing _ => 3
  | Pool.Leaving => 2
  | Pool.Finished => 0
  | Pool.Crashed => 0
  end.

Definition measure (s : Pool.t) : nat :=
  sum_list ((λ w, remaining w.2) <$> Pool.tasks s).

End Progress.

(** ** The dialogue of [manage_duplicates]

    The lines typed at the prompts are a script, read from its head; the
    end of the script is the end of the input, where [input] raises. *)

Module Manage.

(** What the program does not define itself: [int] on a typed line
    ([None] when it raises [ValueError]), [str.strip] and [str.lower]. *)
Record text_ops := {
  to_int : string → option Z;
  strip : string → string;
  lower : string → string
}.

(** How a call of [manage_duplicates] ends. *)
Inductive status :=
  | NoDuplicates
  | Cancelled
  | NothingToDelete
  | NotConfirmed
  | Completed (deleted_files : list string)
              (failed_deletions : list (string * os_error)) (total_size : Z)
  | EndOfInput
  | Raised (e : os_error).

(** [while True: try: choice = int(input(...)) ...]: the first line that
    is a number between 1 and [hi]. *)
Fixpoint read_choice (T : text_ops) (hi : Z) (script : list string)
  : option (Z * list string) :=
  match script with
  | [] => None
  | line :: script' =>
      match to_int T line with
      | Some choice =>
          if ((1 <=? choice) && (choice <=? hi))%Z then Some (choice, script')
          else read_choice T hi script'
      | None => read_choice T hi script'
      end
  end.

(** The dictionary [strategies], looked up at a choice between 1 and 5. *)
Definition strategies (choice : Z) : string :=
  if decide (choice = 1%Z) then "newest"
  else if decide (choice = 2%Z) then "oldest"
  else if decide (choice = 3%Z) then "largest"
  else if decide (choice = 4%Z) then "smallest"
  else "manual".

Section with_platform.
Context (P : platform) (F : faults) (T : text_ops).

(** [os.path.getsize]: the size that [os.stat] reports. *)
Definition getsize (fs : gmap string file) (file_path : string) : option Z :=
  Detector.size <$> Detector.get_file_info F fs file_path.

(** [preview_deletion]: the sizes that can be read are added up. *)
Definition preview_deletion (fs : gmap string file)
    (files_to_delete : list string) : Z :=
  foldl (λ total_size file_path,
           match getsize fs file_path with
           | Some size => (total_size + size)%Z
           | None => total_size
           end) 0%Z files_to_delete.

(** [sum(os.path.getsize(f) for f in deleted_files if os.path.exists(f))];
    [None] when [os.path.getsize] raises. *)
Fixpoint saved_space (fs : gmap string file) (deleted_files : list string)
  : option Z :=
  match deleted_files with
  | [] => Some 0%Z
  | f :: rest =>
      if Fs.path_exists fs f then
        match getsize fs f with
        | Some size => (λ total, (size + total)%Z) <$> saved_space fs rest
        | None => None
        end
      else saved_space fs rest
  end.

(** [manage_duplicates]: how the call ends, and the disk that it leaves
    where the model of the disk tells it ([os.makedirs] that raises may
    have created some of the directories).  The result is [None] only if
    the search for a backup name runs out of fuel. *)
Definition manage_duplicates (fs : gmap string file) (d : Detector.t)
    (script : list string) : option (status * option (gmap string file)) :=
  match Detector.duplicates d with
  | [] => Some (NoDuplicates, Some fs)
  | _ :: _ =>
  match read_choice T 6 script with
  | None => Some (EndOfInput, Some fs)
  | Some (choice, script1) =>
  if decide (choice = 6%Z) then Some (Cancelled, Some fs) else
  let strategy := strategies choice in
  match Detector.choose_files_to_keep F fs d strategy (to_int T <$> script1) with
  | None => Some (EndOfInput, Some fs)
  | Some (files_to_keep, files_to_delete, inputs') =>
  let script2 := drop (length script1 - length inputs') script1 in
  match files_to_delete with
  | [] => Some (NothingToDelete, Some fs)
  | _ :: _ =>
  let total_size := preview_deletion fs files_to_delete in
  match script2 with
  | [] => Some (EndOfInput, Some fs)
  | backup_choice :: script3 =>
  let asked : option (option string * list string) :=
    if decide (lower T backup_choice = "e") then
      match script3 with
      | [] => None
      | line :: script4 =>
          Some (Some (if decide (strip T line = "") then "./backup_duplicates"
                      else strip T line), script4)
      end
    else Some (None, script3) in
  match asked with
  | None => Some (EndOfInput, Some fs)
  | Some (backup_dir, script4) =>
  match script4 with
  | [] => Some (EndOfInput, Some fs)
  | final_confirm :: _ =>
  if decide (final_confirm = "EVET") then
    match Detector.delete_duplicate_files P F fs files_to_delete backup_dir with
    | None => None
    | Some (inl e) => Some (Raised e, None)
    | Some (inr r) =>
        match saved_space (Detector.disk r) (Detector.deleted_files r) with
        | Some _ =>
            Some (Completed (Detector.deleted_files r)
                            (Detector.failed_deletions r) total_size,
                  Some (Detector.disk r))
        | None => Some (Raised OSError, Some (Detector.disk r))
        end
    end
  else Some (NotConfirmed, Some fs)
  end end end end end end end.

End with_platform.

End Manage.

(** ** The duplicate check of [AdvancedImageSorter] over a run *)

Module Sorting.

(** [sum(len(files)-1 for files in self.duplicates.values() if len(files) > 1)]
    of [print_detailed_results]. *)
Definition duplicate_count (duplicates : list (string * list string)) : nat :=
  sum_list ((λ g, length g.2 - 1) <$> filter (λ g, 1 < length g.2) duplicates).

(** [{hash_val: files for hash_val, files in self.duplicates.items()
    if len(files) > 1}] of [generate_report]. *)
Definition duplicates_found (duplicates : list (string * list string))
  : list (string * list string) :=
  filter (λ g, 1 < length g.2) duplicates.

Section with_platform.
Context (P : platform) (F : faults) (fs : gmap string file) (source_dir : string).

(** The critical sections of [process_image] one after the other, for
    the files that reach the duplicate check (nothing has raised before
    it) and in the order in which they take [self.thread_lock]:
    [self.duplicates] and [self.stats['dublicate']] at the end. *)
Definition check_all (filenames : list string)
  : list (string * list string) * nat :=
  foldl (λ st filename,
           let '(duplicates, flagged) :=
             Sorter.check_duplicate P F fs source_dir st.1 filename in
           (duplicates, if flagged then S st.2 else st.2))
        ([], 0) filenames.

(** The files of a list whose hash is [h], in list order. *)
Definition same_hash (h : string) (filenames : list string) : list string :=
  filter (λ f, Sorter.calculate_file_hash P F fs (Path.join source_dir f) = h)
         filenames.

(** The files of a list of which a hash was computed. *)
Definition with_hash (filenames : list string) : list string :=
  filter (λ f, Sorter.calculate_file_hash P F fs (Path.join source_dir f) ≠ "")
         filenames.

End with_platform.

End Sorting.

(** ** What [os.walk] yields *)

Module Walk.

(** The name contains a separator. *)
Fixpoint has_sep (s : string) : bool :=
  match s with
  | EmptyString => false
  | String c s' => bool_decide (c = "/"%char) || has_sep s'
  end.

(** The start of the paths that [posixpath.join] makes in a directory. *)
Definition dir_prefix (root : string) : string :=
  if bool_decide (root = "") || Path.endswith root "/" then root
  else root +:+ "/".

(** What [os.walk] without [followlinks] guarantees: every directory is
    reported once and under one spelling, and the names listed in a
    directory are distinct and are single components. *)
Record listing (walk : list (string * list string * list string)) : Prop := {
  roots_distinct : NoDup walk.*1.*1;
  roots_plain : ∀ r1 r2, r1 ∈ walk.*1.*1 → r2 ∈ walk.*1.*1 → r1 ≠ r2 +:+ "/";
  names_distinct : ∀ root dirs files, (root, dirs, files) ∈ walk → NoDup files;
  names_plain : ∀ root dirs files file,
    (root, dirs, files) ∈ walk → file ∈ files → has_sep file = false
}.

End Walk.

(** ** A small console for running the dialogue

    [int] reads decimal digits only, nothing is stripped, and [lower]
    is that of the ASCII letters. *)

Module Console.

Definition digit (c : ascii) : option Z :=
  let n := nat_of_ascii c in
  if (48 <=? n) && (n <=? 57) then Some (Z.of_nat (n - 48)) else None.

Fixpoint digits (acc : Z) (s : string) : option Z :=
  match s with
  | EmptyString => Some acc
  | String c s' =>
      match digit c with
      | Some d => digits (10 * acc + d) s'
      | None => None
      end
  end.

Definition ascii_ops : Manage.text_ops :=
  {| Manage.to_int := λ s, match s with EmptyString => None | _ => digits 0 s end;
     Manage.strip := λ s, s;
     Manage.lower := Path.lower |}.

End Console.


(** * Properties *)

Section path_examples.

Example splitext_jpg : Path.splitext "backup/a.jpg" = ("backup/a", ".jpg").
Proof. reflexivity. Qed.

Example splitext_two_dots : Path.splitext "d.x/a.tar.gz" = ("d.x/a.tar", ".gz").
Proof. reflexivity. Qed.

Example splitext_hidden : Path.splitext "backup/.profile" = ("backup/.profile", "").
Proof. reflexivity. Qed.

Example splitext_no_ext : Path.splitext "d.x/readme" = ("d.x/readme", "").
Proof. reflexivity. Qed.

Example basename_nested : Path.basename "/data/img/a.jpg" = "a.jpg".
Proof. reflexivity. Qed.

Example join_plain : Path.join "./backup" "a.jpg" = "./backup/a.jpg".
Proof. reflexivity. Qed.

Example join_slash : Path.join "backup/" "a.jpg" = "backup/a.jpg".
Proof. reflexivity. Qed.

Example lower_mixed : Path.lower "Photo.JpG" = "photo.jpg".
Proof. reflexivity. Qed.

End path_examples.
Section odict_facts.
Context {A : Type}.
Implicit Types (d : list (string * list A)) (k : string) (x : A).

Lemma get_append_eq d k x :
    ODict.get (ODict.append d k x) k = Some (default [] (ODict.get d k) ++ [x]).
  Proof.
    induction d as [|[k' l] d IH]; simpl.
    - by rewrite decide_True.
    - destruct (decide (k' = k)) as [->|Hne]; simpl.
      + by rewrite decide_True.
      + by rewrite decide_False.
  Qed.

Lemma get_append_ne d k k' x :
    k ≠ k' → ODict.get (ODict.append d k x) k' = ODict.get d k'.
  Proof.
    intros Hne. induction d as [|[k0 l] d IH]; simpl.
    - by rewrite decide_False.
    - destruct (decide (k0 = k)) as [->|Hne0]; simpl.
      + by rewrite !decide_False.
      + destruct (decide (k0 = k')); done.
  Qed.

Lemma get_None_keys d k : ODict.get d k = None ↔ k ∉ d.*1.
  Proof.
    induction d as [|[k' l] d IH]; simpl.
    - split; [intros _; apply not_elem_of_nil | done].
    - rewrite not_elem_of_cons. destruct (decide (k' = k)) as [->|Hne].
      + split; [done | by intros [? _]].
      + rewrite IH. naive_solver.
  Qed.

Lemma mem_true d k : ODict.mem d k = true ↔ is_Some (ODict.get d k).
  Proof. unfold ODict.mem. by rewrite bool_decide_eq_true. Qed.

Lemma mem_false d k : ODict.mem d k = false ↔ ODict.get d k = None.
  Proof.
    unfold ODict.mem. rewrite bool_decide_eq_false. by rewrite eq_None_not_Some.
  Qed.

Lemma keys_append d k x :
    (ODict.append d k x).*1 = if ODict.mem d k then d.*1 else d.*1 ++ [k].
  Proof.
    induction d as [|[k' l] d IH]; simpl; [done|].
    unfold ODict.mem in *. simpl.
    destruct (decide (k' = k)) as [->|Hne]; simpl.
    - done.
    - change (list_fmap _ _ fst ?u) with (u.*1). rewrite IH.
      by destruct (bool_decide (is_Some (ODict.get d k))).
  Qed.

Lemma keys_append_NoDup d k x : NoDup d.*1 → NoDup (ODict.append d k x).*1.
  Proof.
    intros Hnd. rewrite keys_append. destruct (ODict.mem d k) eqn:Hm; [done|].
    apply mem_false, get_None_keys in Hm.
    apply NoDup_app. split_and!; [done | | apply NoDup_singleton].
    intros y Hy ->%list_elem_of_singleton. done.
  Qed.

Lemma elem_of_get d k l : NoDup d.*1 → (k, l) ∈ d ↔ ODict.get d k = Some l.
  Proof.
    induction d as [|[k' l'] d IH]; simpl; intros Hnd.
    - split; [by intros ?%elem_of_nil | done].
    - apply NoDup_cons in Hnd as [Hk' Hnd]. rewrite elem_of_cons, (IH Hnd).
      destruct (decide (k' = k)) as [->|Hne].
      + split; [intros [[= ->]|Hget]; [done|] | by intros [= ->]; left].
        apply get_None_keys in Hk'. congruence.
      + split; [intros [[= ? ?]|?]; done | by right].
  Qed.
End odict_facts.

Section index_facts.
Context (P : platform) (F : faults) (fs : gmap string file).

Local Abbreviation usable_hash := (Detector.usable_hash P F fs).
Local Abbreviation process_image := (Detector.process_image P F fs).
Local Abbreviation members := (Facts.members P F fs).
Local Abbreviation hashed := (Facts.hashed P F fs).
Local Abbreviation run := (Facts.run P F fs).
Local Abbreviation index_of := (Facts.index_of P F fs).

Lemma members_snoc h files p :
    members h (files ++ [p]) =
    members h files ++ (if decide (usable_hash p = Some h) then [p] else []).
  Proof.
    unfold Facts.members. rewrite filter_app. by f_equal.
  Qed.

Lemma hashed_snoc files p :
    hashed (files ++ [p]) =
    hashed files ++ (if decide (is_Some (usable_hash p)) then [p] else []).
  Proof.
    unfold Facts.hashed. rewrite filter_app. by f_equal.
  Qed.

Lemma run_snoc n files p : run n (files ++ [p]) = process_image (run n files) p.
  Proof. unfold Facts.run. by rewrite foldl_app. Qed.

Lemma process_image_no_hash d p : usable_hash p = None → process_image d p = d.
  Proof. intros H. unfold Detector.process_image. by rewrite H. Qed.

Lemma index_of_fresh n : index_of [] (Facts.fresh n).
  Proof. split; simpl; try done. apply NoDup_nil_2. Qed.

Lemma index_of_step files d p :
    index_of files d → index_of (files ++ [p]) (process_image d p).
  Proof.
    intros [Hfirst Hgroup Hcount Hkeys].
    unfold Detector.process_image.
    destruct (usable_hash p) as [h0|] eqn:Hp.
    2:{ split; intros; rewrite ?members_snoc, ?hashed_snoc, ?Hp;
        rewrite ?decide_False by (try done; by intros []);
        rewrite ?app_nil_r; auto. }
    assert (∀ h, h ≠ h0 → members h (files ++ [p]) = members h files) as Hother.
    { intros h Hne. rewrite members_snoc, Hp, decide_False, app_nil_r; congruence. }
    assert (members h0 (files ++ [p]) = members h0 files ++ [p]) as Hsame.
    { by rewrite members_snoc, Hp, decide_True. }
    unfold Detector.update_index, Detector.count_processed.
    pose proof (Hfirst h0) as Hf0. pose proof (Hgroup h0) as Hg0.
    destruct (Detector.image_hashes d !! h0) as [first|] eqn:Hih; simpl.
    - destruct (members h0 files) as [|m ms] eqn:Hm; simplify_eq/=.
      split; simpl.
      + intros h. destruct (decide (h = h0)) as [->|Hne].
        * by rewrite Hih, Hsame.
        * by rewrite Hother, Hfirst.
      + intros h. destruct (decide (h = h0)) as [->|Hne].
        * rewrite Hsame, get_append_eq. simpl. rewrite length_app. simpl.
          rewrite decide_True by lia.
          destruct (ODict.mem (Detector.duplicates d) h0) eqn:Hmem.
          -- apply mem_true in Hmem as [l Hl]. rewrite Hl in Hg0 |- *.
             destruct (decide (2 ≤ S (length ms))); by simplify_eq/=.
          -- apply mem_false in Hmem. rewrite get_append_eq, Hmem. simpl.
             rewrite Hmem in Hg0.
             destruct (decide (2 ≤ S (length ms))); [done|].
             destruct ms; [done | simpl in *; lia].
        * rewrite Hother by done. rewrite get_append_ne by done.
          destruct (ODict.mem (Detector.duplicates d) h0);
            rewrite ?get_append_ne by done; apply Hgroup.
      + rewrite hashed_snoc, Hp, decide_True by eauto.
        rewrite length_app. simpl. lia.
      + apply keys_append_NoDup.
        destruct (ODict.mem (Detector.duplicates d) h0); [done|].
        by apply keys_append_NoDup.
    - destruct (members h0 files) as [|m ms] eqn:Hm; simplify_eq/=.
      split; simpl.
      + intros h. destruct (decide (h = h0)) as [->|Hne].
        * by rewrite lookup_insert_eq, Hsame.
        * rewrite lookup_insert_ne by done. by rewrite Hother, Hfirst.
      + intros h. destruct (decide (h = h0)) as [->|Hne].
        * by rewrite Hsame.
        * rewrite Hother by done. apply Hgroup.
      + rewrite hashed_snoc, Hp, decide_True by eauto.
        rewrite length_app. simpl. lia.
      + done.
  Qed.

Lemma index_of_run n files : index_of files (run n files).
  Proof.
    induction files as [|p files IH] using rev_ind.
    - apply index_of_fresh.
    - rewrite run_snoc. by apply index_of_step.
  Qed.

End index_facts.

Section demo_checks.
Import Demo.

Example demo_hash_a :
  Detector.calculate_image_hash plain no_faults disk "./a.jpg" = Some "12".
Proof. vm_compute. reflexivity. Qed.

Example demo_hash_broken :
  Detector.calculate_image_hash plain no_faults disk "./broken.jpg" = None.
Proof. vm_compute. reflexivity. Qed.

Example demo_detect :
  Detector.detect_duplicates plain no_faults disk Detector.init
    [(".", [], ["a.jpg"; "notes.txt"; "b.jpg"; "c.jpg"])] =
  {| Detector.image_hashes := {[ "12" := "./a.jpg"; "7" := "./c.jpg" ]};
     Detector.duplicates := [("12", ["./a.jpg"; "./b.jpg"])];
     Detector.processed_count := 3;
     Detector.total_files := 3 |}.
Proof. vm_compute. reflexivity. Qed.

End demo_checks.

Section grouping.
Context (P : platform) (F : faults) (fs : gmap string file).

Local Abbreviation usable_hash := (Detector.usable_hash P F fs).
Local Abbreviation process_image := (Detector.process_image P F fs).
Local Abbreviation members := (Facts.members P F fs).
Local Abbreviation hashed := (Facts.hashed P F fs).
Local Abbreviation run := (Facts.run P F fs).

Lemma detect_duplicates_run walk :
  Detector.detect_duplicates P F fs Detector.init walk =
  run (length (Detector.find_image_files walk)) (Detector.find_image_files walk).
Proof.
  unfold Detector.detect_duplicates, Facts.run. simpl.
  destruct (decide _) as [H0|]; [|done].
  apply nil_length_inv in H0. by rewrite H0.
Qed.

Lemma group_of_run n files h l :
  (h, l) ∈ Detector.duplicates (run n files) ↔
  2 ≤ length (members h files) ∧ l = members h files.
Proof.
  destruct (index_of_run P F fs n files) as [_ Hgroup _ Hkeys].
  rewrite (elem_of_get _ _ _ Hkeys), Hgroup.
  destruct (decide _); naive_solver.
Qed.

Lemma elem_of_members h files p :
  p ∈ members h files ↔ p ∈ files ∧ usable_hash p = Some h.
Proof. unfold Facts.members. rewrite list_elem_of_filter. tauto. Qed.

(** The second element of a filtered list splits the list at the place
    where it was met. *)
Lemma filter_second {A} (Q : A → Prop) `{!∀ x, Decision (Q x)} (l : list A) a b rest :
  filter Q l = a :: b :: rest →
  ∃ before after, l = before ++ b :: after ∧ filter Q before = [a].
Proof.
  revert a. induction l as [|x l IH]; intros a; [done|].
  rewrite filter_cons. destruct (decide (Q x)) as [Hx|Hx].
  - intros [= -> Hl]. clear IH.
    induction l as [|y l IH]; [done|].
    rewrite filter_cons in Hl. destruct (decide (Q y)) as [Hy|Hy].
    + injection Hl as -> Hl. exists [a], l. split; [done|].
      rewrite filter_cons, decide_True by done. done.
    + destruct (IH Hl) as (before & after & Heq & Hf).
      destruct before as [|a' before]; [done|]. injection Heq as <- Heq.
      exists (a :: y :: before), after. split; [by rewrite Heq|].
      rewrite filter_cons, decide_True by done.
      rewrite filter_cons, decide_False by done.
      rewrite filter_cons, decide_True in Hf by done. done.
  - intros Hl. destruct (IH _ Hl) as (before & after & -> & Hf).
    exists (x :: before), after. split; [done|].
    by rewrite filter_cons, decide_False.
Qed.

(** C10: every group of the index has at least two members and lists, in
    the order of completion, the files that have its fingerprint; its first
    element is the file recorded in [image_hashes], the first one found
    with that fingerprint; and the key entered the index when the second
    file with that fingerprint completed, with the first file put before
    the second. *)
Theorem duplicates_group_shape n files h l :
  (h, l) ∈ Detector.duplicates (run n files) →
  2 ≤ length l ∧
  l = members h files ∧
  head l = Detector.image_hashes (run n files) !! h ∧
  ∃ first second before after,
    files = before ++ second :: after ∧
    members h before = [first] ∧
    ODict.get (Detector.duplicates (run n before)) h = None ∧
    ODict.get (Detector.duplicates (run n (before ++ [second]))) h
      = Some [first; second].
Proof.
  intros [Hlen ->]%group_of_run.
  split; [done|]. split; [done|].
  split. { by rewrite (Facts.index_first _ _ _ _ _ (index_of_run P F fs n files)). }
  destruct (members h files) as [|first [|second rest]] eqn:Hm;
    [simpl in Hlen; lia..|].
  destruct (filter_second _ _ _ _ _ Hm) as (before & after & Hfiles & Hbefore).
  exists first, second, before, after. split_and!; [done..| |].
  - rewrite (Facts.index_group _ _ _ _ _ (index_of_run P F fs n before)).
    unfold Facts.members. rewrite Hbefore.
    rewrite decide_False by (simpl; lia). done.
  - rewrite (Facts.index_group _ _ _ _ _ (index_of_run P F fs n (before ++ [second]))).
    assert (usable_hash second = Some h) as Hsecond.
    { assert (second ∈ members h files) as Hin by (rewrite Hm; set_solver).
      by apply elem_of_members in Hin as [_ ?]. }
    rewrite members_snoc, Hsecond.
    destruct (decide (Some h = Some h)); [|done].
    unfold Facts.members. rewrite Hbefore.
    rewrite decide_True by (simpl; lia). done.
Qed.

(** C4, as the program has it: a file belongs to a group of the index
    exactly when it was processed, its fingerprint was computed and the
    fingerprint occurs at least twice among the processed files; it belongs
    to no second group; and every group has at least two members.  A file
    with a fingerprint of its own is held in [image_hashes] only. *)
Theorem grouping_covers_shared_fingerprints n files p :
  (Facts.grouped (run n files) p ↔
     p ∈ files ∧ ∃ h, usable_hash p = Some h ∧ 2 ≤ length (members h files)) ∧
  (∀ h1 l1 h2 l2,
     (h1, l1) ∈ Detector.duplicates (run n files) →
     (h2, l2) ∈ Detector.duplicates (run n files) →
     p ∈ l1 → p ∈ l2 → h1 = h2 ∧ l1 = l2) ∧
  (∀ h l, (h, l) ∈ Detector.duplicates (run n files) → 2 ≤ length l) ∧
  (∀ h, usable_hash p = Some h → length (members h files) = 1 → p ∈ files →
        Detector.image_hashes (run n files) !! h = Some p ∧
        ¬ Facts.grouped (run n files) p).
Proof.
  split_and!.
  - unfold Facts.grouped. split.
    + intros (h & l & [Hlen ->]%group_of_run & [Hin Hp]%elem_of_members).
      eauto.
    + intros (Hin & h & Hp & Hlen). exists h, (members h files).
      split; [by apply group_of_run | by apply elem_of_members].
  - intros h1 l1 h2 l2 [_ ->]%group_of_run [_ ->]%group_of_run
      [_ H1]%elem_of_members [_ H2]%elem_of_members.
    assert (h1 = h2) as -> by congruence. done.
  - by intros h l [? ->]%group_of_run.
  - intros h Hp Hone Hin. split.
    + rewrite (Facts.index_first _ _ _ _ _ (index_of_run P F fs n files)).
      assert (p ∈ members h files) as Hm by by apply elem_of_members.
      destruct (members h files) as [|q [|]]; simplify_eq/=.
      by apply list_elem_of_singleton in Hm as ->.
    + intros (h' & l & [Hlen ->]%group_of_run & [_ Hp']%elem_of_members).
      assert (h' = h) as -> by congruence. lia.
Qed.

(** C6, as the program has it: a file whose hash cannot be computed leaves
    the detector as it was, so that it enters neither [image_hashes] nor
    any group, is not counted in [processed_count], and the run goes on
    with the other files as if the file had not been submitted;
    [processed_count] counts the hashed files only. *)
Theorem failed_hash_is_skipped image_path :
  Detector.calculate_image_hash P F fs image_path = None →
  (∀ d, process_image d image_path = d) ∧
  (∀ n before after,
     run n (before ++ image_path :: after) = run n (before ++ after)) ∧
  (∀ n files,
     ¬ Facts.grouped (run n files) image_path ∧
     (∀ h, Detector.image_hashes (run n files) !! h ≠ Some image_path) ∧
     Detector.processed_count (run n files) = length (hashed files) ∧
     Detector.total_files (run n files) = n).
Proof.
  intros Hcalc.
  assert (usable_hash image_path = None) as Hnone.
  { unfold Detector.usable_hash. by rewrite Hcalc. }
  split_and!.
  - intros d. by apply process_image_no_hash.
  - intros n before after. unfold Facts.run. rewrite !foldl_app. simpl.
    by rewrite process_image_no_hash.
  - intros n files. split_and!.
    + intros (h & l & [_ ->]%group_of_run & [_ Hp]%elem_of_members). congruence.
    + intros h. rewrite (Facts.index_first _ _ _ _ _ (index_of_run P F fs n files)).
      intros Hhead. apply head_Some_elem_of, elem_of_members in Hhead as [_ ?].
      congruence.
    + apply (Facts.index_count _ _ _ _ _ (index_of_run P F fs n files)).
    + unfold Facts.run. induction files as [|q files IH] using rev_ind; [done|].
      rewrite foldl_app. simpl. unfold Detector.process_image.
      destruct (usable_hash q); [|done]. simpl.
      unfold Detector.update_index. by destruct (_ !! _).
Qed.

End grouping.

Section grouping_examples.
Import Demo.

Lemma duplicates_group_shape_witness :
  ("12", ["./a.jpg"; "./b.jpg"]) ∈
    Detector.duplicates
      (Facts.run plain no_faults disk 3 ["./a.jpg"; "./c.jpg"; "./b.jpg"]) ∧
  2 ≤ length ["./a.jpg"; "./b.jpg"] ∧
  ["./a.jpg"; "./b.jpg"] =
    Facts.members plain no_faults disk "12" ["./a.jpg"; "./c.jpg"; "./b.jpg"].
Proof.
  assert (("12", ["./a.jpg"; "./b.jpg"]) ∈
    Detector.duplicates
      (Facts.run plain no_faults disk 3 ["./a.jpg"; "./c.jpg"; "./b.jpg"])) as H.
  { vm_compute. left. }
  split; [exact H|].
  destruct (duplicates_group_shape plain no_faults disk 3 _ _ _ H) as (H2 & Hm & _).
  split; [exact H2 | exact Hm].
Defined.

(** C4 fails as it is worded: two files with different fingerprints are
    both hashed, and neither belongs to a group, since the index has
    none. *)
Lemma unique_fingerprint_in_no_group :
  Detector.find_image_files [(".", [], ["a.jpg"; "c.jpg"])] = ["./a.jpg"; "./c.jpg"] ∧
  Detector.usable_hash plain no_faults disk "./a.jpg" = Some "12" ∧
  Detector.usable_hash plain no_faults disk "./c.jpg" = Some "7" ∧
  Detector.duplicates
    (Detector.detect_duplicates plain no_faults disk Detector.init
       [(".", [], ["a.jpg"; "c.jpg"])]) = [] ∧
  ¬ Facts.grouped
      (Detector.detect_duplicates plain no_faults disk Detector.init
         [(".", [], ["a.jpg"; "c.jpg"])]) "./a.jpg".
Proof.
  split_and!; try (vm_compute; reflexivity).
  intros (h & l & Hin & _). vm_compute in Hin. by apply elem_of_nil in Hin.
Qed.

(** C6 fails as it is worded: the file that does not decode changes no
    field of the detector, whatever one reads off the detector as the
    tally; after the run only [total_files - processed_count] tells that a
    file failed. *)
Lemma hash_failure_is_not_tallied :
  Detector.calculate_image_hash plain no_faults disk "./broken.jpg" = None ∧
  (∀ (tally : Detector.t → nat) d,
     tally (Detector.process_image plain no_faults disk d "./broken.jpg")
     = tally d) ∧
  Detector.detect_duplicates plain no_faults disk Detector.init
    [(".", [], ["a.jpg"; "broken.jpg"; "b.jpg"])] =
  {| Detector.image_hashes := {[ "12" := "./a.jpg" ]};
     Detector.duplicates := [("12", ["./a.jpg"; "./b.jpg"])];
     Detector.processed_count := 2;
     Detector.total_files := 3 |}.
Proof.
  split_and!; vm_compute; reflexivity.
Qed.

Lemma failed_hash_is_skipped_witness :
  Detector.calculate_image_hash plain no_faults disk "./broken.jpg" = None ∧
  Detector.process_image plain no_faults disk Detector.init "./broken.jpg"
    = Detector.init.
Proof.
  assert (Detector.calculate_image_hash plain no_faults disk "./broken.jpg" = None)
    as H by (vm_compute; reflexivity).
  split; [exact H|].
  exact (proj1 (failed_hash_is_skipped plain no_faults disk _ H) Detector.init).
Defined.

End grouping_examples.

Section paths.

Lemma endswith_spec s suffix :
  Path.endswith s suffix = true ↔ ∃ pre, s = pre +:+ suffix.
Proof.
  induction s as [|c s IH]; simpl.
  - destruct (decide ("" = suffix)) as [<-|Hne].
    + split; [by exists "" | done].
    + split; [done|]. intros [[|??] Heq]; simpl in Heq; [done | discriminate].
  - destruct (decide (String c s = suffix)) as [<-|Hne].
    + split; [by exists "" | done].
    + rewrite IH. split.
      * intros [pre ->]. by exists (String c pre).
      * intros [[|c' pre] Heq]; simpl in Heq; [done|].
        injection Heq as -> ->. by exists pre.
Qed.



Lemma string_app_cons c (s1 s2 : string) : String c s1 +:+ s2 = String c (s1 +:+ s2).
Proof. reflexivity. Qed.

Lemma string_app_nil_l (s : string) : "" +:+ s = s.
Proof. reflexivity. Qed.

Lemma string_app_assoc (s1 s2 s3 : string) : (s1 +:+ s2) +:+ s3 = s1 +:+ s2 +:+ s3.
Proof.
  induction s1 as [|c s1 IH]; [done|]. by rewrite !string_app_cons, IH.
Qed.

Lemma string_app_nil_r (s : string) : s +:+ "" = s.
Proof. induction s as [|c s IH]; [done|]. by rewrite string_app_cons, IH. Qed.

Lemma string_app_length (s1 s2 : string) :
  String.length (s1 +:+ s2) = String.length s1 + String.length s2.
Proof.
  induction s1 as [|c s1 IH]; [done|]. rewrite string_app_cons. simpl. by rewrite IH.
Qed.

Lemma string_app_inj_r (s1 s2 e : string) : s1 +:+ e = s2 +:+ e → s1 = s2.
Proof.
  intros Heq.
  assert (String.length s1 = String.length s2) as Hlen.
  { apply (f_equal String.length) in Heq. rewrite !string_app_length in Heq. lia. }
  revert s2 Heq Hlen. induction s1 as [|c s1 IH]; intros [|c' s2] Heq Hlen;
    try done.
  rewrite !string_app_cons in Heq. injection Heq as -> Heq.
  f_equal. apply IH; [done|]. simpl in Hlen. lia.
Qed.


End paths.

Section scanner.


Lemma elem_of_find_image_files walk p :
  p ∈ Detector.find_image_files walk ↔
  ∃ root dirs files file,
    (root, dirs, files) ∈ walk ∧ file ∈ files ∧
    Detector.is_image_name file = true ∧ p = Path.join root file.
Proof.
  unfold Detector.find_image_files. rewrite list_elem_of_In, in_flat_map. split.
  - intros ([[root dirs] files] & Hin & Hp). apply list_elem_of_In in Hin, Hp.
    apply list_elem_of_fmap in Hp as (file & -> & Hfile).
    apply list_elem_of_filter in Hfile as [Himg Hfile].
    exists root, dirs, files, file. split_and!; try done.
    by apply Is_true_true.
  - intros (root & dirs & files & file & Hin & Hfile & Himg & ->).
    exists (root, dirs, files). split; [by apply list_elem_of_In|].
    apply list_elem_of_In, list_elem_of_fmap. exists file. split; [done|].
    apply list_elem_of_filter. split; [by apply Is_true_true | done].
Qed.



(** The suffix test compares letter for letter: of the spellings of one
    extension only the two that the set lists are found. *)
Example mixed_case_extension_not_listed :
  Detector.find_image_files [(".", [], ["x.jpg"; "y.JPG"; "z.Jpg"])]
    = ["./x.jpg"; "./y.JPG"].
Proof. vm_compute. reflexivity. Qed.

End scanner.

Section selection.
Context (P : platform) (F : faults) (fs : gmap string file).

Lemma max_by_scan {A} (key : A → Z) l : ∀ pre mid best,
  (∀ x, x ∈ pre → (key x < key best)%Z) →
  (∀ x, x ∈ mid → (key x ≤ key best)%Z) →
  ∃ before after,
    pre ++ best :: mid ++ l = before ++ Detector.max_by key best l :: after ∧
    (∀ x, x ∈ before → (key x < key (Detector.max_by key best l))%Z) ∧
    (∀ x, x ∈ after → (key x ≤ key (Detector.max_by key best l))%Z).
Proof.
  induction l as [|y l IH]; intros pre mid best Hpre Hmid; simpl.
  - exists pre, mid. by rewrite app_nil_r.
  - destruct (Z.ltb_spec (key best) (key y)) as [Hlt|Hge].
    + destruct (IH (pre ++ best :: mid) [] y) as (before & after & Heq & Hb & Ha).
      * intros x [Hx|[->|Hx]%elem_of_cons]%elem_of_app.
        -- specialize (Hpre x Hx). lia.
        -- done.
        -- specialize (Hmid x Hx). lia.
      * by intros x ?%elem_of_nil.
      * exists before, after. split; [|done].
        rewrite <-Heq. by rewrite <-app_assoc.
    + destruct (IH pre (mid ++ [y]) best) as (before & after & Heq & Hb & Ha).
      * done.
      * intros x [Hx| ->%list_elem_of_singleton]%elem_of_app; [by apply Hmid | done].
      * exists before, after. split; [|done].
        rewrite <-Heq. by rewrite <-app_assoc.
Qed.

Lemma max_by_first {A} (key : A → Z) best l :
  ∃ before after,
    best :: l = before ++ Detector.max_by key best l :: after ∧
    (∀ x, x ∈ before → (key x < key (Detector.max_by key best l))%Z) ∧
    (∀ x, x ∈ after → (key x ≤ key (Detector.max_by key best l))%Z).
Proof.
  apply (max_by_scan key l [] [] best); by intros x ?%elem_of_nil.
Qed.

Lemma min_by_max_by {A} (key : A → Z) best l :
  Detector.min_by key best l = Detector.max_by (λ x, - key x)%Z best l.
Proof.
  revert best. induction l as [|y l IH]; intros best; simpl; [done|].
  rewrite !IH.
  destruct (Z.ltb_spec (key y) (key best)), (Z.ltb_spec (- key best) (- key y));
    done || lia.
Qed.

Lemma select_keep_file_rank strategy r inputs first others :
  Policy.rank strategy = Some r →
  Detector.select_keep_file strategy inputs first others
    = Some (Detector.max_by r first others, inputs).
Proof.
  unfold Policy.rank, Detector.select_keep_file.
  repeat (destruct (decide _); [intros [= <-]; by rewrite ?min_by_max_by|]).
  done.
Qed.

Lemma path_get_file_info file_path info :
  Detector.get_file_info F fs file_path = Some info → Detector.path info = file_path.
Proof.
  unfold Detector.get_file_info. destruct (stat_fails F file_path); [done|].
  destruct (Fs.stat fs file_path); [|done]. by intros [= <-].
Qed.

Lemma choose_loop_rank strategy r groups : ∀ inputs keep del,
  Policy.rank strategy = Some r →
  Detector.choose_loop F fs strategy groups inputs keep del =
  Some (keep ++ (Detector.path <$> omap (Policy.keeper F fs r) groups),
        del ++ concat (Policy.discarded F fs r <$> groups),
        inputs).
Proof.
  induction groups as [|[h file_list] groups IH]; intros inputs keep del Hrank.
  - simpl. by rewrite !app_nil_r.
  - assert (omap (Policy.keeper F fs r) ((h, file_list) :: groups) =
            match Policy.keeper F fs r (h, file_list) with
            | Some keep => keep :: omap (Policy.keeper F fs r) groups
            | None => omap (Policy.keeper F fs r) groups
            end) as -> by done.
    rewrite fmap_cons, concat_cons. unfold Policy.discarded at 1.
    change ((h, file_list).2) with file_list.
    cbn [Detector.choose_loop].
    destruct (Policy.keeper F fs r (h, file_list)) as [k|] eqn:Hk;
      unfold Policy.keeper in Hk; simpl in Hk;
      destruct (decide (length file_list ≤ 1)); try done;
      change (list_omap _ _ ?f ?l) with (omap f l) in Hk |- *;
      destruct (omap (Detector.get_file_info F fs) file_list) as [|first others];
      try done.
    all: try (rewrite ?app_nil_l; by apply IH).
    injection Hk as <-.
    rewrite (select_keep_file_rank _ _ _ _ _ Hrank), IH by done.
    by rewrite fmap_cons, <-!app_assoc.
Qed.

(** C5, as the program has it: under each of the four fixed strategies
    [choose_files_to_keep] names one keeper for every group that has at
    least two listed members of which some can be examined, consults no
    input and returns the same keepers whenever it is asked again; the
    keeper has the latest or earliest modification time, or the largest or
    smallest size, among the members that can be examined, and of several
    such members the one that comes first in the group's list is kept. *)
Theorem keeper_is_first_best d strategy r inputs :
  Policy.rank strategy = Some r →
  Detector.choose_files_to_keep F fs d strategy inputs =
    Some (Detector.path <$> omap (Policy.keeper F fs r) (Detector.duplicates d),
          concat (Policy.discarded F fs r <$> Detector.duplicates d),
          inputs) ∧
  ∀ h file_list first others,
    (h, file_list) ∈ Detector.duplicates d →
    2 ≤ length file_list →
    omap (Detector.get_file_info F fs) file_list = first :: others →
    ∃ keep before after,
      Policy.keeper F fs r (h, file_list) = Some keep ∧
      Policy.discarded F fs r (h, file_list) =
        Detector.path <$>
          filter (λ info, Detector.path info ≠ Detector.path keep) (first :: others) ∧
      first :: others = before ++ keep :: after ∧
      (∀ x, x ∈ before → (r x < r keep)%Z) ∧
      (∀ x, x ∈ after → (r x ≤ r keep)%Z).
Proof.
  intros Hrank. split.
  - unfold Detector.choose_files_to_keep.
    by rewrite (choose_loop_rank _ _ _ _ _ _ Hrank).
  - intros h file_list first others _ Hlen Hinfos.
    destruct (max_by_first r first others) as (before & after & Heq & Hb & Ha).
    exists (Detector.max_by r first others), before, after.
    unfold Policy.discarded, Policy.keeper. simpl.
    rewrite decide_False by lia. rewrite Hinfos. done.
Qed.

End selection.

Section selection_examples.
Import Demo.

Lemma keeper_is_first_best_witness :
  Policy.rank "newest" = Some Detector.mtime ∧
  Detector.choose_files_to_keep no_faults disk
    (Facts.run plain no_faults disk 3 ["./a.jpg"; "./c.jpg"; "./b.jpg"; "./d.jpg"])
    "newest" []
  = Some (["./b.jpg"], ["./a.jpg"; "./d.jpg"], []).
Proof.
  assert (Policy.rank "newest" = Some Detector.mtime) as Hrank by reflexivity.
  split; [exact Hrank|].
  rewrite (proj1 (keeper_is_first_best no_faults disk
                    (Facts.run plain no_faults disk 3
                       ["./a.jpg"; "./c.jpg"; "./b.jpg"; "./d.jpg"])
                    "newest" Detector.mtime [] Hrank)).
  vm_compute. reflexivity.
Defined.

(** C5 fails as it is worded: two copies with the same modification time
    are told apart by their place in the group, not by their paths.  The
    group in which [b.jpg] completed first keeps [b.jpg], although
    ["./a.jpg"] precedes ["./b.jpg"] and the selector of the design
    document keeps [a.jpg] for either order. *)
Lemma tie_goes_to_first_listed :
  Detector.duplicates (Facts.run plain no_faults tied_disk 2 ["./b.jpg"; "./a.jpg"])
    = [("12", ["./b.jpg"; "./a.jpg"])] ∧
  Detector.choose_files_to_keep no_faults tied_disk
    (Facts.run plain no_faults tied_disk 2 ["./b.jpg"; "./a.jpg"]) "newest" []
    = Some (["./b.jpg"], ["./a.jpg"], []) ∧
  Detector.choose_files_to_keep no_faults tied_disk
    (Facts.run plain no_faults tied_disk 2 ["./a.jpg"; "./b.jpg"]) "newest" []
    = Some (["./a.jpg"], ["./b.jpg"], []) ∧
  String.ltb "./a.jpg" "./b.jpg" = true ∧
  Detector.path <$>
    (match omap (Detector.get_file_info no_faults tied_disk) ["./b.jpg"; "./a.jpg"] with
     | first :: others => Some (Policy.lexicographic_keeper Detector.mtime first others)
     | [] => None
     end) = Some "./a.jpg".
Proof. split_and!; vm_compute; reflexivity. Qed.

End selection_examples.


Section backup_names.

Lemma split_last_sep_app s : ∀ head cur h b,
  Path.split_last_sep head cur s = (h, b) → h +:+ b = head +:+ cur +:+ s.
Proof.
  induction s as [|c s IH]; intros head cur h b; simpl.
  - intros [= <- <-]. by rewrite string_app_nil_r.
  - destruct (decide (c = "/"%char)) as [->|Hc]; intros Hs%IH; rewrite Hs.
    + by rewrite !string_app_assoc.
    + by rewrite !string_app_assoc.
Qed.

Lemma leading_dots_app s d r : Path.leading_dots s = (d, r) → d +:+ r = s.
Proof.
  revert d r. induction s as [|c s IH]; intros d r; simpl.
  - by intros [= <- <-].
  - destruct (decide (c = "."%char)) as [->|Hc].
    + destruct (Path.leading_dots s) as [d' r'] eqn:Hs. intros [= <- <-].
      rewrite string_app_cons. f_equal. by apply IH.
    + by intros [= <- <-].
Qed.

Lemma split_last_dot_app s : ∀ stem cur seen st e,
  (seen = true → ∃ e', cur = String "." e') →
  Path.split_last_dot stem cur seen s = Some (st, e) →
  st +:+ e = (if seen then stem +:+ cur else cur) +:+ s ∧ ∃ e', e = String "." e'.
Proof.
  induction s as [|c s IH]; intros stem cur seen st e Hcur; simpl.
  - destruct seen; [|done]. intros [= <- <-].
    rewrite string_app_nil_r. split; [done | by apply Hcur].
  - destruct (decide (c = "."%char)) as [->|Hc]; intros Hs.
    + apply IH in Hs as [-> He]; [|by eauto]. split; [|done].
      by rewrite string_app_assoc.
    + apply IH in Hs as [-> He].
      * split; [|done]. destruct seen; by rewrite !string_app_assoc.
      * intros Hseen. destruct (Hcur Hseen) as [e' ->]. eauto.
Qed.

Lemma splitext_app p name ext :
  Path.splitext p = (name, ext) →
  name +:+ ext = p ∧ (ext = "" ∨ ∃ e, ext = String "." e).
Proof.
  unfold Path.splitext.
  destruct (Path.split_last_sep "" "" p) as [head base] eqn:Hsep.
  destruct (Path.leading_dots base) as [dots rest] eqn:Hdots.
  destruct (Path.split_last_dot "" "" false rest) as [[stem e]|] eqn:Hdot.
  - intros [= <- <-]. apply split_last_dot_app in Hdot as [Hse He]; [|done].
    split; [|by right].
    apply split_last_sep_app in Hsep. apply leading_dots_app in Hdots.
    rewrite !string_app_nil_l in Hsep, Hse.
    by rewrite !string_app_assoc, Hse, Hdots.
  - intros [= <- <-]. split; [apply string_app_nil_r | by left].
Qed.

Lemma backup_candidate_inj base j k :
  Detector.backup_candidate base j = Detector.backup_candidate base k → j = k.
Proof.
  unfold Detector.backup_candidate. destruct (Path.splitext base) as [name ext].
  intros Heq. apply (inj (String.app name)) in Heq.
  apply (inj (String.app "_")) in Heq.
  apply string_app_inj_r in Heq. by apply (inj pretty) in Heq.
Qed.

Lemma follow_entry fuel (fs : gmap string file) : ∀ p t f,
  Fs.follow fuel fs p = Some (t, f) →
  fs !! t = Some f ∧ link f = None ∧ is_Some (fs !! p).
Proof.
  induction fuel as [|fuel IH]; intros p t f; simpl;
    destruct (fs !! p) as [e|] eqn:Hp; try done;
    destruct (link e) as [u|] eqn:Hl; try done.
  - intros [= <- <-]. eauto.
  - intros (? & ? & _)%IH. eauto.
  - intros [= <- <-]. eauto.
Qed.

Lemma follow_plain fuel (fs : gmap string file) p f :
  fs !! p = Some f → link f = None → Fs.follow fuel fs p = Some (p, f).
Proof. intros Hp Hl. destruct fuel; simpl; by rewrite Hp, Hl. Qed.

Lemma stat_entry (fs : gmap string file) p f :
  Fs.stat fs p = Some f →
  is_Some (fs !! p) ∧ link f = None ∧ ∃ t, fs !! t = Some f.
Proof.
  unfold Fs.stat, Fs.resolve.
  destruct (Fs.follow _ fs p) as [[t g]|] eqn:Hf; [|done].
  intros [= <-]. apply follow_entry in Hf as (? & ? & ?). eauto.
Qed.

Lemma stat_plain (fs : gmap string file) p f :
  fs !! p = Some f → link f = None → Fs.stat fs p = Some f.
Proof.
  intros Hp Hl. unfold Fs.stat, Fs.resolve. by rewrite (follow_plain _ _ _ _ Hp Hl).
Qed.

Lemma path_exists_false (fs : gmap string file) p :
  Fs.path_exists fs p = false ↔ Fs.stat fs p = None.
Proof.
  unfold Fs.path_exists. rewrite bool_decide_eq_false. symmetry. apply eq_None_not_Some.
Qed.

Lemma path_exists_true (fs : gmap string file) p :
  Fs.path_exists fs p = true ↔ is_Some (Fs.stat fs p).
Proof. unfold Fs.path_exists. by rewrite bool_decide_eq_true. Qed.

(** A path under which nothing can be opened leads to no entry. *)
Lemma landing_free fuel (fs : gmap string file) : ∀ p t,
  Fs.follow fuel fs p = None → Fs.landing fuel fs p = Some t → fs !! t = None.
Proof.
  induction fuel as [|fuel IH]; intros p t; simpl;
    destruct (fs !! p) as [e|] eqn:Hp; try (by intros _ [= <-]);
    destruct (link e) as [u|] eqn:Hl; try done.
  apply IH.
Qed.

Lemma landing_follow_None fuel (fs : gmap string file) : ∀ p t,
  Fs.landing fuel fs p = Some t → fs !! t = None →
  ∀ m, Fs.follow m fs p = None.
Proof.
  induction fuel as [|fuel IH]; intros p t; simpl;
    destruct (fs !! p) as [e|] eqn:Hp.
  - destruct (link e) as [u|] eqn:Hl; [done|]. intros [= <-]. congruence.
  - intros _ _ m. destruct m; simpl; by rewrite Hp.
  - destruct (link e) as [u|] eqn:Hl.
    + intros Hland Hfree m. destruct m as [|m]; simpl; rewrite Hp, Hl; [done|].
      by eapply IH.
    + intros [= <-]. congruence.
  - intros _ _ m. destruct m; simpl; by rewrite Hp.
Qed.

(** What is written where a path without a file behind it leads can be
    read under that path, also after another file has been removed. *)
Lemma follow_written fuel (fs : gmap string file) t g :
  fs !! t = None → link g = None → ∀ p,
  Fs.landing fuel fs p = Some t →
  Fs.follow fuel (<[t := g]> fs) p = Some (t, g) ∧
  ∀ q, (∃ m, is_Some (Fs.follow m fs q)) →
       Fs.follow fuel (delete q (<[t := g]> fs)) p = Some (t, g).
Proof.
  intros Hfree Hg. induction fuel as [|fuel IH]; intros p Hland.
  - simpl in Hland. destruct (fs !! p) as [e|] eqn:Hp.
    + destruct (link e); [done|]. injection Hland as <-. congruence.
    + injection Hland as <-. split.
      * simpl. by rewrite lookup_insert_eq, Hg.
      * intros q [m [[? ?] (_ & _ & [e He])%follow_entry]]. simpl.
        rewrite lookup_delete_ne by congruence. by rewrite lookup_insert_eq, Hg.
  - pose proof (landing_follow_None _ _ _ _ Hland Hfree) as Hnone.
    simpl in Hland. destruct (fs !! p) as [e|] eqn:Hp.
    + destruct (link e) as [u|] eqn:Hl; [|injection Hland as <-; congruence].
      destruct (IH u Hland) as [IH1 IH2]. split.
      * simpl. rewrite lookup_insert_ne by congruence. by rewrite Hp, Hl.
      * intros q Hq. simpl.
        assert (q ≠ p) as Hqp.
        { intros ->. destruct Hq as [m [x Hx]]. by rewrite Hnone in Hx. }
        rewrite lookup_delete_ne by done.
        rewrite lookup_insert_ne by congruence. rewrite Hp, Hl. by apply IH2.
    + injection Hland as <-. split.
      * simpl. by rewrite lookup_insert_eq, Hg.
      * intros q [m [[? ?] (_ & _ & [e He])%follow_entry]]. simpl.
        rewrite lookup_delete_ne by congruence. by rewrite lookup_insert_eq, Hg.
Qed.

(** A disk that agrees with another along the trail of a path leads to
    the same entry. *)
Lemma follow_agree fuel (fs fs' : gmap string file) : ∀ p,
  (∀ x, x ∈ Fs.trail fuel fs p → fs' !! x = fs !! x) →
  Fs.follow fuel fs' p = Fs.follow fuel fs p.
Proof.
  induction fuel as [|fuel IH]; intros p Hsame; simpl in *.
  - rewrite (Hsame p) by left. done.
  - rewrite (Hsame p) by left.
    destruct (fs !! p) as [e|] eqn:Hp; [|done].
    destruct (link e) as [u|] eqn:Hl; [|done].
    apply IH. intros x Hx. apply Hsame. by right.
Qed.

(** A path of whose trail an entry has gone leads nowhere. *)
Lemma follow_broken fuel (fs fs' : gmap string file) (gone : string → Prop) :
  (∀ x, gone x → fs' !! x = None) →
  (∀ x, ¬ gone x → fs' !! x = fs !! x) →
  (∀ x, gone x ∨ ¬ gone x) →
  ∀ p x, x ∈ Fs.trail fuel fs p → gone x → Fs.follow fuel fs' p = None.
Proof.
  intros Hgone Hkept Hdec.
  induction fuel as [|fuel IH]; intros p x Hx Hgx; simpl in *.
  - destruct (Hdec p) as [Hp|Hp]; [by rewrite Hgone|].
    rewrite Hkept by done. destruct (fs !! p) as [e|]; [|done].
    destruct (link e) as [u|]; [done|].
    apply elem_of_cons in Hx as [->|Hx]; [done | by apply elem_of_nil in Hx].
  - destruct (Hdec p) as [Hp|Hp]; [by rewrite Hgone|].
    rewrite Hkept by done. destruct (fs !! p) as [e|].
    + destruct (link e) as [u|].
      * apply elem_of_cons in Hx as [->|Hx]; [done | by eapply IH].
      * apply elem_of_cons in Hx as [->|Hx]; [done | by apply elem_of_nil in Hx].
    + apply elem_of_cons in Hx as [->|Hx]; [done | by apply elem_of_nil in Hx].
Qed.

Lemma free_backup_path_Some fs base : ∀ fuel backup_path k target,
  Detector.free_backup_path fuel fs base backup_path k = Some target →
  Fs.path_exists fs target = false ∧
  ((Fs.path_exists fs backup_path = false ∧ target = backup_path) ∨
   (Fs.path_exists fs backup_path = true ∧
    ∃ j, k ≤ j < k + fuel ∧ target = Detector.backup_candidate base j ∧
         ∀ i, k ≤ i < j →
              Fs.path_exists fs (Detector.backup_candidate base i) = true)).
Proof.
  induction fuel as [|fuel IH]; intros backup_path k target; simpl;
    destruct (Fs.path_exists fs backup_path) eqn:Hex.
  - done.
  - intros [= <-]. auto.
  - intros (Hfree & Hcase)%IH. split; [done|]. right. split; [done|].
    destruct Hcase as [[Hnone ->]|(Hsome & j & Hj & -> & Hbelow)].
    + exists k. split_and!; [lia | lia | done | intros; lia].
    + exists j. split_and!; [lia | lia | done |].
      intros i Hi. destruct (decide (i = k)) as [->|]; [done|]. apply Hbelow. lia.
  - intros [= <-]. auto.
Qed.

Lemma free_backup_path_None fs base : ∀ fuel backup_path k,
  Detector.free_backup_path fuel fs base backup_path k = None →
  ∀ i, k ≤ i < k + fuel →
       Fs.path_exists fs (Detector.backup_candidate base i) = true.
Proof.
  induction fuel as [|fuel IH]; intros backup_path k; simpl;
    destruct (Fs.path_exists fs backup_path) eqn:Hex; try done.
  - intros _ i Hi. lia.
  - intros Hnone i Hi. destruct (decide (i = k)) as [->|Hne].
    + destruct fuel; simpl in Hnone;
        by destruct (Fs.path_exists fs (Detector.backup_candidate base k)).
    + apply (IH _ _ Hnone). lia.
Qed.

Lemma free_backup_path_more_fuel fs base : ∀ fuel fuel' backup_path k target,
  Detector.free_backup_path fuel fs base backup_path k = Some target →
  fuel ≤ fuel' →
  Detector.free_backup_path fuel' fs base backup_path k = Some target.
Proof.
  induction fuel as [|fuel IH]; intros fuel' backup_path k target; simpl;
    destruct (Fs.path_exists fs backup_path) eqn:Hex; try done.
  - intros [= <-] _. destruct fuel'; simpl; by rewrite Hex.
  - intros Hs Hle. destruct fuel' as [|fuel']; [lia|]. simpl. rewrite Hex.
    apply IH; [done | lia].
  - intros [= <-] _. destruct fuel'; simpl; by rewrite Hex.
Qed.

Lemma candidates_exceed_disk (fs : gmap string file) base k :
  ¬ ∀ i, k ≤ i < k + S (size fs) →
         Fs.path_exists fs (Detector.backup_candidate base i) = true.
Proof.
  intros Hall.
  pose (l := Detector.backup_candidate base <$> seq k (S (size fs))).
  assert (NoDup l) as Hnd.
  { apply NoDup_fmap_2; [|apply NoDup_seq].
    intros ??. apply backup_candidate_inj. }
  assert (list_to_set l ⊆ dom fs) as Hsub.
  { intros x (i & -> & Hi%elem_of_seq)%elem_of_list_to_set%list_elem_of_fmap.
    apply elem_of_dom.
    destruct (proj1 (path_exists_true _ _) (Hall i ltac:(lia))) as [f Hf].
    by apply stat_entry in Hf as [? _]. }
  apply subseteq_size in Hsub.
  rewrite size_list_to_set, size_dom in Hsub by done.
  unfold l in Hsub. rewrite length_fmap, length_seq in Hsub. lia.
Qed.

Lemma free_backup_path_found (fs : gmap string file) base backup_path :
  is_Some (Detector.free_backup_path (S (size fs)) fs base backup_path 1).
Proof.
  destruct (Detector.free_backup_path _ _ _ _ _) eqn:Hs; [done|].
  destruct (candidates_exceed_disk fs base 1).
  by apply (free_backup_path_None _ _ _ _ _ Hs).
Qed.

End backup_names.

Section deletion.
Context (P : platform) (F : faults).

Local Abbreviation round := (Round.round F).

(** A copy to a name under which nothing can be opened: either the disk
    is as it was and the call has raised, or one entry has been made, at
    the path to which the name leads and which had none. *)
Lemma copy2_free fs src target oe fs1 :
  Fs.path_exists fs target = false →
  Fs.copy2 F fs src target = (oe, fs1) →
  fs1 = fs ∧ is_Some oe ∨
  ∃ s f t g,
    Fs.resolve fs src = Some (s, f) ∧ is_dir f = false ∧
    Fs.landing Fs.symloop_max fs target = Some t ∧ fs !! t = None ∧
    fs1 = <[t := g]> fs ∧
    (oe = None ∧ g = Fs.copy_of f ∨
     is_Some oe ∧ ∃ written time, g = Fs.partial_copy f written time).
Proof.
  intros Hfree%path_exists_false. unfold Fs.copy2. rewrite Hfree.
  destruct (Fs.resolve fs src) as [[s f]|] eqn:Hsrc;
    [|intros [= <- <-]; left; eauto].
  destruct (is_dir f) eqn:Hdir; [intros [= <- <-]; left; eauto|].
  destruct (Fs.landing _ fs target) as [t|] eqn:Hland;
    [|intros [= <- <-]; left; eauto].
  assert (fs !! t = None) as Ht.
  { eapply landing_free; [|done]. unfold Fs.stat, Fs.resolve in Hfree.
    by destruct (Fs.follow _ fs target). }
  destruct (decide (t = s)); [intros [= <- <-]; left; eauto|].
  rewrite Ht. simpl.
  destruct (copy_fails F fs src target) as [[|written time]|];
    intros [= <- <-].
  - left. eauto.
  - right. exists s, f, t, (Fs.partial_copy f written time).
    split_and!; try done. right. eauto.
  - right. exists s, f, t, (Fs.copy_of f). split_and!; try done. by left.
Qed.

Lemma copy2_subseteq fs src target oe fs1 :
  Fs.path_exists fs target = false →
  Fs.copy2 F fs src target = (oe, fs1) → fs ⊆ fs1.
Proof.
  intros Hfree Hcopy.
  destruct (copy2_free _ _ _ _ _ Hfree Hcopy)
    as [[-> _]|(s & f & t & g & _ & _ & _ & Ht & -> & _)]; [done|].
  by apply insert_subseteq.
Qed.

(** A copy that has returned can be read under the name it was given,
    with the bytes and the time of the source, also after the source has
    been removed. *)
Lemma copy2_done fs src target fs1 :
  Fs.path_exists fs target = false →
  Fs.copy2 F fs src target = (None, fs1) →
  ∃ f, Fs.stat fs src = Some f ∧ is_dir f = false ∧
       Fs.stat fs1 target = Some (Fs.copy_of f) ∧
       Fs.stat (delete src fs1) target = Some (Fs.copy_of f).
Proof.
  intros Hfree Hcopy.
  destruct (copy2_free _ _ _ _ _ Hfree Hcopy)
    as [[_ [? [=]]]|(s & f & t & g & Hsrc & Hdir & Hland & Ht & -> & Hg)].
  destruct Hg as [[_ ->]|[[? [=]] _]].
  destruct (follow_written _ fs t (Fs.copy_of f) Ht eq_refl target Hland)
    as [H1 H2].
  unfold Fs.resolve in Hsrc.
  exists f. unfold Fs.stat, Fs.resolve. rewrite Hsrc, H1. split_and!; try done.
  rewrite (H2 src); [done|]. exists Fs.symloop_max. by rewrite Hsrc.
Qed.

Lemma remove_inr fs p fs' :
  Fs.remove F fs p = inr fs' → is_Some (fs !! p) ∧ fs' = delete p fs.
Proof.
  unfold Fs.remove. destruct (fs !! p) as [f|]; [|done].
  destruct (_ && _); [done|]. destruct (remove_fails F fs p); [done|].
  intros [= <-]. eauto.
Qed.

Lemma backup_target_free dir fs file_path target :
  Round.backup_target dir fs file_path target →
  Fs.path_exists fs target = false.
Proof. unfold Round.backup_target. by intros [? _]%free_backup_path_Some. Qed.

Lemma delete_one_round backup_dir st file_path :
  ∃ st', Detector.delete_one F backup_dir st file_path = Some st' ∧
         round backup_dir st file_path st'.
Proof.
  unfold Detector.delete_one.
  destruct (Detector.configured backup_dir) as [dir|] eqn:Hconf.
  - destruct (free_backup_path_found (Detector.disk st)
                (Path.join dir (Path.basename file_path))
                (Path.join dir (Path.basename file_path))) as [target Htarget].
    rewrite Htarget.
    destruct (Fs.copy2 F (Detector.disk st) file_path target) as [[e|] fs1] eqn:Hcopy.
    + eexists. split; [done|]. by eapply Round.round_backup_failed.
    + destruct (Fs.remove F fs1 file_path) as [e|fs2] eqn:Hrm.
      * eexists. split; [done|]. eapply Round.round_remove_failed; [|done..].
        right. by exists dir, target.
      * eexists. split; [done|]. eapply Round.round_deleted; [|done..].
        right. by exists dir, target.
  - destruct (Fs.remove F (Detector.disk st) file_path) as [e|fs2] eqn:Hrm.
    + eexists. split; [done|]. eapply Round.round_remove_failed; [|done..]. by left.
    + eexists. split; [done|]. eapply Round.round_deleted; [|done..]. by left.
Qed.

Lemma delete_one_inv backup_dir st file_path st' :
  Detector.delete_one F backup_dir st file_path = Some st' →
  round backup_dir st file_path st'.
Proof.
  destruct (delete_one_round backup_dir st file_path) as (st2 & Heq & Hr).
  rewrite Heq. by intros [= <-].
Qed.

Lemma copied_subseteq backup_dir fs file_path fs1 :
  Round.copied F backup_dir fs file_path fs1 → fs ⊆ fs1.
Proof.
  intros [[_ ->]|(dir & target & _ & Htarget & Hcopy)]; [done|].
  eapply copy2_subseteq; [|done]. by eapply backup_target_free.
Qed.


(** A round removes no entry but that of its file, and writes over
    none. *)
Lemma round_keeps_others backup_dir st p st' q g :
  round backup_dir st p st' → q ≠ p →
  Detector.disk st !! q = Some g → Detector.disk st' !! q = Some g.
Proof.
  intros Hr Hne Hq. destruct Hr as
    [dir target e fs1 _ Htarget Hcopy _ _ -> | fs1 e Hfs1 _ _ _ ->
    | fs1 Hfs1 Hrm _ _].
  - eapply lookup_weaken; [done|].
    eapply copy2_subseteq; [|done]. by eapply backup_target_free.
  - eapply lookup_weaken; [done | by eapply copied_subseteq].
  - apply remove_inr in Hrm as [_ ->]. rewrite lookup_delete_ne by done.
    eapply lookup_weaken; [done | by eapply copied_subseteq].
Qed.

(** A round that records a failure leaves every entry where it was. *)
Lemma round_failed_subseteq backup_dir st p st' :
  round backup_dir st p st' →
  Detector.deleted_files st' = Detector.deleted_files st →
  Detector.disk st ⊆ Detector.disk st'.
Proof.
  intros [dir target e fs1 _ Htarget Hcopy _ _ -> | fs1 e Hfs1 _ _ _ ->
         | fs1 Hfs1 Hrm Hd _] Hsame.
  - eapply copy2_subseteq; [|done]. by eapply backup_target_free.
  - by eapply copied_subseteq.
  - rewrite Hd in Hsame. apply (f_equal length) in Hsame.
    rewrite length_app in Hsame. simpl in Hsame. lia.
Qed.

Lemma delete_loop_returns backup_dir files : ∀ st,
  is_Some (Detector.delete_loop F backup_dir st files).
Proof.
  induction files as [|p files IH]; intros st; simpl; [done|].
  destruct (delete_one_round backup_dir st p) as (st' & -> & _). apply IH.
Qed.


(** The loop over a list is the loop over its first part, the round of
    the next file, and the loop over the rest. *)
Lemma delete_loop_middle backup_dir pre p rest : ∀ st st',
  Detector.delete_loop F backup_dir st (pre ++ p :: rest) = Some st' →
  ∃ st1 st2,
    Detector.delete_loop F backup_dir st pre = Some st1 ∧
    Detector.delete_one F backup_dir st1 p = Some st2 ∧
    Detector.delete_loop F backup_dir st2 rest = Some st'.
Proof.
  induction pre as [|q pre IH]; intros st st'; simpl.
  - destruct (Detector.delete_one F backup_dir st p) as [st2|] eqn:H2; [|done].
    intros Hrest. by exists st, st2.
  - destruct (Detector.delete_one F backup_dir st q) as [st0|]; [|done].
    apply IH.
Qed.

Lemma delete_loop_attempts backup_dir files : ∀ st st',
  Detector.delete_loop F backup_dir st files = Some st' →
  ∃ deleted failed,
    Detector.deleted_files st' = Detector.deleted_files st ++ deleted ∧
    Detector.failed_deletions st' = Detector.failed_deletions st ++ failed ∧
    deleted ++ failed.*1 ≡ₚ files ∧
    deleted `sublist_of` files ∧ failed.*1 `sublist_of` files.
Proof.
  induction files as [|p files IH]; intros st st'; simpl.
  - intros [= <-]. exists [], []. by rewrite !app_nil_r.
  - destruct (Detector.delete_one F backup_dir st p) as [st1|] eqn:H1; [|done].
    intros (deleted & failed & Hd & Hf & Hperm & Hsd & Hsf)%IH.
    apply delete_one_inv in H1.
    destruct H1 as [dir target e fs1 _ _ _ Hd1 Hf1 _ | fs1 e _ _ Hd1 Hf1 _
                   | fs1 _ _ Hd1 Hf1]; rewrite Hd1, Hf1 in *.
    + exists deleted, ((p, e) :: failed). rewrite Hd, Hf, <-app_assoc.
      split_and!; [done | done | | by constructor | by constructor].
      rewrite fmap_cons. simpl. by rewrite <-Permutation_middle, Hperm.
    + exists deleted, ((p, e) :: failed). rewrite Hd, Hf, <-app_assoc.
      split_and!; [done | done | | by constructor | by constructor].
      rewrite fmap_cons. simpl. by rewrite <-Permutation_middle, Hperm.
    + exists (p :: deleted), failed. rewrite Hd, Hf, <-app_assoc.
      split_and!; [done | done | | by constructor | by constructor].
      simpl. by rewrite Hperm.
Qed.

Lemma delete_loop_keeps backup_dir files q g : ∀ st st',
  Detector.delete_loop F backup_dir st files = Some st' →
  q ∉ files →
  Detector.disk st !! q = Some g → Detector.disk st' !! q = Some g.
Proof.
  induction files as [|p files IH]; intros st st'; simpl.
  - by intros [= <-].
  - destruct (Detector.delete_one F backup_dir st p) as [st1|] eqn:H1; [|done].
    intros Hloop [Hne Hq]%not_elem_of_cons Hst.
    apply (IH _ _ Hloop Hq).
    by eapply round_keeps_others; [apply delete_one_inv|..].
Qed.

Lemma delete_duplicate_files_returns fs files backup_dir :
  is_Some (Detector.delete_duplicate_files P F fs files backup_dir).
Proof.
  unfold Detector.delete_duplicate_files.
  destruct (match Detector.configured backup_dir with
            | Some dir => Fs.makedirs P F fs dir | None => inr fs end)
    as [e|fs0]; [done|].
  destruct (delete_loop_returns backup_dir files
              {| Detector.deleted_files := []; Detector.failed_deletions := [];
                 Detector.disk := fs0 |}) as [st' ->]. done.
Qed.

Lemma foldl_makedirs_inl (e : os_error) l :
  foldl (λ acc a,
           match acc with
           | inl e => inl e
           | inr fs' =>
               match Fs.stat fs' a with
               | Some f => if is_dir f then inr fs' else inl FileExistsError
               | None =>
                   match fs' !! a with
                   | Some _ => inl FileExistsError
                   | None => inr (<[a := fresh_dir P a]> fs')
                   end
               end
           end) (inl e) l = (inl e : os_error + gmap string file).
Proof. induction l as [|a l IH]; simpl; [done | apply IH]. Qed.

Lemma makedirs_subseteq fs d fs' :
  Fs.makedirs P F fs d = inr fs' → fs ⊆ fs'.
Proof.
  unfold Fs.makedirs. destruct (makedirs_fails F d); [done|].
  generalize (Fs.ancestors "" d) as l. intros l. revert fs.
  induction l as [|a l IH]; intros fs; simpl.
  - by intros [= <-].
  - destruct (Fs.stat fs a) as [g|] eqn:Hs.
    + destruct (is_dir g); [apply IH|]. by rewrite foldl_makedirs_inl.
    + destruct (fs !! a) as [g|] eqn:Ha; [by rewrite foldl_makedirs_inl|].
      intros Hfold%IH. etrans; [|done]. by apply insert_subseteq.
Qed.

Lemma makedirs_keeps fs d fs' p f :
  Fs.makedirs P F fs d = inr fs' → fs !! p = Some f → fs' !! p = Some f.
Proof. intros Hmk%makedirs_subseteq Hp. by eapply lookup_weaken. Qed.

(** The run of [delete_duplicate_files] on a list in which a file stands
    at a given place: the directory is made, the files before are gone
    through, and the round of the file and the rest of the loop follow. *)
Lemma delete_duplicate_files_middle fs pre p rest backup_dir r :
  Detector.delete_duplicate_files P F fs (pre ++ p :: rest) backup_dir
    = Some (inr r) →
  ∃ fs0 st st',
    (match Detector.configured backup_dir with
     | Some dir => Fs.makedirs P F fs dir
     | None => inr fs
     end) = inr fs0 ∧
    Detector.delete_loop F backup_dir
      {| Detector.deleted_files := []; Detector.failed_deletions := [];
         Detector.disk := fs0 |} pre = Some st ∧
    Detector.delete_one F backup_dir st p = Some st' ∧
    Detector.delete_loop F backup_dir st' rest = Some r.
Proof.
  unfold Detector.delete_duplicate_files.
  destruct (match Detector.configured backup_dir with
            | Some dir => Fs.makedirs P F fs dir | None => inr fs end)
    as [e|fs0]; [done|].
  destruct (Detector.delete_loop _ _ _ _) as [r'|] eqn:Hloop; [|done].
  intros [= <-]. apply delete_loop_middle in Hloop as (st & st' & ? & ? & ?).
  by exists fs0, st, st'.
Qed.

End deletion.

Section resolution.
Context (P : platform) (F : faults).

(** C8: the search for a backup name ends, within the bound that the model
    puts on it and with the same result for every larger bound; under the
    name found [os.path.exists] is false; it is the plain name when that is
    free, and otherwise the candidate with the least counter, from 1
    upwards, that is free, every candidate with a smaller counter being
    taken.  A candidate is the plain name with [_counter] put before its
    extension, and candidates with different counters differ.  Every round
    of [delete_duplicate_files] with a backup directory copies its file
    under the name that the search finds on the disk of the round: no
    entry of that disk is written over or removed but the file itself,
    and when the copy returns, the name found leads to a regular file
    with the bytes and the time of the file, whether or not the file is
    removed afterwards.  The rounds of a run are these rounds, and the run
    always returns. *)
Theorem backup_name_search (fs : gmap string file) base :
  (∃ target,
     Detector.free_backup_path (S (size fs)) fs base base 1 = Some target ∧
     (∀ fuel, S (size fs) ≤ fuel →
        Detector.free_backup_path fuel fs base base 1 = Some target) ∧
     Fs.path_exists fs target = false ∧
     ((Fs.path_exists fs base = false ∧ target = base) ∨
      (Fs.path_exists fs base = true ∧
       ∃ k, 1 ≤ k ≤ S (size fs) ∧ target = Detector.backup_candidate base k ∧
            ∀ j, 1 ≤ j < k →
                 Fs.path_exists fs (Detector.backup_candidate base j) = true))) ∧
  (∀ k, ∃ name ext,
     Path.splitext base = (name, ext) ∧ name +:+ ext = base ∧
     (ext = "" ∨ ∃ e, ext = String "." e) ∧
     Detector.backup_candidate base k = name +:+ "_" +:+ pretty k +:+ ext) ∧
  (∀ j k, Detector.backup_candidate base j = Detector.backup_candidate base k →
          j = k) ∧
  (∀ dir st file_path st',
     dir ≠ "" →
     Detector.delete_one F (Some dir) st file_path = Some st' →
     ∃ target,
       Round.backup_target dir (Detector.disk st) file_path target ∧
       Fs.path_exists (Detector.disk st) target = false ∧
       (∀ q g, q ≠ file_path → Detector.disk st !! q = Some g →
               Detector.disk st' !! q = Some g) ∧
       (file_path ∈ Detector.deleted_files st' →
        file_path ∉ Detector.deleted_files st →
        (Fs.copy2 F (Detector.disk st) file_path target).1 = None) ∧
       ((Fs.copy2 F (Detector.disk st) file_path target).1 = None →
        ∃ f, Fs.stat (Detector.disk st) file_path = Some f ∧
             is_dir f = false ∧
             Fs.stat (Detector.disk st') target = Some (Fs.copy_of f))) ∧
  (∀ dir pre file_path rest r,
     dir ≠ "" →
     Detector.delete_duplicate_files P F fs (pre ++ file_path :: rest) (Some dir)
       = Some (inr r) →
     ∃ fs0 st st',
       Fs.makedirs P F fs dir = inr fs0 ∧
       Detector.delete_loop F (Some dir)
         {| Detector.deleted_files := []; Detector.failed_deletions := [];
            Detector.disk := fs0 |} pre = Some st ∧
       Detector.delete_one F (Some dir) st file_path = Some st' ∧
       Detector.delete_loop F (Some dir) st' rest = Some r) ∧
  (∀ files backup_dir,
     is_Some (Detector.delete_duplicate_files P F fs files backup_dir)).
Proof.
  split.
  { destruct (free_backup_path_found fs base base) as [target Htarget].
    exists target. split; [done|].
    split. { intros fuel Hfuel. by eapply free_backup_path_more_fuel. }
    apply free_backup_path_Some in Htarget as [Hfree Hcase].
    split; [done|].
    destruct Hcase as [?|(Hsome & j & Hj & -> & Hbelow)]; [by left|].
    right. split; [done|]. exists j. split_and!; [lia | lia | done | done]. }
  split.
  { intros k. unfold Detector.backup_candidate.
    destruct (Path.splitext base) as [name ext] eqn:Hsplit.
    apply splitext_app in Hsplit as [Happ Hext]. by exists name, ext. }
  split; [apply backup_candidate_inj|].
  split.
  { intros dir st file_path st' Hdir Hone.
    assert (Detector.configured (Some dir) = Some dir) as Hconf.
    { unfold Detector.configured. by rewrite decide_False. }
    pose proof (delete_one_inv F _ _ _ _ Hone) as Hround.
    assert (∃ target, Round.backup_target dir (Detector.disk st) file_path target)
      as [target Htarget].
    { apply free_backup_path_found. }
    pose proof (backup_target_free _ _ _ _ Htarget) as Hfree.
    exists target. split_and!; [done | done | | |].
    - intros q g Hq Hg. by eapply round_keeps_others.
    - intros Hin Hnot.
      destruct Hround as [dir' target' e fs1 _ _ _ Hd _ _ | fs1 e _ _ Hd _ _
                         | fs1 Hfs1 _ _ _].
      + by rewrite Hd in Hin.
      + by rewrite Hd in Hin.
      + destruct Hfs1 as [[Hc _]|(dir' & target' & Hc & Htarget' & Hcopy)];
          [congruence|].
        rewrite Hconf in Hc. injection Hc as <-.
        unfold Round.backup_target in Htarget, Htarget'.
        assert (target' = target) as -> by congruence.
        by rewrite Hcopy.
    - intros Hok.
      destruct (Fs.copy2 F (Detector.disk st) file_path target) as [oe fs1] eqn:Hcopy.
      simpl in Hok. subst oe.
      destruct (copy2_done F _ _ _ _ Hfree Hcopy) as (f & Hf & Hdir' & H1 & H2).
      exists f. split_and!; [done | done |].
      unfold Detector.delete_one in Hone. rewrite Hconf in Hone.
      unfold Round.backup_target in Htarget. rewrite Htarget, Hcopy in Hone.
      destruct (Fs.remove F fs1 file_path) as [e|fs2] eqn:Hrm.
      + by injection Hone as <-.
      + apply remove_inr in Hrm as [_ ->]. by injection Hone as <-. }
  split.
  { intros dir pre file_path rest r Hdir Hrun.
    apply delete_duplicate_files_middle in Hrun as (fs0 & st & st' & Hmk & ? & ? & ?).
    unfold Detector.configured in Hmk. rewrite decide_False in Hmk by done.
    by exists fs0, st, st'. }
  intros files backup_dir. apply delete_duplicate_files_returns.
Qed.

(** C2: with a backup directory configured, a file whose copy under the
    name that the search has found raises is not removed: the round
    records the file with the error in [failed_deletions] and leaves
    [deleted_files] as it was; the disk is the one that the copy has left,
    on which every entry of the disk before is where it was, so that at
    most what the copy wrote before it raised has come to it.  In a run in
    which the file is listed once and the copy of its round raises, the
    file is at the end among the failures with that error, not among the
    deleted files, and still on the disk. *)
Theorem failed_backup_blocks_deletion dir file_path :
  dir ≠ "" →
  (∀ st st',
     Detector.delete_one F (Some dir) st file_path = Some st' →
     ∃ target,
       Round.backup_target dir (Detector.disk st) file_path target ∧
       ∀ e, (Fs.copy2 F (Detector.disk st) file_path target).1 = Some e →
         Detector.deleted_files st' = Detector.deleted_files st ∧
         Detector.failed_deletions st' =
           Detector.failed_deletions st ++ [(file_path, e)] ∧
         Detector.disk st' = (Fs.copy2 F (Detector.disk st) file_path target).2 ∧
         Detector.disk st ⊆ Detector.disk st') ∧
  (∀ fs pre rest r,
     file_path ∉ pre → file_path ∉ rest →
     Detector.delete_duplicate_files P F fs (pre ++ file_path :: rest) (Some dir)
       = Some (inr r) →
     ∃ fs0 st target,
       Fs.makedirs P F fs dir = inr fs0 ∧
       Detector.delete_loop F (Some dir)
         {| Detector.deleted_files := []; Detector.failed_deletions := [];
            Detector.disk := fs0 |} pre = Some st ∧
       Round.backup_target dir (Detector.disk st) file_path target ∧
       ∀ e, (Fs.copy2 F (Detector.disk st) file_path target).1 = Some e →
         (file_path ∉ Detector.deleted_files r) ∧
         (file_path, e) ∈ Detector.failed_deletions r ∧
         ∀ f, fs !! file_path = Some f → Detector.disk r !! file_path = Some f).
Proof.
  intros Hdir.
  assert (Detector.configured (Some dir) = Some dir) as Hconf.
  { unfold Detector.configured. by rewrite decide_False. }
  assert (∀ st st',
     Detector.delete_one F (Some dir) st file_path = Some st' →
     ∃ target,
       Round.backup_target dir (Detector.disk st) file_path target ∧
       ∀ e, (Fs.copy2 F (Detector.disk st) file_path target).1 = Some e →
         Detector.deleted_files st' = Detector.deleted_files st ∧
         Detector.failed_deletions st' =
           Detector.failed_deletions st ++ [(file_path, e)] ∧
         Detector.disk st' = (Fs.copy2 F (Detector.disk st) file_path target).2 ∧
         Detector.disk st ⊆ Detector.disk st') as Hround.
  { intros st st' Hone.
    assert (∃ target, Round.backup_target dir (Detector.disk st) file_path target)
      as [target Htarget].
    { apply free_backup_path_found. }
    exists target. split; [done|]. intros e He.
    unfold Detector.delete_one in Hone. rewrite Hconf in Hone.
    pose proof Htarget as Hsearch.
    unfold Round.backup_target in Hsearch. rewrite Hsearch in Hone.
    destruct (Fs.copy2 F (Detector.disk st) file_path target) as [oe fs1] eqn:Hcopy.
    simpl in He. subst oe. injection Hone as <-. simpl.
    split_and!; [done | done | done |].
    eapply copy2_subseteq; [|done]. by eapply backup_target_free. }
  split; [done|].
  intros fs pre rest r Hpre Hrest Hrun.
  apply delete_duplicate_files_middle in Hrun as (fs0 & st & st' & Hmk & H1 & H2 & H3).
  rewrite Hconf in Hmk.
  destruct (Hround _ _ H2) as (target & Htarget & Hfail).
  exists fs0, st, target. split_and!; [done | done | done |].
  intros e He. destruct (Hfail e He) as (Hd & Hf & _ & Hsub).
  destruct (delete_loop_attempts F _ _ _ _ H1) as (d1 & f1 & Hd1 & _ & _ & Hs1 & _).
  destruct (delete_loop_attempts F _ _ _ _ H3) as (d3 & f3 & Hd3 & Hf3 & _ & Hs3 & _).
  simpl in Hd1. split_and!.
  - rewrite Hd3, Hd, Hd1. intros [Hin|Hin]%elem_of_app.
    + apply Hpre. by eapply elem_of_sublist.
    + apply Hrest. by eapply elem_of_sublist.
  - rewrite Hf3, Hf. set_solver.
  - intros f Hfile.
    apply (delete_loop_keeps F _ _ _ _ _ _ H3 Hrest).
    eapply lookup_weaken; [|exact Hsub].
    apply (delete_loop_keeps F _ _ _ _ _ _ H1 Hpre). simpl.
    by eapply makedirs_keeps.
Qed.

Lemma select_keep_file_elem strategy inputs first others keep inputs' :
  Detector.select_keep_file strategy inputs first others = Some (keep, inputs') →
  keep ∈ first :: others.
Proof.
  assert (∀ key, Detector.max_by key first others ∈ first :: others) as Hmax.
  { intros key. destruct (max_by_first key first others) as (b & a & -> & _).
    set_solver. }
  unfold Detector.select_keep_file.
  repeat (destruct (decide _);
          [intros [= <- _]; rewrite ?min_by_max_by; by apply Hmax|]).
  generalize (first :: others) as l. intros l.
  induction inputs as [|[choice|] inputs IH]; simpl; [done| |done].
  destruct (_ && _); [|done].
  destruct (l !! _) as [info|] eqn:Hl; [|done].
  intros [= <- _]. by eapply list_elem_of_lookup_2.
Qed.

Lemma path_omap_get_file_info fs (l : list string) :
  Detector.path <$> omap (Detector.get_file_info F fs) l =
  filter (λ p, is_Some (Detector.get_file_info F fs p)) l.
Proof.
  induction l as [|p l IH]; [done|]. rewrite filter_cons. simpl.
  destruct (Detector.get_file_info F fs p) as [info|] eqn:Hp.
  - rewrite decide_True by done. change (list_omap _ _ ?f ?l) with (omap f l).
    rewrite fmap_cons, IH. f_equal. by eapply path_get_file_info.
  - rewrite decide_False by (by intros []). apply IH.
Qed.

Lemma filter_others_length {A} (f : A → string) (l : list A) x :
  NoDup (f <$> l) → x ∈ l →
  S (length (filter (λ y, f y ≠ f x) l)) = length l.
Proof.
  induction l as [|y l IH]; [by intros _ ?%elem_of_nil|].
  rewrite fmap_cons, NoDup_cons, filter_cons. intros [Hy Hnd] Hin.
  destruct (decide (f y ≠ f x)) as [Hne|Heq].
  - simpl. f_equal. apply IH; [done|].
    apply elem_of_cons in Hin as [->|?]; done.
  - apply dec_stable in Heq. simpl. f_equal.
    rewrite <-Heq. clear IH Hin Heq Hnd.
    induction l as [|z l IH]; [done|]. rewrite filter_cons.
    rewrite fmap_cons, not_elem_of_cons in Hy. destruct Hy as [Hz Hy].
    rewrite decide_True by done. simpl. f_equal. by apply IH.
Qed.

Lemma choose_loop_count fs strategy groups : ∀ inputs keep del keep' del' inputs',
  (∀ h l, (h, l) ∈ groups → NoDup l) →
  Detector.choose_loop F fs strategy groups inputs keep del
    = Some (keep', del', inputs') →
  length keep' + length del' =
  length keep + length del + Account.examined F fs groups.
Proof.
  induction groups as [|[h l] groups IH]; intros inputs keep del keep' del' inputs' Hnd;
    simpl.
  - intros [= <- <- _]. unfold Account.examined. simpl. lia.
  - assert (∀ h' l', (h', l') ∈ groups → NoDup l') as Hnd'.
    { intros h' l' Hin. apply (Hnd h' l'). by right. }
    unfold Account.examined. rewrite fmap_cons. simpl.
    fold (Account.examined F fs groups).
    destruct (decide (length l ≤ 1)) as [Hshort|Hlong].
    { intros Hloop. by apply IH in Hloop. }
    change (list_omap _ _ ?f ?l) with (omap f l).
    destruct (omap (Detector.get_file_info F fs) l) as [|first others] eqn:Hinfos.
    { intros Hloop. by apply IH in Hloop. }
    destruct (Detector.select_keep_file strategy inputs first others)
      as [[keep_file inputs1]|] eqn:Hsel; [|done].
    intros Hloop. apply IH in Hloop; [|done]. rewrite Hloop.
    rewrite !length_app, length_fmap. simpl.
    apply select_keep_file_elem in Hsel.
    pose proof (filter_others_length Detector.path (first :: others) keep_file) as Hlen.
    rewrite <-Hinfos, path_omap_get_file_info in Hlen.
    specialize (Hlen (NoDup_filter _ _ (Hnd h l (list_elem_of_here _ _)))).
    rewrite Hinfos in Hlen. specialize (Hlen Hsel). simpl in Hlen. lia.
Qed.

Lemma filter_all {A} (Q : A → Prop) `{!∀ x, Decision (Q x)} (l : list A) :
  (∀ x, x ∈ l → Q x) → filter Q l = l.
Proof.
  induction l as [|x l IH]; intros Hall; [done|].
  rewrite filter_cons, decide_True by (apply Hall; left).
  f_equal. apply IH. intros y Hy. apply Hall. by right.
Qed.

Lemma examined_all_readable fs groups :
  (∀ h l, (h, l) ∈ groups → 2 ≤ length l) →
  (∀ h l p, (h, l) ∈ groups → p ∈ l → is_Some (Detector.get_file_info F fs p)) →
  Account.examined F fs groups = Account.listed groups.
Proof.
  unfold Account.examined, Account.listed.
  induction groups as [|[h l] groups IH]; intros Hlen Hread; [done|].
  rewrite !fmap_cons. simpl. rewrite IH.
  - f_equal. specialize (Hlen h l (list_elem_of_here _ _)).
    rewrite decide_False by lia.
    change (list_omap _ _ ?f ?l) with (omap f l).
    rewrite <-(length_fmap Detector.path), path_omap_get_file_info.
    f_equal. apply filter_all. intros p Hp.
    apply (Hread h l p); [left | done].
  - intros h' l' Hin. apply (Hlen h' l'). by right.
  - intros h' l' p Hin. apply (Hread h' l' p). by right.
Qed.


End resolution.

Section resolution_examples.
Import Demo.

Example demo_backup_then_delete :
  Detector.delete_duplicate_files plain no_faults
    (<["./backup/a.jpg" := regular [x09] 1]> disk) ["./a.jpg"] (Some "./backup")
  = Some (inr {| Detector.deleted_files := ["./a.jpg"];
                 Detector.failed_deletions := [];
                 Detector.disk :=
                   <["./backup" := fresh_dir plain "./backup"]>
                     (<["." := fresh_dir plain "."]>
                        (delete "./a.jpg"
                           (<["./backup/a_1.jpg" := regular [x01; x02] 10]>
                              (<["./backup/a.jpg" := regular [x09] 1]> disk)))) |}).
Proof. vm_compute. reflexivity. Qed.

(** On a full disk every copy of a regular file to a free name raises. *)
Lemma full_disk_copy (fs : gmap string file) src target f :
  Fs.path_exists fs target = false →
  fs !! src = Some f → link f = None → is_dir f = false →
  (Fs.copy2 full_disk fs src target).1 = Some OSError.
Proof.
  intros Hfree%path_exists_false Hsrc Hlink Hdir. unfold Fs.copy2.
  rewrite Hfree. unfold Fs.resolve. rewrite (follow_plain _ _ _ _ Hsrc Hlink), Hdir.
  destruct (Fs.landing _ fs target) as [t|] eqn:Hland; [|done].
  destruct (decide (t = src)); [done|].
  assert (fs !! t = None) as ->.
  { eapply landing_free; [|done]. unfold Fs.stat, Fs.resolve in Hfree.
    by destruct (Fs.follow _ fs target). }
  done.
Qed.

(** On a full disk the copy of [a.jpg] leaves an empty file under the
    name of the backup and raises: [a.jpg] is recorded as failed and
    stays, while [c.jpg], whose copy raised as well, stays too. *)
Example demo_full_disk :
  Detector.delete_duplicate_files plain full_disk disk
    ["./c.jpg"; "./a.jpg"] (Some "./backup")
  = Some (inr {| Detector.deleted_files := [];
                 Detector.failed_deletions :=
                   [("./c.jpg", OSError); ("./a.jpg", OSError)];
                 Detector.disk :=
                   <["./backup/a.jpg" := regular [] 99]>
                     (<["./backup/c.jpg" := regular [] 99]>
                        (<["./backup" := fresh_dir plain "./backup"]>
                           (<["." := fresh_dir plain "."]> disk))) |}).
Proof. vm_compute. reflexivity. Qed.

Lemma failed_backup_blocks_deletion_witness :
  "./backup" ≠ "" ∧
  ("./a.jpg" ∉ ["./c.jpg"]) ∧
  ("./a.jpg" ∉ ([] : list string)) ∧
  disk !! "./a.jpg" = Some (regular [x01; x02] 10) ∧
  ∃ r, Detector.delete_duplicate_files plain full_disk disk
         (["./c.jpg"] ++ "./a.jpg" :: []) (Some "./backup") = Some (inr r) ∧
       ("./a.jpg" ∉ Detector.deleted_files r) ∧
       ("./a.jpg", OSError) ∈ Detector.failed_deletions r ∧
       Detector.disk r !! "./a.jpg" = Some (regular [x01; x02] 10).
Proof.
  assert ("./backup" ≠ "") as Hdir by discriminate.
  assert ("./a.jpg" ∉ ["./c.jpg"]) as Hpre.
  { intros Hin. apply list_elem_of_singleton in Hin. discriminate. }
  assert ("./a.jpg" ∉ ([] : list string)) as Hrest by apply not_elem_of_nil.
  assert (disk !! "./a.jpg" = Some (regular [x01; x02] 10)) as Hfile
    by (vm_compute; reflexivity).
  split_and!; [exact Hdir | exact Hpre | exact Hrest | exact Hfile |].
  destruct (delete_duplicate_files_returns plain full_disk disk
              (["./c.jpg"] ++ "./a.jpg" :: []) (Some "./backup")) as [[e|r] Hr].
  { vm_compute in Hr. discriminate. }
  exists r. split; [exact Hr|].
  destruct (proj2 (failed_backup_blocks_deletion plain full_disk
                     "./backup" "./a.jpg" Hdir)
              disk ["./c.jpg"] [] r Hpre Hrest Hr)
    as (fs0 & st & target & Hmk & Hloop & Htarget & Hfail).
  assert ((Fs.copy2 full_disk (Detector.disk st) "./a.jpg" target).1 = Some OSError)
    as He.
  { apply (full_disk_copy _ _ _ (regular [x01; x02] 10));
      [by eapply backup_target_free | | done | done].
    apply (delete_loop_keeps full_disk _ _ _ _ _ _ Hloop Hpre). simpl.
    by eapply makedirs_keeps. }
  destruct (Hfail _ He) as (Hd & Hf & Hk).
  split_and!; [exact Hd | exact Hf | exact (Hk _ Hfile)].
Defined.



End resolution_examples.


Section fingerprints.
Context (P : platform) (F : faults) (fs : gmap string file).

Lemma calculate_file_hash_prefix p q a b :
  Fs.read F fs p = Some a → Fs.read F fs q = Some b →
  take (N.to_nat 8192) a = take (N.to_nat 8192) b →
  Sorter.calculate_file_hash P F fs p = Sorter.calculate_file_hash P F fs q.
Proof.
  intros Ha Hb Hpre. unfold Sorter.calculate_file_hash. by rewrite Ha, Hb, Hpre.
Qed.

Lemma calculate_image_hash_pixels p q a b px py :
  Fs.read F fs p = Some a → Fs.read F fs q = Some b →
  thumbnail P a = Some px → thumbnail P b = Some py →
  Detector.pixel_string px = Detector.pixel_string py →
  Detector.calculate_image_hash P F fs p = Detector.calculate_image_hash P F fs q.
Proof.
  intros Ha Hb Hpx Hpy Hs. unfold Detector.calculate_image_hash.
  by rewrite Ha, Hb, Hpx, Hpy, Hs.
Qed.

(** C1, as the programs have it: the key that decides the grouping is the
    digest of the first 8192 bytes of the file in the sorter, and the
    digest of the decimal text of the grey levels of the 8 by 8 thumbnail
    in the detector.  Two files that agree on that much get the same key,
    and the second one processed joins the group of the first; their
    contents are not compared. *)
Theorem grouping_by_prefix_or_thumbnail :
  (∀ source_dir duplicates p q a b,
     Fs.read F fs (Path.join source_dir p) = Some a →
     Fs.read F fs (Path.join source_dir q) = Some b →
     take (N.to_nat 8192) a = take (N.to_nat 8192) b →
     md5_hexdigest P (take (N.to_nat 8192) a) ≠ "" →
     ∃ l,
       ODict.get
         (Sorter.check_duplicate P F fs source_dir
            (Sorter.check_duplicate P F fs source_dir duplicates p).1 q).1
         (md5_hexdigest P (take (N.to_nat 8192) a)) = Some l ∧
       p ∈ l ∧ q ∈ l ∧
       (Sorter.check_duplicate P F fs source_dir
          (Sorter.check_duplicate P F fs source_dir duplicates p).1 q).2 = true) ∧
  (∀ n p q a b px py,
     Fs.read F fs p = Some a → Fs.read F fs q = Some b →
     thumbnail P a = Some px → thumbnail P b = Some py →
     Detector.pixel_string px = Detector.pixel_string py →
     md5_hexdigest P (String.list_byte_of_string (Detector.pixel_string px)) ≠ "" →
     Detector.duplicates (Facts.run P F fs n [p; q]) =
       [(md5_hexdigest P (String.list_byte_of_string (Detector.pixel_string px)),
         [p; q])]).
Proof.
  split.
  - intros source_dir duplicates p q a b Ha Hb Hpre Hne.
    unfold Sorter.check_duplicate.
    rewrite <-(calculate_file_hash_prefix _ _ _ _ Ha Hb Hpre).
    unfold Sorter.calculate_file_hash. rewrite Ha.
    rewrite !decide_False by done. simpl.
    rewrite get_append_eq, get_append_eq. simpl.
    eexists. split; [done|]. split_and!.
    + apply elem_of_app. left. apply elem_of_app. right. left.
    + apply elem_of_app. right. left.
    + apply mem_true. rewrite get_append_eq. eauto.
  - intros n p q a b px py Ha Hb Hpx Hpy Hs Hne.
    pose proof (calculate_image_hash_pixels _ _ _ _ _ _ Ha Hb Hpx Hpy Hs) as Hq.
    assert (Detector.usable_hash P F fs p =
            Some (md5_hexdigest P (String.list_byte_of_string (Detector.pixel_string px))))
      as Hup.
    { unfold Detector.usable_hash, Detector.calculate_image_hash.
      rewrite Ha, Hpx. by rewrite decide_False. }
    assert (Detector.usable_hash P F fs q =
            Some (md5_hexdigest P (String.list_byte_of_string (Detector.pixel_string px))))
      as Huq.
    { unfold Detector.usable_hash. rewrite <-Hq.
      unfold Detector.calculate_image_hash.
      rewrite Ha, Hpx. by rewrite decide_False. }
    unfold Facts.run. simpl. unfold Detector.process_image at 2. rewrite Hup.
    unfold Detector.process_image. rewrite Huq.
    unfold Detector.update_index at 2. simpl. rewrite lookup_empty. simpl.
    unfold Detector.update_index. simpl. rewrite lookup_insert_eq. simpl.
    by rewrite decide_True.
Qed.

End fingerprints.

Section fingerprint_examples.
Import Demo.

(** C1 fails as it is worded: in the sorter two files of 8193 bytes that
    differ in their last byte are put in one group, whatever the digest
    is, provided it is never empty. *)
Lemma different_files_same_group :
  long_disk !! "in/a.raw" = Some (regular long_a 10) ∧
  long_disk !! "in/b.raw" = Some (regular long_b 20) ∧
  long_a ≠ long_b ∧
  (∀ md5 : list byte → string,
     md5 (repeat x00 (N.to_nat 8192)) ≠ "" →
     Sorter.check_duplicate (with_digest md5) no_faults long_disk "in"
       (Sorter.check_duplicate (with_digest md5) no_faults long_disk "in" []
          "a.raw").1 "b.raw"
     = ([(md5 (repeat x00 (N.to_nat 8192)), ["a.raw"; "b.raw"])], true)).
Proof.
  split_and!.
  - vm_compute. reflexivity.
  - vm_compute. reflexivity.
  - unfold long_a, long_b. intros H%app_inv_head. discriminate.
  - intros md5 Hne. unfold Sorter.check_duplicate.
    assert (∀ name bytes t,
              long_disk !! Path.join "in" name = Some (regular bytes t) →
              take (N.to_nat 8192) bytes = repeat x00 (N.to_nat 8192) →
              Sorter.calculate_file_hash (with_digest md5) no_faults long_disk
                (Path.join "in" name) = md5 (repeat x00 (N.to_nat 8192))) as Hhash.
    { intros name bytes t Hl Ht. unfold Sorter.calculate_file_hash, Fs.read.
      rewrite (stat_plain _ _ _ Hl eq_refl). simpl. by rewrite Ht. }
    rewrite (Hhash "a.raw" long_a 10%Z), (Hhash "b.raw" long_b 20%Z);
      try (vm_compute; reflexivity).
    rewrite !decide_False by done. simpl.
    rewrite decide_True by done. f_equal.
    apply bool_decide_eq_true. simpl. rewrite decide_True by done. eauto.
Qed.

(** In the detector two files whose thumbnails are [1; 2] and [12] are put
    in one group, although the digest of the demonstration platform tells
    all texts apart. *)
Example detector_merges_thumbnails :
  thumbnail plain [x01; x02] ≠ thumbnail plain [x0c] ∧
  Detector.duplicates (Facts.run plain no_faults merged_disk 2 ["./a.jpg"; "./e.jpg"])
    = [("12", ["./a.jpg"; "./e.jpg"])].
Proof. split; [vm_compute; discriminate | vm_compute; reflexivity]. Qed.

(** The text of the grey levels does not tell where one number ends: two
    thumbnails of 64 pixels that differ in their first two pixels have the
    same text. *)
Example pixel_string_merges_digits :
  Detector.pixel_string (1 :: 11 :: repeat 0 62)%N
  = Detector.pixel_string (11 :: 1 :: repeat 0 62)%N.
Proof. vm_compute. reflexivity. Qed.

End fingerprint_examples.


Section pool.
Context (P : platform) (F : faults) (fs : gmap string file).

Local Abbreviation usable_hash := (Detector.usable_hash P F fs).
Local Abbreviation run := (Facts.run P F fs).
Local Abbreviation members := (Facts.members P F fs).
Local Abbreviation step := (Pool.step P F fs).
Local Abbreviation invariant := (PoolFacts.invariant P F fs).

Lemma finished_paths_insert tasks i p c c' :
  tasks !! i = Some (p, c) → c ≠ Pool.Finished →
  PoolFacts.finished_paths (<[i := (p, c')]> tasks) ≡ₚ
  if decide (c' = Pool.Finished)
  then PoolFacts.finished_paths tasks ++ [p]
  else PoolFacts.finished_paths tasks.
Proof.
  intros Hi Hc.
  pose proof (take_drop_middle tasks i (p, c) Hi) as Heq.
  rewrite insert_take_drop by (by eapply lookup_lt_Some).
  revert Heq. generalize (take i tasks) (drop (S i) tasks). intros l1 l2 <-.
  unfold PoolFacts.finished_paths.
  rewrite !filter_app, !filter_cons. simpl.
  rewrite (decide_False (P := c = Pool.Finished)) by done.
  destruct (decide (c' = Pool.Finished)); [|done].
  rewrite !fmap_app, fmap_cons. simpl.
  rewrite <-Permutation_middle. apply Permutation_cons_append.
Qed.

Lemma tasks_insert_paths (tasks : list (string * Pool.pc)) i p c c' :
  tasks !! i = Some (p, c) → (<[i := (p, c')]> tasks).*1 = tasks.*1.
Proof.
  intros Hi. rewrite list_fmap_insert. simpl.
  apply list_insert_id. by rewrite list_lookup_fmap, Hi.
Qed.

Lemma invariant_start n files : invariant n files (Pool.start (Facts.fresh n) files).
Proof.
  split; simpl.
  - rewrite <-list_fmap_compose. apply list_fmap_id.
  - intros i p h [q [[=] _]]%list_lookup_fmap_Some.
  - intros i p [q [[=] _]]%list_lookup_fmap_Some.
  - exists []. split.
    + unfold PoolFacts.finished_paths. induction files as [|q files IH]; [done|].
      by rewrite fmap_cons, filter_cons.
    + split; [done|]. intros i w [q [-> _]]%list_lookup_fmap_Some. simpl. tauto.
Qed.

End pool.

Section pool_invariant.
Context (P : platform) (F : faults) (fs : gmap string file).

Local Abbreviation usable_hash := (Detector.usable_hash P F fs).
Local Abbreviation run := (Facts.run P F fs).
Local Abbreviation members := (Facts.members P F fs).
Local Abbreviation step := (Pool.step P F fs).
Local Abbreviation invariant := (PoolFacts.invariant P F fs).

Lemma lookup_insert_task (tasks : list (string * Pool.pc)) i w0 w j w' :
  tasks !! i = Some w0 →
  <[i := w]> tasks !! j = Some w' →
  j = i ∧ w' = w ∨ j ≠ i ∧ tasks !! j = Some w'.
Proof.
  intros Hi. destruct (decide (j = i)) as [->|Hne].
  - rewrite list_lookup_insert_eq by (by eapply lookup_lt_Some).
    intros [= <-]. by left.
  - rewrite list_lookup_insert_ne by done. by right.
Qed.

Lemma run_no_hash n past p :
  usable_hash p = None → run n (past ++ [p]) = run n past.
Proof. intros H. by rewrite run_snoc, process_image_no_hash. Qed.

Lemma run_hash n past p h :
  usable_hash p = Some h →
  run n (past ++ [p]) =
  Detector.count_processed (Detector.update_index (run n past) h p).
Proof. intros H. rewrite run_snoc. unfold Detector.process_image. by rewrite H. Qed.

(** The holder of the lock is the only task inside the [with] block. *)
Lemma invariant_holder n files s i p c :
  invariant n files s →
  Pool.tasks s !! i = Some (p, c) → PoolFacts.critical c →
  Pool.lock s = Some i.
Proof.
  intros [_ _ _ (past & _ & Hlock)] Hi Hc.
  destruct (Pool.lock s) as [k|].
  - destruct (decide (i = k)) as [->|Hne]; [done|].
    destruct Hlock as [Hothers _]. by destruct (Hothers i _ Hi Hne).
  - destruct Hlock as [_ Hnone]. by destruct (Hnone i _ Hi).
Qed.

(** What the holder of the lock has made of the detector. *)
Lemma invariant_inside_of n files s i p c :
  invariant n files s →
  Pool.tasks s !! i = Some (p, c) → PoolFacts.critical c →
  ∃ past h,
    past ≡ₚ PoolFacts.finished_paths (Pool.tasks s) ∧
    usable_hash p = Some h ∧
    PoolFacts.inside (run n past) (Pool.shared s) h p c.
Proof.
  intros Hinv Hi Hc.
  pose proof (invariant_holder _ _ _ _ _ _ Hinv Hi Hc) as Hheld.
  destruct Hinv as [_ _ _ (past & Hperm & Hlock)].
  rewrite Hheld in Hlock. destruct Hlock as (_ & q & c0 & h & Hq & Hh & Hin).
  rewrite Hi in Hq. injection Hq as <- <-. by exists past, h.
Qed.

(** Outside the [with] block a task leaves the shared detector and the
    lock alone. *)
Lemma invariant_outside n files s i p c' :
  invariant n files s →
  Pool.tasks s !! i = Some (p, Pool.Hashing) →
  (c' = Pool.Finished ∧ usable_hash p = None ∨
   ∃ h, c' = Pool.Waiting h ∧ usable_hash p = Some h) →
  invariant n files
    {| Pool.shared := Pool.shared s; Pool.lock := Pool.lock s;
       Pool.tasks := <[i := (p, c')]> (Pool.tasks s) |}.
Proof.
  intros [Hpaths Hwait Halive (past & Hperm & Hlock)] Hi Hc'.
  assert (¬ PoolFacts.critical c') as Hnc.
  { destruct Hc' as [[-> _]|(h & -> & _)]; simpl; tauto. }
  split; simpl.
  - by rewrite (tasks_insert_paths _ _ _ _ _ Hi).
  - intros j q h' [[-> [= <- Hq]]|[_ Hj]]%(lookup_insert_task _ _ _ _ _ _ Hi).
    + destruct Hc' as [[-> _]|(h & -> & Hh)]; [done|]. by injection Hq as <-.
    + by eapply Hwait.
  - intros j q [[-> [= <- Hq]]|[_ Hj]]%(lookup_insert_task _ _ _ _ _ _ Hi).
    + by destruct Hc' as [[-> _]|(h & -> & Hh)].
    + by eapply Halive.
  - exists (if decide (c' = Pool.Finished) then past ++ [p] else past). split.
    { rewrite (finished_paths_insert _ _ _ _ _ Hi) by done.
      destruct (decide _); by rewrite Hperm. }
    assert (run n (if decide (c' = Pool.Finished) then past ++ [p] else past)
            = run n past) as ->.
    { destruct (decide _) as [->|]; [|done].
      destruct Hc' as [[_ Hnone]|(h & [=] & _)]. by apply run_no_hash. }
    destruct (Pool.lock s) as [k|].
    + destruct Hlock as (Hothers & q & c & h & Hq & Hh & Hin). split.
      * intros j w [[-> ->]|[Hne Hj]]%(lookup_insert_task _ _ _ _ _ _ Hi) Hjk;
          [done | by eapply Hothers].
      * exists q, c, h. split_and!; [|done..].
        assert (k ≠ i) as Hki.
        { intros ->. rewrite Hi in Hq. injection Hq as <- <-. done. }
        by rewrite list_lookup_insert_ne.
    + destruct Hlock as [Hshared Hnone]. split; [done|].
      intros j w [[-> ->]|[Hne Hj]]%(lookup_insert_task _ _ _ _ _ _ Hi);
        [done | by eapply Hnone].
Qed.

(** A statement of the [with] block that the holder of the lock runs. *)
Lemma invariant_inside n files s i p c c' d' :
  invariant n files s →
  Pool.tasks s !! i = Some (p, c) →
  PoolFacts.critical c → PoolFacts.critical c' →
  (∀ base h, PoolFacts.inside base (Pool.shared s) h p c →
             PoolFacts.inside base d' h p c') →
  invariant n files
    {| Pool.shared := d'; Pool.lock := Pool.lock s;
       Pool.tasks := <[i := (p, c')]> (Pool.tasks s) |}.
Proof.
  intros Hinv Hi Hc Hc' Hnext.
  pose proof (invariant_holder _ _ _ _ _ _ Hinv Hi Hc) as Hheld.
  destruct Hinv as [Hpaths Hwait Halive (past & Hperm & Hlock)].
  rewrite Hheld in Hlock. destruct Hlock as (Hothers & q & c0 & h & Hq & Hh & Hin).
  rewrite Hi in Hq. injection Hq as <- <-.
  split; simpl.
  - by rewrite (tasks_insert_paths _ _ _ _ _ Hi).
  - intros j q h' [[-> [= <- Hq]]|[_ Hj]]%(lookup_insert_task _ _ _ _ _ _ Hi).
    + by subst c'.
    + by eapply Hwait.
  - intros j q [[-> [= <- Hq]]|[_ Hj]]%(lookup_insert_task _ _ _ _ _ _ Hi).
    + by subst c'.
    + by eapply Halive.
  - exists past. rewrite Hheld. split.
    { rewrite (finished_paths_insert _ _ _ _ _ Hi) by (by intros ->).
      rewrite decide_False; [done | by intros ->]. }
    split.
    + intros j w [[-> ->]|[Hne Hj]]%(lookup_insert_task _ _ _ _ _ _ Hi) Hji;
        [done | by eapply Hothers].
    + exists p, c', h. split_and!; [|done|by apply Hnext].
      apply list_lookup_insert_eq. by eapply lookup_lt_Some.
Qed.

Lemma set_duplicates_same (d : Detector.t) :
  Pool.set_duplicates d (Detector.duplicates d) = d.
Proof. by destruct d. Qed.

Lemma invariant_step n files s s' :
  invariant n files s → step s s' → invariant n files s'.
Proof.
  intros Hinv Hstep.
  destruct Hstep as
    [s i p Hi Hnone | s i p h Hi Hsome | s i p h Hi Hfree
    | s i p h Hi Hfound | s i p h Hi Hnew
    | s i p h Hi Hmiss | s i p h Hi Hpres
    | s i p h first Hi Hfirst | s i p h Hi Hgone
    | s i p h Hi | s i p h Hi | s i p Hi | s i p count Hi | s i p Hi].
  - eapply invariant_outside; eauto.
  - eapply invariant_outside; eauto.
  - destruct Hinv as [Hpaths Hwait Halive (past & Hperm & Hlock)].
    rewrite Hfree in Hlock. destruct Hlock as [Hshared Hnone].
    split; simpl.
    + by rewrite (tasks_insert_paths _ _ _ _ _ Hi).
    + intros j q h' [[-> [=]]|[_ Hj]]%(lookup_insert_task _ _ _ _ _ _ Hi).
      by eapply Hwait.
    + intros j q [[-> [=]]|[_ Hj]]%(lookup_insert_task _ _ _ _ _ _ Hi).
      by eapply Halive.
    + exists past. split.
      { rewrite (finished_paths_insert _ _ _ _ _ Hi) by done.
        by rewrite decide_False. }
      split.
      * intros j w [[-> ->]|[Hne Hj]]%(lookup_insert_task _ _ _ _ _ _ Hi) Hji;
          [done | by eapply Hnone].
      * exists p, (Pool.Testing h), h. split_and!; [|by eapply Hwait|done].
        apply list_lookup_insert_eq. by eapply lookup_lt_Some.
  - eapply invariant_inside; [done | done | done | done |].
    intros base h0 [-> Hbase]. rewrite Hbase in Hfound. by split_and!.
  - eapply invariant_inside; [done | done | done | done |].
    intros base h0 [-> Hbase]. rewrite Hbase in Hnew. by split_and!.
  - eapply invariant_inside; [done | done | done | done |].
    intros base h0 (-> & Hbase & ?). rewrite Hbase in Hmiss. by split_and!.
  - eapply invariant_inside; [done | done | done | done |].
    intros base h0 (-> & Hbase & [first Hfirst]). rewrite Hbase in Hpres.
    split; [done|]. exists first. split; [done|].
    by rewrite Hpres, set_duplicates_same.
  - eapply invariant_inside; [done | done | done | done |].
    intros base h0 (-> & Hbase & _ & Hmiss). rewrite Hbase in Hfirst |- *.
    split; [done|]. exists first. split; [done|]. by rewrite Hmiss.
  - exfalso.
    destruct (invariant_inside_of _ _ _ _ _ _ Hinv Hi I)
      as (past & h0 & _ & _ & -> & Hbase & [first Hfirst] & _).
    rewrite Hbase in Hgone. congruence.
  - eapply invariant_inside; [done | done | done | done |].
    intros base h0 (-> & first & Hfirst & Hd). rewrite Hd. simpl.
    unfold Detector.update_index. rewrite Hfirst. done.
  - eapply invariant_inside; [done | done | done | done |].
    intros base h0 (-> & Hbase & Hnew). rewrite Hbase. simpl.
    unfold Detector.update_index. rewrite Hnew. done.
  - eapply invariant_inside; [done | done | done | done |].
    intros base h0 Hd. by split.
  - eapply invariant_inside; [done | done | done | done |].
    intros base h0 [Hd Hcount]. simpl. rewrite Hcount, <-Hd. done.
  - destruct (invariant_inside_of _ _ _ _ _ _ Hinv Hi I)
      as (past & h & Hperm & Hh & Hshared).
    simpl in Hshared.
    pose proof (invariant_holder _ _ _ _ _ _ Hinv Hi I) as Hheld.
    destruct Hinv as [Hpaths Hwait Halive (past' & _ & Hlock)].
    rewrite Hheld in Hlock. destruct Hlock as [Hothers _].
    split; simpl.
    + by rewrite (tasks_insert_paths _ _ _ _ _ Hi).
    + intros j q h' [[-> [=]]|[_ Hj]]%(lookup_insert_task _ _ _ _ _ _ Hi).
      by eapply Hwait.
    + intros j q [[-> [=]]|[_ Hj]]%(lookup_insert_task _ _ _ _ _ _ Hi).
      by eapply Halive.
    + exists (past ++ [p]). split.
      { rewrite (finished_paths_insert _ _ _ _ _ Hi) by done.
        rewrite decide_True by done. by rewrite Hperm. }
      split.
      * by rewrite (run_hash _ _ _ _ Hh), Hshared.
      * intros j w [[-> ->]|[Hne Hj]]%(lookup_insert_task _ _ _ _ _ _ Hi);
          [simpl; tauto | by eapply Hothers].
Qed.

Lemma invariant_reachable n files s :
  rtc step (Pool.start (Facts.fresh n) files) s → invariant n files s.
Proof.
  intros Hrun. apply rtc_ind_r with (x := Pool.start (Facts.fresh n) files)
    (P := invariant n files) in Hrun; try done.
  - apply invariant_start.
  - intros y z _ Hstep Hy. by eapply invariant_step.
Qed.

End pool_invariant.

Section pool_runs.
Context (P : platform) (F : faults) (fs : gmap string file).

Local Abbreviation usable_hash := (Detector.usable_hash P F fs).
Local Abbreviation run := (Facts.run P F fs).
Local Abbreviation members := (Facts.members P F fs).
Local Abbreviation hashed := (Facts.hashed P F fs).
Local Abbreviation step := (Pool.step P F fs).
Local Abbreviation invariant := (PoolFacts.invariant P F fs).

Lemma finished_paths_all tasks :
  Forall (λ w : string * Pool.pc, w.2 = Pool.Finished) tasks →
  PoolFacts.finished_paths tasks = tasks.*1.
Proof.
  intros Hall. unfold PoolFacts.finished_paths. f_equal.
  apply filter_all. by apply Forall_forall.
Qed.

Lemma members_perm h (l1 l2 : list string) :
  l1 ≡ₚ l2 → members h l1 ≡ₚ members h l2.
Proof. intros Hp. unfold Facts.members. by rewrite Hp. Qed.

Lemma hashed_perm (l1 l2 : list string) :
  l1 ≡ₚ l2 → length (hashed l1) = length (hashed l2).
Proof. intros Hp. unfold Facts.hashed. by rewrite Hp. Qed.

(** The detector that a run leaves when every task has returned. *)
Lemma pool_final_order n files s :
  rtc step (Pool.start (Facts.fresh n) files) s →
  Pool.all_finished s →
  Pool.lock s = None ∧ ∃ order, order ≡ₚ files ∧ Pool.shared s = run n order.
Proof.
  intros Hrun Hfin. apply invariant_reachable in Hrun.
  destruct Hrun as [Hpaths _ _ (past & Hperm & Hlock)].
  rewrite (finished_paths_all _ Hfin), Hpaths in Hperm.
  destruct (Pool.lock s) as [i|].
  { exfalso. destruct Hlock as (_ & p & c & h & Hi & _ & Hin).
    apply (proj1 (Forall_lookup _ _) Hfin) in Hi. simpl in Hi. by subst c. }
  destruct Hlock as [Hshared _]. split; [done|]. by exists past.
Qed.

(** C7: the tests and the assignments of the [with] block are steps of
    their own, and still they act as one.  In every state that a run of
    the pool can reach, whatever the interleaving, at most one task is
    inside the block, and it holds the lock; no task has raised; and what
    the tasks that have returned have made of the detector is what
    processing their files one after the other, in some order, makes of
    it.  A run that has let every task return therefore leaves the lock
    free and an index with one group for a fingerprint and a group for
    every fingerprint that at least two files have; each group holds, up
    to the order, the files that have its fingerprint, and the count is
    that of the files with a fingerprint: no record and no increment is
    lost, and the members of a group do not depend on the schedule. *)
Theorem pool_groups_are_schedule_independent n files s :
  rtc step (Pool.start (Facts.fresh n) files) s →
  (∀ i j p q c c',
     Pool.tasks s !! i = Some (p, c) → Pool.tasks s !! j = Some (q, c') →
     PoolFacts.critical c → PoolFacts.critical c' →
     i = j ∧ Pool.lock s = Some i) ∧
  (∀ i p, Pool.tasks s !! i ≠ Some (p, Pool.Crashed)) ∧
  (Pool.lock s = None →
   ∃ past, past ≡ₚ PoolFacts.finished_paths (Pool.tasks s) ∧
           Pool.shared s = run n past) ∧
  (Pool.all_finished s →
   (∃ order, order ≡ₚ files ∧ Pool.shared s = run n order) ∧
   Pool.lock s = None ∧
   NoDup (Detector.duplicates (Pool.shared s)).*1 ∧
   (∀ h l, (h, l) ∈ Detector.duplicates (Pool.shared s) →
           2 ≤ length l ∧ l ≡ₚ members h files) ∧
   (∀ h, 2 ≤ length (members h files) →
         ∃ l, (h, l) ∈ Detector.duplicates (Pool.shared s) ∧ l ≡ₚ members h files) ∧
   Detector.processed_count (Pool.shared s) = length (hashed files)).
Proof.
  intros Hrun. pose proof (invariant_reachable _ _ _ _ _ _ Hrun) as Hinv.
  split_and!.
  - intros i j p q c c' Hi Hj Hc Hc'.
    pose proof (invariant_holder _ _ _ _ _ _ _ _ _ Hinv Hi Hc) as H1.
    pose proof (invariant_holder _ _ _ _ _ _ _ _ _ Hinv Hj Hc') as H2.
    split; [congruence | done].
  - apply Hinv.
  - intros Hfree. destruct Hinv as [_ _ _ (past & Hperm & Hlock)].
    rewrite Hfree in Hlock. destruct Hlock as [Hshared _]. by exists past.
  - intros Hfin.
    destruct (pool_final_order _ _ _ Hrun Hfin) as (Hfree & past & Hperm & Hshared).
    rewrite Hshared.
    pose proof (index_of_run P F fs n past) as [_ _ Hcount Hkeys].
    split_and!; [by exists past | done | done | | |].
    + intros h l [Hlen ->]%group_of_run.
      rewrite <-(members_perm h _ _ Hperm). done.
    + intros h Hlen. exists (members h past). split; [|by apply members_perm].
      apply group_of_run. split; [|done].
      by rewrite (Permutation_length (members_perm h _ _ Hperm)).
    + rewrite Hcount. by apply hashed_perm.
Qed.

Lemma insert_middle {A} (l1 l2 : list A) x y :
  <[length l1 := y]> (l1 ++ x :: l2) = l1 ++ y :: l2.
Proof. induction l1 as [|z l1 IH]; simpl; [done | by rewrite IH]. Qed.

(** The holder of the lock can run its block to the end, and then the
    detector is the one that [process_image] run alone makes. *)
Lemma block_runs d pre p h rest :
  rtc step
    {| Pool.shared := d; Pool.lock := Some (length pre);
       Pool.tasks := pre ++ (p, Pool.Testing h) :: rest |}
    {| Pool.shared := Detector.count_processed (Detector.update_index d h p);
       Pool.lock := None;
       Pool.tasks := pre ++ (p, Pool.Finished) :: rest |}.
Proof.
  assert (∀ c (rest : list (string * Pool.pc)),
            (pre ++ (p, c) :: rest) !! length pre = Some (p, c)) as Hlook.
  { intros c l. by apply list_lookup_middle. }
  assert (∀ d',
    d' = Detector.update_index d h p →
    rtc step
      {| Pool.shared := d'; Pool.lock := Some (length pre);
         Pool.tasks := pre ++ (p, Pool.Counting) :: rest |}
      {| Pool.shared := Detector.count_processed (Detector.update_index d h p);
         Pool.lock := None;
         Pool.tasks := pre ++ (p, Pool.Finished) :: rest |}) as Hcount.
  { intros d' ->.
    eapply rtc_l; [eapply Pool.step_load; apply Hlook|].
    simpl. rewrite insert_middle.
    eapply rtc_l; [eapply Pool.step_store; apply Hlook|].
    simpl. rewrite insert_middle.
    eapply rtc_l; [eapply Pool.step_release; apply Hlook|].
    simpl. rewrite insert_middle. apply rtc_refl. }
  assert (∀ d' first,
    Detector.image_hashes d !! h = Some first →
    d' = Pool.set_duplicates d
           (if ODict.mem (Detector.duplicates d) h then Detector.duplicates d
            else ODict.append (Detector.duplicates d) h first) →
    rtc step
      {| Pool.shared := d'; Pool.lock := Some (length pre);
         Pool.tasks := pre ++ (p, Pool.Appending h) :: rest |}
      {| Pool.shared := Detector.count_processed (Detector.update_index d h p);
         Pool.lock := None;
         Pool.tasks := pre ++ (p, Pool.Finished) :: rest |}) as Happend.
  { intros d' first Hfirst ->.
    eapply rtc_l; [eapply Pool.step_append; apply Hlook|].
    simpl. rewrite insert_middle. apply Hcount.
    unfold Detector.update_index. by rewrite Hfirst. }
  destruct (Detector.image_hashes d !! h) as [first|] eqn:Hfirst.
  - eapply rtc_l; [eapply Pool.step_test_found; [apply Hlook | simpl; by rewrite Hfirst]|].
    simpl. rewrite insert_middle.
    destruct (ODict.mem (Detector.duplicates d) h) eqn:Hmem.
    + eapply rtc_l; [eapply Pool.step_group_present; [apply Hlook | simpl; done]|].
      simpl. rewrite insert_middle. apply (Happend _ first eq_refl).
      by rewrite set_duplicates_same.
    + eapply rtc_l; [eapply Pool.step_group_missing; [apply Hlook | simpl; done]|].
      simpl. rewrite insert_middle.
      eapply rtc_l; [eapply Pool.step_open; [apply Hlook | simpl; done]|].
      simpl. rewrite insert_middle. by apply (Happend _ first eq_refl).
  - eapply rtc_l; [eapply Pool.step_test_new; [apply Hlook | simpl; done]|].
    simpl. rewrite insert_middle.
    eapply rtc_l; [eapply Pool.step_record; apply Hlook|].
    simpl. rewrite insert_middle. apply Hcount.
    unfold Detector.update_index. by rewrite Hfirst.
Qed.

(** Some run lets every task return: the one that runs the tasks one
    after the other. *)
Lemma pool_can_finish files : ∀ d pre,
  Forall (λ w : string * Pool.pc, w.2 = Pool.Finished) pre →
  ∃ s, rtc step
         {| Pool.shared := d; Pool.lock := None;
            Pool.tasks := pre ++ ((λ p, (p, Pool.Hashing)) <$> files) |} s ∧
       Pool.all_finished s.
Proof.
  induction files as [|p files IH]; intros d pre Hpre.
  - eexists. split; [apply rtc_refl|]. unfold Pool.all_finished. simpl.
    by rewrite app_nil_r.
  - rewrite fmap_cons.
    assert (∀ c (rest : list (string * Pool.pc)),
              (pre ++ (p, c) :: rest) !! length pre = Some (p, c)) as Hlook.
    { intros c rest. by apply list_lookup_middle. }
    destruct (usable_hash p) as [h|] eqn:Hp.
    + destruct (IH (Detector.count_processed (Detector.update_index d h p))
                  (pre ++ [(p, Pool.Finished)])) as (s & Hs & Hfin).
      { apply Forall_app. split; [done|]. by repeat constructor. }
      exists s. split; [|done].
      eapply rtc_l.
      { eapply Pool.step_hash; [apply Hlook | exact Hp]. }
      simpl. rewrite insert_middle.
      eapply rtc_l.
      { eapply Pool.step_acquire; [apply Hlook | done]. }
      simpl. rewrite insert_middle.
      etrans; [apply block_runs|].
      by rewrite <-app_assoc in Hs.
    + destruct (IH d (pre ++ [(p, Pool.Finished)])) as (s & Hs & Hfin).
      { apply Forall_app. split; [done|]. by repeat constructor. }
      exists s. split; [|done].
      eapply rtc_l.
      { eapply Pool.step_no_hash; [apply Hlook | exact Hp]. }
      simpl. rewrite insert_middle.
      by rewrite <-app_assoc in Hs.
Qed.

End pool_runs.

Section pool_examples.
Import Demo.

(** One step of a run, after which the state is written out. *)
Local Tactic Notation "take" uconstr(lem) :=
  eapply rtc_l;
    [eapply lem; vm_compute; first [reflexivity | by eexists]|];
  match goal with
  | |- rtc ?R ?s ?t => let s' := eval vm_compute in s in change (rtc R s' t)
  end.

(** A run in which the task of [a.jpg], which was submitted first,
    computes its hash while the task of [b.jpg] is inside the [with]
    block, and enters the block after it. *)
Lemma late_first_run :
  rtc (Pool.step plain no_faults disk)
      (Pool.start (Facts.fresh 2) ["./a.jpg"; "./b.jpg"]) late_first.
Proof.
  take (Pool.step_hash plain no_faults disk _ 1 "./b.jpg" "12").
  take (Pool.step_acquire plain no_faults disk _ 1 "./b.jpg" "12").
  take (Pool.step_test_new plain no_faults disk _ 1 "./b.jpg" "12").
  take (Pool.step_hash plain no_faults disk _ 0 "./a.jpg" "12").
  take (Pool.step_record plain no_faults disk _ 1 "./b.jpg" "12").
  take (Pool.step_load plain no_faults disk _ 1 "./b.jpg").
  take (Pool.step_store plain no_faults disk _ 1 "./b.jpg" 0).
  take (Pool.step_release plain no_faults disk _ 1 "./b.jpg").
  take (Pool.step_acquire plain no_faults disk _ 0 "./a.jpg" "12").
  take (Pool.step_test_found plain no_faults disk _ 0 "./a.jpg" "12").
  take (Pool.step_group_missing plain no_faults disk _ 0 "./a.jpg" "12").
  take (Pool.step_open plain no_faults disk _ 0 "./a.jpg" "12" "./b.jpg").
  take (Pool.step_append plain no_faults disk _ 0 "./a.jpg" "12").
  take (Pool.step_load plain no_faults disk _ 0 "./a.jpg").
  take (Pool.step_store plain no_faults disk _ 0 "./a.jpg" 1).
  take (Pool.step_release plain no_faults disk _ 0 "./a.jpg").
  apply rtc_refl.
Qed.

(** A task that is inside the [with] block keeps every other task out:
    when the task of [b.jpg] has tested the index and not yet written to
    it, the task of [a.jpg], which has its hash, cannot take a step. *)
Example waiting_task_is_kept_out s' :
  Pool.step plain no_faults disk
    {| Pool.shared := Facts.fresh 2; Pool.lock := Some 1;
       Pool.tasks := [("./a.jpg", Pool.Waiting "12");
                      ("./b.jpg", Pool.Recording "12")] |} s' →
  Pool.tasks s' !! 0 = Some ("./a.jpg", Pool.Waiting "12") ∧
  Pool.tasks s' !! 1 = Some ("./b.jpg", Pool.Counting) ∧
  Pool.lock s' = Some 1.
Proof.
  intros Hstep.
  inversion Hstep as
    [? i p Hi|? i p h Hi|? i p h Hi Hl|? i p h Hi|? i p h Hi|? i p h Hi
    |? i p h Hi|? i p h first Hi|? i p h Hi|? i p h Hi|? i p h Hi|? i p Hi
    |? i p count Hi|? i p Hi]; subst; simpl in *;
    destruct i as [|[|i]]; simpl in *; try discriminate.
  by injection Hi as <- <-.
Qed.

Lemma pool_groups_are_schedule_independent_witness :
  rtc (Pool.step plain no_faults disk)
      (Pool.start (Facts.fresh 2) ["./a.jpg"; "./b.jpg"]) late_first ∧
  Pool.all_finished late_first ∧
  ["./b.jpg"; "./a.jpg"] ≡ₚ
    Facts.members plain no_faults disk "12" ["./a.jpg"; "./b.jpg"].
Proof.
  assert (Pool.all_finished late_first) as Hfin by repeat constructor.
  split_and!; [exact late_first_run | exact Hfin |].
  destruct (pool_groups_are_schedule_independent plain no_faults disk 2
              ["./a.jpg"; "./b.jpg"] _ late_first_run) as (_ & _ & _ & Hend).
  destruct (Hend Hfin) as (_ & _ & _ & Hgroups & _).
  apply (Hgroups "12" ["./b.jpg"; "./a.jpg"]). left.
Defined.

End pool_examples.

Section further_examples.
Import Demo.

Lemma grouping_by_prefix_or_thumbnail_witness :
  take (N.to_nat 8192) long_a = take (N.to_nat 8192) long_b ∧
  ∃ l,
    ODict.get
      (Sorter.check_duplicate plain no_faults long_disk "in"
         (Sorter.check_duplicate plain no_faults long_disk "in" [] "a.raw").1
         "b.raw").1
      (md5_hexdigest plain (take (N.to_nat 8192) long_a)) = Some l ∧
    "a.raw" ∈ l ∧ "b.raw" ∈ l.
Proof.
  assert (take (N.to_nat 8192) long_a = take (N.to_nat 8192) long_b) as Hpre
    by (vm_compute; reflexivity).
  split; [exact Hpre|].
  destruct (proj1 (grouping_by_prefix_or_thumbnail plain no_faults long_disk)
              "in" [] "a.raw" "b.raw" long_a long_b) as (l & Hl & Ha & Hb & _).
  - vm_compute. reflexivity.
  - vm_compute. reflexivity.
  - exact Hpre.
  - vm_compute. discriminate.
  - exists l. split_and!; [exact Hl | exact Ha | exact Hb].
Defined.

Lemma grouping_covers_shared_fingerprints_witness :
  Facts.grouped
    (Facts.run plain no_faults disk 3 ["./a.jpg"; "./c.jpg"; "./b.jpg"]) "./a.jpg" ∧
  ¬ Facts.grouped
    (Facts.run plain no_faults disk 3 ["./a.jpg"; "./c.jpg"; "./b.jpg"]) "./c.jpg".
Proof.
  split.
  - apply (proj1 (grouping_covers_shared_fingerprints plain no_faults disk 3
                    ["./a.jpg"; "./c.jpg"; "./b.jpg"] "./a.jpg")).
    split; [left|]. exists "12". split; [vm_compute; reflexivity|].
    vm_compute. apply le_n.
  - apply (proj2 (proj2 (proj2
             (grouping_covers_shared_fingerprints plain no_faults disk 3
                ["./a.jpg"; "./c.jpg"; "./b.jpg"] "./c.jpg"))) "7").
    + vm_compute. reflexivity.
    + vm_compute. reflexivity.
    + right. left.
Defined.

(** A round on a disk where the plain name of the backup is taken: the
    copy goes to the first candidate, and the file that was there stays. *)
Lemma backup_name_search_witness :
  "./backup" ≠ "" ∧
  ∃ st' target,
    Detector.delete_one no_faults (Some "./backup")
      {| Detector.deleted_files := []; Detector.failed_deletions := [];
         Detector.disk := <["./backup/a.jpg" := regular [x09] 1]> disk |}
      "./a.jpg" = Some st' ∧
    Round.backup_target "./backup"
      (<["./backup/a.jpg" := regular [x09] 1]> disk) "./a.jpg" target ∧
    target = "./backup/a_1.jpg" ∧
    Fs.path_exists (<["./backup/a.jpg" := regular [x09] 1]> disk) target = false ∧
    Fs.stat (Detector.disk st') target = Some (regular [x01; x02] 10) ∧
    Detector.disk st' !! "./backup/a.jpg" = Some (regular [x09] 1).
Proof.
  assert ("./backup" ≠ "") as Hdir by discriminate.
  split; [exact Hdir|].
  destruct (delete_one_round no_faults (Some "./backup")
              {| Detector.deleted_files := []; Detector.failed_deletions := [];
                 Detector.disk := <["./backup/a.jpg" := regular [x09] 1]> disk |}
              "./a.jpg") as (st' & Hone & _).
  destruct (backup_name_search plain no_faults disk "./backup/a.jpg")
    as (_ & _ & _ & Hround & _).
  destruct (Hround _ _ _ _ Hdir Hone)
    as (target & Htarget & Hfree & Hkeep & _ & Hcopy).
  simpl in Htarget, Hfree, Hkeep, Hcopy.
  assert (target = "./backup/a_1.jpg") as Heq.
  { unfold Round.backup_target in Htarget. vm_compute in Htarget. congruence. }
  exists st', target. split_and!; [exact Hone | exact Htarget | exact Heq | exact Hfree | |].
  - destruct Hcopy as (f & Hf & _ & Hstat).
    { rewrite Heq. vm_compute. reflexivity. }
    rewrite Hstat. vm_compute in Hf. injection Hf as <-. reflexivity.
  - apply Hkeep; [discriminate | vm_compute; reflexivity].
Defined.


End further_examples.


(** * Further properties of the code *)

Section deletion_more.
Context (P : platform) (F : faults).

(** X5: every file on the list is attempted, and once: the files deleted
    and the files failed, taken together, are the files of the list, each
    as often as the list names it, and either list keeps their order.  A
    failure does not end the loop. *)
Theorem every_listed_file_is_attempted fs files backup_dir r :
  Detector.delete_duplicate_files P F fs files backup_dir = Some (inr r) →
  Detector.deleted_files r ++ (Detector.failed_deletions r).*1 ≡ₚ files ∧
  Detector.deleted_files r `sublist_of` files ∧
  (Detector.failed_deletions r).*1 `sublist_of` files.
Proof.
  unfold Detector.delete_duplicate_files.
  destruct (match Detector.configured backup_dir with
            | Some dir => Fs.makedirs P F fs dir | None => inr fs end)
    as [e|fs0]; [done|].
  destruct (Detector.delete_loop _ _ _ _) as [st'|] eqn:Hloop; [|done].
  intros [= <-].
  apply delete_loop_attempts in Hloop
    as (deleted & failed & Hd & Hf & Hperm & Hsd & Hsf).
  simpl in Hd, Hf. by rewrite Hd, Hf.
Qed.

Lemma trail_entries fuel (fs : gmap string file) : ∀ p,
  is_Some (Fs.follow fuel fs p) →
  ∀ x, x ∈ Fs.trail fuel fs p → is_Some (fs !! x).
Proof.
  induction fuel as [|fuel IH]; intros p; simpl;
    destruct (fs !! p) as [e|] eqn:Hp; try (by intros []);
    destruct (link e) as [u|] eqn:Hl.
  - by intros [].
  - intros _ x ->%list_elem_of_singleton. by rewrite Hp.
  - intros Hu x [->|Hx]%elem_of_cons; [by rewrite Hp | by eapply IH].
  - intros _ x ->%list_elem_of_singleton. by rewrite Hp.
Qed.

Lemma delete_duplicate_files_keeps fs files backup_dir r q g :
  Detector.delete_duplicate_files P F fs files backup_dir = Some (inr r) →
  q ∉ files → fs !! q = Some g → Detector.disk r !! q = Some g.
Proof.
  unfold Detector.delete_duplicate_files.
  destruct (match Detector.configured backup_dir with
            | Some dir => Fs.makedirs P F fs dir | None => inr fs end)
    as [e|fs0] eqn:Hprep; [done|].
  destruct (Detector.delete_loop _ _ _ _) as [st'|] eqn:Hloop; [|done].
  intros [= <-] Hq Hg.
  apply (delete_loop_keeps _ _ _ _ _ _ _ Hloop Hq). simpl.
  destruct (Detector.configured backup_dir); [|by injection Hprep as <-].
  by eapply makedirs_keeps.
Qed.

Lemma trail_plain fuel (fs : gmap string file) p e :
  fs !! p = Some e → link e = None → Fs.trail fuel fs p = [p].
Proof. intros Hp Hl. destruct fuel; simpl; by rewrite Hp, Hl. Qed.

Lemma delete_duplicate_files_keeps_stat fs files backup_dir r q f :
  Detector.delete_duplicate_files P F fs files backup_dir = Some (inr r) →
  Fs.stat fs q = Some f →
  (∀ x, x ∈ Fs.trail Fs.symloop_max fs q → x ∉ files) →
  Fs.stat (Detector.disk r) q = Some f.
Proof.
  intros Hrun Hf Htrail. rewrite <-Hf. unfold Fs.stat, Fs.resolve. f_equal.
  apply follow_agree. intros x Hx.
  destruct (trail_entries Fs.symloop_max fs q) with (x := x) as [e He]; [|done|].
  { unfold Fs.stat, Fs.resolve in Hf. by destruct (Fs.follow _ fs q). }
  rewrite He. eapply delete_duplicate_files_keeps; [done | by apply Htrail | done].
Qed.

(** X6: a path that is not on the list is left as it is: whatever the
    faults and whether or not backups are written, its entry on the disk
    after the run is its entry before, and no backup is written over it.
    If the path led to a file before, through symbolic links or at once,
    and neither it nor a link on the way nor the file is on the list,
    then it leads to the same file, with the same bytes and time. *)
Theorem unlisted_files_are_untouched fs files backup_dir r q g :
  Detector.delete_duplicate_files P F fs files backup_dir = Some (inr r) →
  q ∉ files →
  fs !! q = Some g →
  Detector.disk r !! q = Some g ∧
  ∀ f, Fs.stat fs q = Some f →
       (∀ x, x ∈ Fs.trail Fs.symloop_max fs q → x ∉ files) →
       Fs.stat (Detector.disk r) q = Some f.
Proof.
  intros Hrun Hq Hg. split; [by eapply delete_duplicate_files_keeps|].
  intros f Hf Htrail. by eapply delete_duplicate_files_keeps_stat.
Qed.

Lemma copy_of_regular (g : file) :
  link g = None → is_dir g = false → Fs.copy_of g = g.
Proof. destruct g. simpl. by intros -> ->. Qed.

Lemma round_keeps_content backup_dir dir st p st' g :
  Round.round F backup_dir st p st' →
  Detector.configured backup_dir = Some dir →
  link g = None →
  (∃ q, Detector.disk st !! q = Some g) →
  ∃ q, Detector.disk st' !! q = Some g.
Proof.
  intros Hr Hconf Hlink [q Hq].
  destruct Hr as
    [dir' target e fs1 _ Htarget Hcopy _ _ -> | fs1 e Hfs1 _ _ _ ->
    | fs1 Hfs1 Hrm _ _].
  - exists q. eapply lookup_weaken; [done|].
    eapply copy2_subseteq; [|done]. by eapply backup_target_free.
  - exists q. eapply lookup_weaken; [done | by eapply copied_subseteq].
  - apply remove_inr in Hrm as [_ ->].
    destruct (decide (q = p)) as [->|Hne].
    + destruct Hfs1 as [[Hc _]|(dir' & target & _ & Htarget & Hcopy)];
        [congruence|].
      apply backup_target_free in Htarget.
      destruct (copy2_free _ _ _ _ _ _ Htarget Hcopy)
        as [[_ [? [=]]]|(s & f & t & g' & Hsrc & Hdir & _ & Ht & -> & Hg')].
      destruct Hg' as [[_ ->]|[[? [=]] _]].
      unfold Fs.resolve in Hsrc. rewrite (follow_plain _ _ _ _ Hq Hlink) in Hsrc.
      injection Hsrc as <- <-.
      exists t. rewrite lookup_delete_ne by congruence.
      rewrite lookup_insert_eq. by rewrite copy_of_regular.
    + exists q. rewrite lookup_delete_ne by done.
      eapply lookup_weaken; [done | by eapply copied_subseteq].
Qed.

Lemma delete_loop_keeps_content backup_dir dir files g : ∀ st st',
  Detector.configured backup_dir = Some dir →
  link g = None →
  Detector.delete_loop F backup_dir st files = Some st' →
  (∃ q, Detector.disk st !! q = Some g) →
  ∃ q, Detector.disk st' !! q = Some g.
Proof.
  induction files as [|p files IH]; intros st st' Hconf Hlink; simpl.
  - by intros [= <-].
  - destruct (Detector.delete_one F backup_dir st p) as [st1|] eqn:H1; [|done].
    intros Hloop Hq. apply (IH _ _ Hconf Hlink Hloop).
    eapply round_keeps_content; [by apply delete_one_inv | done..].
Qed.

(** X7: with a backup directory configured no file is lost: every file
    to which some path led before the run, with its bytes and its
    modification time, is one to which some path leads after it, the
    path of its backup if it was deleted; and every entry of the disk
    that is no symbolic link is an entry of the disk afterwards.  (A
    symbolic link that is on the list is backed up as a copy of the file
    it names, and then removed.) *)
Theorem backup_loses_no_content fs files dir r q g :
  dir ≠ "" →
  Detector.delete_duplicate_files P F fs files (Some dir) = Some (inr r) →
  (Fs.stat fs q = Some g → ∃ q', Fs.stat (Detector.disk r) q' = Some g) ∧
  (fs !! q = Some g → link g = None → ∃ q', Detector.disk r !! q' = Some g).
Proof.
  intros Hdir Hrun.
  assert (Detector.configured (Some dir) = Some dir) as Hconf.
  { unfold Detector.configured. by rewrite decide_False. }
  assert (∀ q g, fs !! q = Some g → link g = None →
                 ∃ q', Detector.disk r !! q' = Some g) as Hentry.
  { clear q g. intros q g Hq Hlink. revert Hrun.
    unfold Detector.delete_duplicate_files. rewrite Hconf.
    destruct (Fs.makedirs P F fs dir) as [e|fs0] eqn:Hmk; [done|].
    destruct (Detector.delete_loop _ _ _ _) as [st'|] eqn:Hloop; [|done].
    intros [= <-].
    apply (delete_loop_keeps_content _ _ _ _ _ _ Hconf Hlink Hloop).
    exists q. simpl. by eapply makedirs_keeps. }
  split; [|by apply Hentry].
  intros (_ & Hlink & t & Ht)%stat_entry.
  destruct (Hentry t g Ht Hlink) as [q' Hq'].
  exists q'. by apply stat_plain.
Qed.

Lemma delete_loop_plain files : ∀ st st',
  Detector.delete_loop F None st files = Some st' →
  ∃ deleted,
    Detector.deleted_files st' = Detector.deleted_files st ++ deleted ∧
    ∀ q, Detector.disk st' !! q =
         if decide (q ∈ deleted) then None else Detector.disk st !! q.
Proof.
  induction files as [|p files IH]; intros st st'; simpl.
  - intros [= <-]. exists []. rewrite app_nil_r. split; [done|].
    intros q. rewrite decide_False; [done | apply not_elem_of_nil].
  - destruct (Detector.delete_one F None st p) as [st1|] eqn:H1; [|done].
    intros (deleted & Hd & Hdisk)%IH. apply delete_one_inv in H1.
    destruct H1 as [dir target e fs1 Hc _ _ _ _ _ | fs1 e Hfs1 _ Hd1 _ Hk
                   | fs1 Hfs1 Hrm Hd1 _].
    + done.
    + destruct Hfs1 as [[_ ->]|(? & ? & Hc & _)]; [|done].
      exists deleted. rewrite Hd, Hd1. split; [done|].
      intros q. by rewrite Hdisk, Hk.
    + destruct Hfs1 as [[_ ->]|(? & ? & Hc & _)]; [|done].
      apply remove_inr in Hrm as [_ Hk].
      exists (p :: deleted). rewrite Hd, Hd1, <-app_assoc. split; [done|].
      intros q. rewrite Hdisk, Hk.
      destruct (decide (q ∈ deleted)) as [Hin|Hnin].
      * rewrite decide_True; [done | by right].
      * destruct (decide (q = p)) as [->|Hne].
        -- rewrite decide_True by left. apply lookup_delete_eq.
        -- rewrite decide_False by (by intros [?|?]%elem_of_cons).
           by apply lookup_delete_ne.
Qed.

(** X8: without a backup directory the disk after the run is the disk
    before with the entries of the deleted files taken away and nothing
    else changed: a deleted file is gone, and any other path, a file
    that failed included, has the entry it had.  What a path leads to
    follows: nothing, if the path, a symbolic link on its way or the
    file at the end was deleted, and what it led to before if not. *)
Theorem plain_deletion_removes_exactly fs files r :
  Detector.delete_duplicate_files P F fs files None = Some (inr r) →
  (∀ q, Detector.disk r !! q =
        if decide (q ∈ Detector.deleted_files r) then None else fs !! q) ∧
  (∀ q, Fs.stat (Detector.disk r) q =
        if decide (Exists (λ x, x ∈ Detector.deleted_files r)
                          (Fs.trail Fs.symloop_max fs q))
        then None else Fs.stat fs q).
Proof.
  unfold Detector.delete_duplicate_files. simpl.
  destruct (Detector.delete_loop _ _ _ _) as [st'|] eqn:Hloop; [|done].
  intros [= <-]. apply delete_loop_plain in Hloop as (deleted & Hd & Hdisk).
  simpl in Hd, Hdisk. rewrite Hd.
  split; [done|]. intros q. unfold Fs.stat, Fs.resolve.
  destruct (decide _) as [Hgone|Hkept].
  - apply Exists_exists in Hgone as (x & Hx & Hdel).
    rewrite (follow_broken _ fs (Detector.disk st') (λ x, x ∈ deleted)) with (x := x);
      try done.
    + intros y Hy. by rewrite Hdisk, decide_True.
    + intros y Hy. by rewrite Hdisk, decide_False.
    + intros y. destruct (decide (y ∈ deleted)); auto.
  - f_equal. apply follow_agree. intros x Hx. rewrite Hdisk.
    rewrite decide_False; [done|]. intros Hdel. apply Hkept.
    apply Exists_exists. eauto.
Qed.

End deletion_more.


Section choice.
Context (P : platform) (F : faults) (fs : gmap string file).

Lemma choose_loop_chosen strategy groups : ∀ inputs keep del keep' del' inputs',
  Detector.choose_loop F fs strategy groups inputs keep del
    = Some (keep', del', inputs') →
  ∃ keeps deletes,
    keep' = keep ++ keeps ∧ del' = del ++ deletes ∧
    Choice.chosen F fs groups keeps deletes.
Proof.
  induction groups as [|[h l] groups IH]; intros inputs keep del keep' del' inputs';
    simpl.
  - intros [= <- <- _]. exists [], []. rewrite !app_nil_r.
    split_and!; [done..|constructor].
  - destruct (decide (length l ≤ 1)) as [Hshort|Hlong].
    { intros (keeps & deletes & -> & -> & Hc)%IH. exists keeps, deletes.
      split_and!; [done..|]. apply Choice.chosen_skip; [by left | done]. }
    change (list_omap _ _ ?f ?l) with (omap f l).
    destruct (omap (Detector.get_file_info F fs) l) as [|first others] eqn:Hinfos.
    { intros (keeps & deletes & -> & -> & Hc)%IH. exists keeps, deletes.
      split_and!; [done..|]. apply Choice.chosen_skip; [by right | done]. }
    destruct (Detector.select_keep_file strategy inputs first others)
      as [[keep_file inputs1]|] eqn:Hsel; [|done].
    intros (keeps & deletes & -> & -> & Hc)%IH.
    exists (Detector.path keep_file :: keeps),
      ((Detector.path <$>
          filter (λ info, Detector.path info ≠ Detector.path keep_file)
                 (first :: others)) ++ deletes).
    rewrite <-!app_assoc. split_and!; [done..|].
    rewrite <-Hinfos. apply Choice.chosen_pick; [simpl; lia | | done].
    simpl. rewrite Hinfos. by eapply select_keep_file_elem.
Qed.

Lemma elem_of_infos (l : list string) info :
  info ∈ omap (Detector.get_file_info F fs) l →
  Detector.path info ∈ l ∧
  Detector.get_file_info F fs (Detector.path info) = Some info.
Proof.
  intros (p & Hp & Hinfo)%list_elem_of_omap.
  by rewrite (path_get_file_info _ _ _ _ Hinfo).
Qed.

Lemma chosen_keeps groups keeps deletes k :
  Choice.chosen F fs groups keeps deletes → k ∈ keeps →
  ∃ g, g ∈ groups ∧ k ∈ g.2 ∧ is_Some (Detector.get_file_info F fs k).
Proof.
  induction 1 as [|g groups keeps deletes _ _ IH
                  |g groups keep keeps deletes _ Hkeep _ IH].
  - by intros ?%elem_of_nil.
  - intros (g' & ? & ?)%IH. exists g'. split; [by right | done].
  - intros [->|Hin]%elem_of_cons.
    + apply elem_of_infos in Hkeep as [? Hinfo]. exists g.
      split_and!; [left | done | by rewrite Hinfo].
    + destruct (IH Hin) as (g' & ? & ?). exists g'. split; [by right | done].
Qed.

Lemma chosen_deletes groups keeps deletes p :
  Choice.chosen F fs groups keeps deletes → p ∈ deletes →
  ∃ g k, g ∈ groups ∧ p ∈ g.2 ∧ k ∈ g.2 ∧ k ∈ keeps ∧ k ≠ p ∧
         is_Some (Detector.get_file_info F fs p).
Proof.
  induction 1 as [|g groups keeps deletes _ _ IH
                  |g groups keep keeps deletes _ Hkeep _ IH].
  - by intros ?%elem_of_nil.
  - intros (g' & k & ? & ?)%IH. exists g', k. split; [by right | done].
  - intros [Hin|Hin]%elem_of_app.
    + apply list_elem_of_fmap in Hin as (info & -> & [Hne Hinfo]%list_elem_of_filter).
      apply elem_of_infos in Hinfo as [? Hinfo].
      apply elem_of_infos in Hkeep as [? _].
      exists g, (Detector.path keep).
      split_and!; [left | done | done | left | done | by rewrite Hinfo].
    + destruct (IH Hin) as (g' & k & ? & ? & ? & ? & ? & ?). exists g', k.
      split_and!; [by right | done | done | by right | done..].
Qed.

Lemma chosen_disjoint groups keeps deletes p :
  Choice.separated groups →
  Choice.chosen F fs groups keeps deletes → p ∈ deletes → p ∉ keeps.
Proof.
  intros Hsep Hc. revert Hsep.
  induction Hc as [|g groups keeps deletes _ Hc IH
                   |g groups keep keeps deletes _ Hkeep Hc IH];
    intros Hsep; inversion Hsep as [|? ? Hg Hsep']; subst.
  - by intros ?%elem_of_nil.
  - by apply IH.
  - apply elem_of_infos in Hkeep as [Hkg _].
    intros [Hin|Hin]%elem_of_app [Hk|Hk]%elem_of_cons.
    + apply list_elem_of_fmap in Hin as (info & -> & [Hne _]%list_elem_of_filter).
      done.
    + apply list_elem_of_fmap in Hin as (info & -> & [_ Hinfo]%list_elem_of_filter).
      apply elem_of_infos in Hinfo as [Hpg _].
      destruct (chosen_keeps _ _ _ _ Hc Hk) as (g' & Hg' & Hpg' & _).
      by apply (Hg g' _ Hg' Hpg).
    + subst p. destruct (chosen_deletes _ _ _ _ Hc Hin) as (g' & _ & Hg' & Hpg' & _).
      by apply (Hg g' _ Hg' Hkg).
    + by apply (IH Hsep' Hin).
Qed.

Lemma chosen_covers groups keeps deletes g :
  Choice.chosen F fs groups keeps deletes → g ∈ groups →
  2 ≤ length g.2 → omap (Detector.get_file_info F fs) g.2 ≠ [] →
  ∃ k, k ∈ keeps ∧ k ∈ g.2.
Proof.
  induction 1 as [|g0 groups keeps deletes Hskip _ IH
                  |g0 groups keep keeps deletes _ Hkeep _ IH].
  - by intros ?%elem_of_nil.
  - intros [->|Hin]%elem_of_cons Hlen Hinfos.
    + destruct Hskip; [lia | done].
    + by apply IH.
  - intros [->|Hin]%elem_of_cons Hlen Hinfos.
    + apply elem_of_infos in Hkeep as [? _]. exists (Detector.path keep).
      split; [left | done].
    + destruct (IH Hin Hlen Hinfos) as (k & ? & ?). exists k.
      split; [by right | done].
Qed.

Lemma separated_by_key (key : string → option string) groups :
  NoDup groups.*1 →
  (∀ h l p, (h, l) ∈ groups → p ∈ l → key p = Some h) →
  Choice.separated groups.
Proof.
  induction groups as [|[h l] groups IH]; [constructor|].
  rewrite fmap_cons, NoDup_cons. intros [Hh Hnd] Hkey. constructor.
  - intros [h' l'] p Hin Hp Hp'. simpl in *.
    assert (key p = Some h) as H1 by (eapply Hkey; [left | done]).
    assert (key p = Some h') as H2 by (eapply Hkey; [by right | done]).
    assert (h' = h) as -> by congruence.
    apply Hh. apply list_elem_of_fmap. by exists (h, l').
  - apply IH; [done|]. intros h' l' p Hin. apply (Hkey h' l' p). by right.
Qed.

Lemma separated_run n files :
  Choice.separated (Detector.duplicates (Facts.run P F fs n files)).
Proof.
  apply (separated_by_key (Detector.usable_hash P F fs)).
  - apply (Facts.index_keys _ _ _ _ _ (index_of_run P F fs n files)).
  - intros h l p [_ ->]%group_of_run Hp.
    by apply elem_of_members in Hp as [_ ?].
Qed.

End choice.

Section resolution_safety.
Context (P : platform) (F : faults) (fs : gmap string file).

Local Abbreviation run := (Facts.run P F fs).

Lemma elem_of_groups_pair (groups : list (string * list string)) g :
  g ∈ groups → (g.1, g.2) ∈ groups.
Proof. by destruct g. Qed.

(** X4: whatever the strategy and the answers typed, no file is both kept
    and listed for deletion; a file listed for deletion is a member of a
    group of which another member is kept; and a kept file is a member of a
    group that could be examined. *)
Theorem deletion_list_spares_keepers n files strategy inputs keep del inputs' :
  Detector.choose_files_to_keep F fs (run n files) strategy inputs
    = Some (keep, del, inputs') →
  (∀ p, p ∈ del →
     (p ∉ keep) ∧
     ∃ h l k, (h, l) ∈ Detector.duplicates (run n files) ∧
              p ∈ l ∧ k ∈ l ∧ k ∈ keep ∧ k ≠ p) ∧
  (∀ k, k ∈ keep →
     ∃ h l, (h, l) ∈ Detector.duplicates (run n files) ∧ k ∈ l ∧
            is_Some (Detector.get_file_info F fs k)).
Proof.
  unfold Detector.choose_files_to_keep.
  intros (keeps & deletes & -> & -> & Hc)%choose_loop_chosen. simpl. split.
  - intros p Hp. split.
    + eapply chosen_disjoint; [apply separated_run | done..].
    + destruct (chosen_deletes _ _ _ _ _ _ Hc Hp)
        as (g & k & ?%elem_of_groups_pair & ? & ? & ? & ? & _).
      by exists g.1, g.2, k.
  - intros k Hk.
    destruct (chosen_keeps _ _ _ _ _ _ Hc Hk) as (g & ?%elem_of_groups_pair & ? & ?).
    by exists g.1, g.2.
Qed.

Lemma get_file_info_on_disk file_path info :
  Detector.get_file_info F fs file_path = Some info →
  ∃ e f, fs !! file_path = Some e ∧ Fs.stat fs file_path = Some f.
Proof.
  unfold Detector.get_file_info. destruct (stat_fails F file_path); [done|].
  destruct (Fs.stat fs file_path) as [f|] eqn:Hf; [|done].
  intros _. destruct (stat_entry _ _ _ Hf) as ([e He] & _). eauto.
Qed.

Lemma chosen_member_survives groups keeps deletes backup_dir r g :
  Choice.separated groups →
  Choice.chosen F fs groups keeps deletes →
  Detector.delete_duplicate_files P F fs deletes backup_dir = Some (inr r) →
  g ∈ groups → 2 ≤ length g.2 →
  omap (Detector.get_file_info F fs) g.2 ≠ [] →
  ∃ k e f, k ∈ g.2 ∧ k ∈ keeps ∧
    fs !! k = Some e ∧ Detector.disk r !! k = Some e ∧
    Fs.stat fs k = Some f ∧
    ((∀ x, x ∈ Fs.trail Fs.symloop_max fs k → x ∉ deletes) →
     Fs.stat (Detector.disk r) k = Some f) ∧
    (link e = None → f = e ∧ Fs.stat (Detector.disk r) k = Some e).
Proof.
  intros Hsep Hc Hdel Hin Hlen Hinfos.
  destruct (chosen_covers _ _ _ _ _ g Hc Hin Hlen Hinfos) as (k & Hk & Hkl).
  destruct (chosen_keeps _ _ _ _ _ _ Hc Hk) as (_ & _ & _ & [info Hinfo]).
  destruct (get_file_info_on_disk _ _ Hinfo) as (e & f & He & Hf).
  assert (k ∉ deletes) as Hkd.
  { intros Hkd. by eapply chosen_disjoint. }
  exists k, e, f. split_and!; [done.. | | done | |].
  - by eapply delete_duplicate_files_keeps.
  - intros Htrail. by eapply delete_duplicate_files_keeps_stat.
  - intros Hl. rewrite (stat_plain _ _ _ He Hl) in Hf. injection Hf as <-.
    split; [done|]. apply stat_plain; [|done].
    by eapply delete_duplicate_files_keeps.
Qed.

(** X9: detection, selection and deletion together leave the kept member
    of every group in its place: of each group of which some member can be
    examined when the keeper is chosen, the member that is kept has after
    the deletion run the entry it had, whatever the strategy, the typed
    answers, the faults and the backup setting.  If the kept member is no
    symbolic link it is the image itself that is left, with its bytes and
    its time; if it is a link, it leads to the image it led to provided
    that neither a link on the way nor the image at the end was listed for
    deletion. *)
Theorem a_copy_of_every_group_survives
    n files strategy inputs keep del inputs' backup_dir r h l :
  Detector.choose_files_to_keep F fs (run n files) strategy inputs
    = Some (keep, del, inputs') →
  Detector.delete_duplicate_files P F fs del backup_dir = Some (inr r) →
  (h, l) ∈ Detector.duplicates (run n files) →
  omap (Detector.get_file_info F fs) l ≠ [] →
  ∃ k e f, k ∈ l ∧ k ∈ keep ∧
    fs !! k = Some e ∧ Detector.disk r !! k = Some e ∧
    Fs.stat fs k = Some f ∧
    ((∀ x, x ∈ Fs.trail Fs.symloop_max fs k → x ∉ del) →
     Fs.stat (Detector.disk r) k = Some f) ∧
    (link e = None → f = e ∧ Fs.stat (Detector.disk r) k = Some e).
Proof.
  unfold Detector.choose_files_to_keep.
  intros (keeps & deletes & -> & -> & Hc)%choose_loop_chosen Hdel Hin Hinfos.
  simpl in *.
  pose proof Hin as [Hlen ->]%group_of_run.
  apply (chosen_member_survives _ _ _ _ _ _ (separated_run P F fs n files)
           Hc Hdel Hin Hlen Hinfos).
Qed.

Lemma listed_append (d : list (string * list string)) k (x : string) :
  Account.listed (ODict.append d k x) = S (Account.listed d).
Proof.
  unfold Account.listed. induction d as [|[k' l] d IH]; simpl; [done|].
  destruct (decide (k' = k)); simpl.
  - rewrite length_app. simpl. lia.
  - change (list_fmap _ _ ?f ?l) with (f <$> l). rewrite IH. lia.
Qed.

Lemma length_append (d : list (string * list string)) k (x : string) :
  length (ODict.append d k x) =
  if ODict.mem d k then length d else S (length d).
Proof.
  induction d as [|[k' l] d IH]; simpl; [done|].
  unfold ODict.mem in *. simpl. destruct (decide (k' = k)); simpl.
  - done.
  - rewrite IH. by destruct (bool_decide _).
Qed.

Lemma accounting_step d p :
  (∀ h, ODict.mem (Detector.duplicates d) h = true →
        is_Some (Detector.image_hashes d !! h)) →
  Detector.processed_count d + length (Detector.duplicates d) =
    size (Detector.image_hashes d) + Account.listed (Detector.duplicates d) →
  Detector.processed_count (Detector.process_image P F fs d p)
    + length (Detector.duplicates (Detector.process_image P F fs d p)) =
  size (Detector.image_hashes (Detector.process_image P F fs d p))
    + Account.listed (Detector.duplicates (Detector.process_image P F fs d p)).
Proof.
  intros Hkeys Hinv. unfold Detector.process_image.
  destruct (Detector.usable_hash P F fs p) as [h|]; [|done].
  unfold Detector.update_index, Detector.count_processed.
  destruct (Detector.image_hashes d !! h) as [first|] eqn:Hh; simpl.
  - destruct (ODict.mem (Detector.duplicates d) h) eqn:Hm.
    + rewrite length_append, Hm, listed_append. lia.
    + rewrite length_append, !listed_append.
      assert (ODict.mem (ODict.append (Detector.duplicates d) h first) h = true) as ->.
      { apply mem_true. rewrite get_append_eq. eauto. }
      rewrite length_append, Hm. lia.
  - rewrite map_size_insert_None by done. lia.
Qed.

Lemma accounting_run n files :
  Detector.processed_count (run n files)
    + length (Detector.duplicates (run n files)) =
  size (Detector.image_hashes (run n files))
    + Account.listed (Detector.duplicates (run n files)).
Proof.
  induction files as [|p files IH] using rev_ind; [done|].
  rewrite run_snoc. apply accounting_step; [|done].
  destruct (index_of_run P F fs n files) as [Hfirst Hgroup _ _].
  intros h [l Hl]%mem_true. rewrite Hgroup in Hl. rewrite Hfirst.
  destruct (decide _) as [Hlen|]; [|done].
  destruct (Facts.members P F fs h files); [simpl in Hlen; lia | by eexists].
Qed.

(** X1: of the files whose hash was computed each is either the file
    recorded for its fingerprint in [image_hashes] or a later member of a
    group: [processed_count] is the number of fingerprints recorded plus,
    for every group, the number of its members but one.  A fingerprint is
    recorded exactly when some processed file has it. *)
Theorem index_accounting n files :
  Detector.processed_count (run n files)
    + length (Detector.duplicates (run n files)) =
  size (Detector.image_hashes (run n files))
    + Account.listed (Detector.duplicates (run n files)) ∧
  ∀ h, is_Some (Detector.image_hashes (run n files) !! h) ↔
       ∃ p, p ∈ files ∧ Detector.usable_hash P F fs p = Some h.
Proof.
  split; [apply accounting_run|].
  intros h.
  rewrite (Facts.index_first _ _ _ _ _ (index_of_run P F fs n files)). split.
  - intros [p Hp]. exists p. by apply elem_of_members, head_Some_elem_of.
  - intros (p & Hp%elem_of_members).
    destruct (Facts.members P F fs h files); [by apply elem_of_nil in Hp | by eexists].
Qed.

Lemma chosen_length groups keeps deletes :
  Choice.chosen F fs groups keeps deletes →
  (∀ g, g ∈ groups → 2 ≤ length g.2 ∧ omap (Detector.get_file_info F fs) g.2 ≠ []) →
  length keeps = length groups.
Proof.
  induction 1 as [|g groups keeps deletes Hskip _ IH
                  |g groups keep keeps deletes _ _ _ IH]; intros Hall.
  - done.
  - destruct (Hall g) as [? ?]; [left|]. destruct Hskip; [lia | done].
  - simpl. f_equal. apply IH. intros g' Hg'. apply Hall. by right.
Qed.

(** X10: when the submitted paths are distinct and every file whose hash
    was computed can still be examined, selection keeps one file for each
    group and lists all the others: the files listed for deletion and the
    fingerprints recorded add up to the files processed, so that one file
    for each fingerprint is left. *)
Theorem one_file_per_fingerprint_is_left
    n files strategy inputs keep del inputs' :
  NoDup files →
  (∀ p, p ∈ files → is_Some (Detector.usable_hash P F fs p) →
        is_Some (Detector.get_file_info F fs p)) →
  Detector.choose_files_to_keep F fs (run n files) strategy inputs
    = Some (keep, del, inputs') →
  length keep = length (Detector.duplicates (run n files)) ∧
  length del + size (Detector.image_hashes (run n files))
    = Detector.processed_count (run n files).
Proof.
  intros Hnd Hread Hchoose.
  assert (∀ h l p, (h, l) ∈ Detector.duplicates (run n files) → p ∈ l →
                   is_Some (Detector.get_file_info F fs p)) as Hgroups.
  { intros h l p [_ ->]%group_of_run [Hp Hh]%elem_of_members.
    apply Hread; [done | by rewrite Hh]. }
  assert (∀ h l, (h, l) ∈ Detector.duplicates (run n files) → 2 ≤ length l) as Hlen.
  { by intros h l [? ->]%group_of_run. }
  pose proof Hchoose as Hcount. unfold Detector.choose_files_to_keep in Hcount.
  apply choose_loop_count in Hcount.
  2:{ intros h l [_ ->]%group_of_run. by apply NoDup_filter. }
  rewrite (examined_all_readable _ _ _ Hlen Hgroups) in Hcount. simpl in Hcount.
  unfold Detector.choose_files_to_keep in Hchoose.
  apply choose_loop_chosen in Hchoose as (keeps & deletes & -> & -> & Hc).
  simpl in *.
  assert (length keeps = length (Detector.duplicates (run n files))) as Hk.
  { apply (chosen_length _ _ _ Hc). intros [h l] Hin. simpl. split; [by eapply Hlen|].
    destruct l as [|p l]; [specialize (Hlen _ _ Hin); simpl in Hlen; lia|].
    destruct (Hgroups h (p :: l) p Hin) as [info Hinfo]; [left|].
    simpl. by rewrite Hinfo. }
  split; [done|].
  pose proof (accounting_run n files). lia.
Qed.

End resolution_safety.

Section manual_choice.

(** X3: the manual selection takes the first answer that is a number
    between 1 and the number of records, returns the record at that
    place and leaves the answers that follow unread; every answer before
    it is no number or is out of range.  When no answer is in range the
    input runs out and nothing is selected. *)
Theorem manual_selection_takes_first_valid_answer inputs file_infos :
  match Detector.manual_file_selection inputs file_infos with
  | Some (info, rest) =>
      ∃ skipped choice,
        inputs = skipped ++ Some choice :: rest ∧
        (1 ≤ choice ≤ Z.of_nat (length file_infos))%Z ∧
        file_infos !! Z.to_nat (choice - 1) = Some info ∧
        Forall (λ a, ∀ c, a = Some c →
                  ¬ (1 ≤ c ≤ Z.of_nat (length file_infos))%Z) skipped
  | None =>
      Forall (λ a, ∀ c, a = Some c →
                ¬ (1 ≤ c ≤ Z.of_nat (length file_infos))%Z) inputs
  end.
Proof.
  induction inputs as [|[c|] inputs IH]; simpl.
  - constructor.
  - destruct (Z.leb_spec 1 c) as [H1|H1]; simpl.
    + destruct (Z.leb_spec c (Z.of_nat (length file_infos))) as [H2|H2].
      * destruct (file_infos !! Z.to_nat (c - 1)) as [info|] eqn:Hl.
        -- exists [], c. split_and!; [done | lia | lia | done | constructor].
        -- apply lookup_ge_None in Hl. lia.
      * destruct (Detector.manual_file_selection inputs file_infos) as [[info rest]|].
        -- destruct IH as (skipped & choice & -> & [? ?] & ? & ?).
           exists (Some c :: skipped), choice. split_and!; try done.
           constructor; [|done]. intros ? [= <-]. lia.
        -- constructor; [|done]. intros ? [= <-]. lia.
    + destruct (Detector.manual_file_selection inputs file_infos) as [[info rest]|].
      * destruct IH as (skipped & choice & -> & [? ?] & ? & ?).
        exists (Some c :: skipped), choice. split_and!; try done.
        constructor; [|done]. intros ? [= <-]. lia.
      * constructor; [|done]. intros ? [= <-]. lia.
  - destruct (Detector.manual_file_selection inputs file_infos) as [[info rest]|].
    + destruct IH as (skipped & choice & -> & [? ?] & ? & ?).
      exists (None :: skipped), choice. split_and!; try done.
      by constructor.
    + by constructor.
Qed.

End manual_choice.


Section order.
Context (F : faults) (fs : gmap string file).

Lemma max_by_elem {A} (key : A → Z) first others :
  Detector.max_by key first others ∈ first :: others ∧
  ∀ x, x ∈ first :: others → (key x ≤ key (Detector.max_by key first others))%Z.
Proof.
  destruct (max_by_first key first others) as (before & after & Heq & Hb & Ha).
  rewrite Heq. split; [set_solver|].
  intros x [Hx|[->|Hx]%elem_of_cons]%elem_of_app.
  - specialize (Hb x Hx). lia.
  - lia.
  - by apply Ha.
Qed.

Lemma keeper_perm r h (l1 l2 : list string) :
  l1 ≡ₚ l2 →
  (∀ p q ip iq, p ∈ l1 → q ∈ l1 →
     Detector.get_file_info F fs p = Some ip →
     Detector.get_file_info F fs q = Some iq →
     r ip = r iq → p = q) →
  Policy.keeper F fs r (h, l1) = Policy.keeper F fs r (h, l2).
Proof.
  intros Hperm Hties. unfold Policy.keeper. simpl.
  rewrite <-(Permutation_length Hperm).
  destruct (decide (length l1 ≤ 1)); [done|].
  assert (omap (Detector.get_file_info F fs) l1
            ≡ₚ omap (Detector.get_file_info F fs) l2) as Hinfos by by rewrite Hperm.
  destruct (omap (Detector.get_file_info F fs) l1) as [|f1 o1] eqn:H1,
           (omap (Detector.get_file_info F fs) l2) as [|f2 o2] eqn:H2.
  - done.
  - by apply Permutation_nil_l in Hinfos.
  - by apply Permutation_nil_r in Hinfos.
  - f_equal.
    destruct (max_by_elem r f1 o1) as [Hm1 Hmax1].
    destruct (max_by_elem r f2 o2) as [Hm2 Hmax2].
    pose proof Hm1 as Hm1'. rewrite Hinfos in Hm1'.
    pose proof Hm2 as Hm2'. rewrite <-Hinfos in Hm2'.
    specialize (Hmax1 _ Hm2'). specialize (Hmax2 _ Hm1').
    rewrite <-H1 in Hm1, Hm2'.
    apply elem_of_infos in Hm1 as [Hp1 Hi1], Hm2' as [Hp2 Hi2].
    assert (Detector.path (Detector.max_by r f1 o1)
            = Detector.path (Detector.max_by r f2 o2)) as Hpath.
    { eapply Hties; [done | done | done | done | lia]. }
    rewrite Hpath in Hi1. congruence.
Qed.

Lemma discarded_perm r h (l1 l2 : list string) :
  l1 ≡ₚ l2 →
  (∀ p q ip iq, p ∈ l1 → q ∈ l1 →
     Detector.get_file_info F fs p = Some ip →
     Detector.get_file_info F fs q = Some iq →
     r ip = r iq → p = q) →
  Policy.discarded F fs r (h, l1) ≡ₚ Policy.discarded F fs r (h, l2).
Proof.
  intros Hperm Hties. unfold Policy.discarded.
  rewrite <-(keeper_perm r h _ _ Hperm Hties).
  destruct (Policy.keeper F fs r (h, l1)); [|done].
  simpl. by rewrite Hperm.
Qed.

End order.

Section schedule.
Context (P : platform) (F : faults) (fs : gmap string file).

Local Abbreviation run := (Facts.run P F fs).
Local Abbreviation members := (Facts.members P F fs).
Local Abbreviation step := (Pool.step P F fs).

Lemma omap_by_key {A B} (f : string * A → option B) (k : string → option B)
    (d : list (string * A)) :
  (∀ g, g ∈ d → f g = k g.1) → omap f d = omap k d.*1.
Proof.
  induction d as [|g d IH]; intros Hf; [done|].
  rewrite fmap_cons. cbn [omap list_omap].
  change (list_omap _ _ ?f ?l) with (omap f l).
  rewrite (Hf g) by set_solver. rewrite IH by set_solver. done.
Qed.

Lemma concat_by_key {A B} (f : string * A → list B) (k : string → list B)
    (d : list (string * A)) :
  (∀ g, g ∈ d → f g ≡ₚ k g.1) → concat (f <$> d) ≡ₚ concat (k <$> d.*1).
Proof.
  induction d as [|g d IH]; intros Hf; [done|].
  rewrite !fmap_cons, !concat_cons.
  rewrite (Hf g) by set_solver. rewrite IH by set_solver. done.
Qed.

Lemma concat_fmap_perm {A B} (k : A → list B) (l1 l2 : list A) :
  l1 ≡ₚ l2 → concat (k <$> l1) ≡ₚ concat (k <$> l2).
Proof.
  induction 1 as [|x l1 l2 _ IH|x y l|l1 l2 l3 _ IH1 _ IH2];
    rewrite ?fmap_cons, ?concat_cons.
  - done.
  - by rewrite IH.
  - rewrite !app_assoc. f_equiv. apply Permutation_app_comm.
  - by etrans.
Qed.

Lemma keys_of_run n (order files : list string) :
  order ≡ₚ files →
  (Detector.duplicates (run n order)).*1 ≡ₚ (Detector.duplicates (run n files)).*1.
Proof.
  intros Hperm.
  apply NoDup_Permutation.
  - apply (index_of_run P F fs n order).
  - apply (index_of_run P F fs n files).
  - intros h. rewrite !list_elem_of_fmap. split.
    + intros ([h' l] & -> & [Hlen ->]%group_of_run). simpl.
      exists (h', members h' files). split; [done|].
      apply group_of_run. split; [|done].
      by rewrite <-(Permutation_length (members_perm P F fs h' _ _ Hperm)).
    + intros ([h' l] & -> & [Hlen ->]%group_of_run). simpl.
      exists (h', members h' order). split; [done|].
      apply group_of_run. split; [|done].
      by rewrite (Permutation_length (members_perm P F fs h' _ _ Hperm)).
Qed.

Lemma untied_members r files order h :
  Ties.untied P F fs r files → order ≡ₚ files →
  ∀ p q ip iq, p ∈ members h order → q ∈ members h order →
    Detector.get_file_info F fs p = Some ip →
    Detector.get_file_info F fs q = Some iq →
    r ip = r iq → p = q.
Proof.
  intros Hties Hperm p q ip iq [Hp Hhp]%elem_of_members [Hq Hhq]%elem_of_members.
  rewrite Hperm in Hp, Hq. by apply (Hties p q h ip iq).
Qed.

Lemma selection_of_order n files order strategy r inputs :
  Policy.rank strategy = Some r →
  Ties.untied P F fs r files →
  order ≡ₚ files →
  ∃ keep del,
    Detector.choose_files_to_keep F fs (run n order) strategy inputs
      = Some (keep, del, inputs) ∧
    keep ≡ₚ Detector.path <$>
              omap (λ h, Policy.keeper F fs r (h, members h files))
                   (Detector.duplicates (run n files)).*1 ∧
    del ≡ₚ concat ((λ h, Policy.discarded F fs r (h, members h files)) <$>
                     (Detector.duplicates (run n files)).*1).
Proof.
  intros Hrank Hties Hperm. eexists _, _. split.
  { unfold Detector.choose_files_to_keep.
    rewrite (choose_loop_rank F fs _ _ _ _ _ _ Hrank). rewrite !app_nil_l. done. }
  split.
  - rewrite (omap_by_key _ (λ h, Policy.keeper F fs r (h, members h files))).
    + by rewrite (keys_of_run n order files Hperm).
    + intros [h l] [Hlen ->]%group_of_run. simpl.
      apply keeper_perm; [by apply members_perm|].
      by apply untied_members with files.
  - rewrite (concat_by_key _ (λ h, Policy.discarded F fs r (h, members h files))).
    + apply concat_fmap_perm. by apply keys_of_run.
    + intros [h l] [Hlen ->]%group_of_run. simpl.
      apply discarded_perm; [by apply members_perm|].
      by apply untied_members with files.
Qed.

(** X11: when no two files that have the same fingerprint and can be
    examined have the same rank under a fixed strategy, the files kept and
    the files listed for deletion after a complete run of the pool are the
    same, up to their order in the two lists, whatever the schedule of the
    tasks was, statement by statement.  Files of which no fingerprint could
    be computed are in no group and are not compared. *)
Theorem untied_selection_is_schedule_independent
    n files strategy r inputs s1 s2 :
  Policy.rank strategy = Some r →
  Ties.untied P F fs r files →
  rtc step (Pool.start (Facts.fresh n) files) s1 → Pool.all_finished s1 →
  rtc step (Pool.start (Facts.fresh n) files) s2 → Pool.all_finished s2 →
  ∃ keep1 del1 keep2 del2,
    Detector.choose_files_to_keep F fs (Pool.shared s1) strategy inputs
      = Some (keep1, del1, inputs) ∧
    Detector.choose_files_to_keep F fs (Pool.shared s2) strategy inputs
      = Some (keep2, del2, inputs) ∧
    keep1 ≡ₚ keep2 ∧ del1 ≡ₚ del2.
Proof.
  intros Hrank Hties Hrun1 Hfin1 Hrun2 Hfin2.
  destruct (pool_final_order _ _ _ _ _ _ Hrun1 Hfin1) as (_ & o1 & Ho1 & ->).
  destruct (pool_final_order _ _ _ _ _ _ Hrun2 Hfin2) as (_ & o2 & Ho2 & ->).
  destruct (selection_of_order n files o1 strategy r inputs Hrank Hties Ho1)
    as (keep1 & del1 & Hc1 & Hk1 & Hd1).
  destruct (selection_of_order n files o2 strategy r inputs Hrank Hties Ho2)
    as (keep2 & del2 & Hc2 & Hk2 & Hd2).
  exists keep1, del1, keep2, del2. split_and!; [done | done | |].
  - by rewrite Hk1, Hk2.
  - by rewrite Hd1, Hd2.
Qed.

End schedule.

Section pool_progress.
Context (P : platform) (F : faults) (fs : gmap string file).

Local Abbreviation step := (Pool.step P F fs).
Local Abbreviation invariant := (PoolFacts.invariant P F fs).

Lemma remaining_insert (tasks : list (string * Pool.pc)) i p c c' :
  tasks !! i = Some (p, c) →
  Progress.remaining c' < Progress.remaining c →
  sum_list ((λ w, Progress.remaining w.2) <$> <[i := (p, c')]> tasks)
  < sum_list ((λ w, Progress.remaining w.2) <$> tasks).
Proof.
  revert i. induction tasks as [|w tasks IH]; intros [|i] Hi Hlt; try done.
  - injection Hi as ->. simpl. lia.
  - simpl in *. specialize (IH i Hi Hlt).
    change (list_fmap _ _ ?f ?l) with (f <$> l) in *. lia.
Qed.

Lemma unfinished_task (tasks : list (string * Pool.pc)) :
  ¬ Forall (λ w, w.2 = Pool.Finished) tasks →
  ∃ i p c, tasks !! i = Some (p, c) ∧ c ≠ Pool.Finished.
Proof.
  intros Hnot. apply not_Forall_Exists in Hnot; [|apply _].
  apply Exists_exists in Hnot as ([p c] & Hin & Hc).
  apply list_elem_of_lookup in Hin as [i Hi]. by exists i, p, c.
Qed.

Local Ltac advance lem :=
  eexists; split; [by eapply lem|];
  unfold Progress.measure; simpl; eapply remaining_insert; [done|]; simpl; lia.

Lemma pool_progress n files s :
  invariant n files s → ¬ Pool.all_finished s →
  ∃ s', step s s' ∧ Progress.measure s' < Progress.measure s.
Proof.
  intros [_ _ Halive (past & _ & Hlock)] Hnot.
  destruct (Pool.lock s) as [i|] eqn:Hl.
  - destruct Hlock as (_ & p & c & h & Hi & _ & Hin).
    destruct c as [|h'|h'|h'|h'|h'|h'| |count| | |]; simpl in Hin; try done.
    + destruct (Detector.image_hashes (Pool.shared s) !! h') as [first|] eqn:Hh.
      * advance Pool.step_test_found.
      * advance Pool.step_test_new.
    + destruct (ODict.mem (Detector.duplicates (Pool.shared s)) h') eqn:Hm.
      * advance Pool.step_group_present.
      * advance Pool.step_group_missing.
    + destruct Hin as (-> & Hd & [first Hfirst] & _). rewrite <-Hd in Hfirst.
      advance Pool.step_open.
    + advance Pool.step_append.
    + advance Pool.step_record.
    + advance Pool.step_load.
    + advance Pool.step_store.
    + advance Pool.step_release.
  - destruct Hlock as [_ Hfree].
    destruct (unfinished_task _ Hnot) as (i & p & c & Hi & Hc).
    destruct c as [|h'|h'|h'|h'|h'|h'| |count| | |];
      try (exfalso; apply (Hfree _ _ Hi); exact I).
    + destruct (Detector.usable_hash P F fs p) as [h|] eqn:Hp.
      * advance Pool.step_hash.
      * advance Pool.step_no_hash.
    + advance Pool.step_acquire.
    + done.
    + exfalso. by eapply Halive.
Qed.

Lemma pool_finishes_from n files : ∀ m s,
  Progress.measure s ≤ m → invariant n files s →
  ∃ s', rtc step s s' ∧ Pool.all_finished s'.
Proof.
  induction m as [|m IH]; intros s Hm Hinv.
  - destruct (decide (Pool.all_finished s)) as [|Hnot]; [by exists s|].
    destruct (pool_progress _ _ _ Hinv Hnot) as (s' & _ & ?). lia.
  - destruct (decide (Pool.all_finished s)) as [|Hnot]; [by exists s|].
    destruct (pool_progress _ _ _ Hinv Hnot) as (s1 & Hstep & Hlt).
    destruct (IH s1) as (s' & Hrun & Hfin); [lia | by eapply invariant_step |].
    exists s'. split; [by eapply rtc_l | done].
Qed.

(** X12: the pool cannot get stuck.  From every state that a run of the
    pool can reach, whatever the interleaving of the statements of the
    tasks so far, some task can take a step as long as a task has not
    returned, and the run can be continued to a state in which every task
    has returned. *)
Theorem pool_never_deadlocks n files s :
  rtc step (Pool.start (Facts.fresh n) files) s →
  (Pool.all_finished s ∨ ∃ s1, step s s1) ∧
  ∃ s', rtc step s s' ∧ Pool.all_finished s'.
Proof.
  intros Hrun. apply invariant_reachable in Hrun. split.
  - destruct (decide (Pool.all_finished s)) as [|Hnot]; [by left|].
    right. destruct (pool_progress _ _ _ Hrun Hnot) as (s1 & ? & _). by exists s1.
  - by eapply pool_finishes_from.
Qed.

End pool_progress.


Section dialogue.
Context (P : platform) (F : faults) (T : Manage.text_ops).

Local Abbreviation run := (Facts.run P F).
Local Abbreviation manage_duplicates := (Manage.manage_duplicates P F T).

Lemma read_choice_rest hi script choice rest :
  Manage.read_choice T hi script = Some (choice, rest) →
  rest ⊆ script ∧ (1 ≤ choice ≤ hi)%Z.
Proof.
  induction script as [|line script IH]; simpl; [done|].
  destruct (Manage.to_int T line) as [c|].
  - destruct (Z.leb_spec 1 c); simpl.
    + destruct (Z.leb_spec c hi).
      * intros [= <- <-]. split; [set_solver | lia].
      * intros [? ?]%IH. split; [set_solver | done].
    + intros [? ?]%IH. split; [set_solver | done].
  - intros [? ?]%IH. split; [set_solver | done].
Qed.

(** X13: nothing is deleted without the confirmation.  When no typed line
    is the word EVET, [manage_duplicates] ends, without an error of the
    file system and without a deletion run, and the disk is as it was,
    whatever else is typed. *)
Theorem nothing_is_deleted_without_confirmation fs d script :
  "EVET" ∉ script →
  ∃ st, manage_duplicates fs d script = Some (st, Some fs) ∧
        (∀ deleted failed total, st ≠ Manage.Completed deleted failed total) ∧
        (∀ e, st ≠ Manage.Raised e).
Proof.
  intros Hno. unfold Manage.manage_duplicates.
  destruct (Detector.duplicates d) as [|g groups]; [by eexists|].
  destruct (Manage.read_choice T 6 script) as [[choice script1]|] eqn:Hchoice;
    [|by eexists].
  apply read_choice_rest in Hchoice as [Hsub1 _].
  destruct (decide (choice = 6%Z)); [by eexists|].
  destruct (Detector.choose_files_to_keep _ _ _ _ _) as [[[keep del] inputs']|];
    [|by eexists].
  destruct del as [|file_path del]; [by eexists|].
  pose proof (subseteq_drop (length script1 - length inputs') script1) as Hsub2.
  destruct (drop (length script1 - length inputs') script1)
    as [|backup_choice script3]; [by eexists|].
  assert (∀ backup_dir script4, script4 ⊆ script →
    ∃ st,
      match script4 with
      | [] => Some (Manage.EndOfInput, Some fs)
      | final_confirm :: _ =>
          if decide (final_confirm = "EVET") then
            match Detector.delete_duplicate_files P F fs (file_path :: del) backup_dir with
            | None => None
            | Some (inl e) => Some (Manage.Raised e, None)
            | Some (inr r) =>
                match Manage.saved_space F (Detector.disk r) (Detector.deleted_files r) with
                | Some _ =>
                    Some (Manage.Completed (Detector.deleted_files r)
                            (Detector.failed_deletions r)
                            (Manage.preview_deletion F fs (file_path :: del)),
                          Some (Detector.disk r))
                | None => Some (Manage.Raised OSError, Some (Detector.disk r))
                end
            end
          else Some (Manage.NotConfirmed, Some fs)
      end = Some (st, Some fs) ∧
      (∀ deleted failed total, st ≠ Manage.Completed deleted failed total) ∧
      (∀ e, st ≠ Manage.Raised e)) as Hlast.
  { intros backup_dir [|final_confirm script5] Hsub; [by eexists|].
    destruct (decide (final_confirm = "EVET")) as [->|]; [|by eexists].
    exfalso. apply Hno, Hsub. set_solver. }
  destruct (decide (Manage.lower T backup_choice = "e")).
  - destruct script3 as [|line script4]; [by eexists|].
    apply Hlast. set_solver.
  - apply Hlast. set_solver.
Qed.

Lemma examinable_member_on_disk fs (l : list string) :
  omap (Detector.get_file_info F fs) l ≠ [] →
  ∃ k e, k ∈ l ∧ fs !! k = Some e.
Proof.
  destruct (omap (Detector.get_file_info F fs) l) as [|info infos] eqn:Hinfos; [done|].
  intros _.
  assert (info ∈ omap (Detector.get_file_info F fs) l) as Hin by (rewrite Hinfos; set_solver).
  apply elem_of_infos in Hin as [Hp Hinfo].
  destruct (get_file_info_on_disk _ _ _ _ Hinfo) as (e & f & He & _).
  by exists (Detector.path info), e.
Qed.

(** X14: the dialogue never removes every member of a group.  Whatever
    is typed and whatever fails, [manage_duplicates] ends; and when it
    leaves a disk, each group of the index of which some member can be
    examined has a member that has on that disk the entry it had.  If
    that member is no symbolic link, it is the image itself that is left,
    with its bytes and its time. *)
Theorem dialogue_leaves_a_copy_of_every_image fs n files script :
  ∃ st dk,
    manage_duplicates fs (run fs n files) script = Some (st, dk) ∧
    ∀ fs', dk = Some fs' →
      ∀ h l, (h, l) ∈ Detector.duplicates (run fs n files) →
        omap (Detector.get_file_info F fs) l ≠ [] →
        ∃ k e, k ∈ l ∧ fs !! k = Some e ∧ fs' !! k = Some e ∧
               (link e = None → Fs.stat fs' k = Some e).
Proof.
  assert (∀ st : Manage.status, ∃ st' dk,
    Some (st, Some fs) = Some (st', dk) ∧
    ∀ fs', dk = Some fs' →
      ∀ h l, (h, l) ∈ Detector.duplicates (run fs n files) →
        omap (Detector.get_file_info F fs) l ≠ [] →
        ∃ k e, k ∈ l ∧ fs !! k = Some e ∧ fs' !! k = Some e ∧
               (link e = None → Fs.stat fs' k = Some e)) as Hsame.
  { intros st. exists st, (Some fs). split; [done|].
    intros fs' [= <-] h l _ Hinfos.
    destruct (examinable_member_on_disk fs l Hinfos) as (k & e & ? & ?).
    exists k, e. split_and!; [done..|]. by apply stat_plain. }
  unfold Manage.manage_duplicates.
  destruct (Detector.duplicates (run fs n files)) as [|g groups] eqn:Hd;
    [apply Hsame|].
  destruct (Manage.read_choice T 6 script) as [[choice script1]|]; [|apply Hsame].
  destruct (decide (choice = 6%Z)); [apply Hsame|].
  destruct (Detector.choose_files_to_keep _ _ _ _ _)
    as [[[keep del] inputs']|] eqn:Hchoose; [|apply Hsame].
  destruct del as [|file_path del]; [apply Hsame|].
  destruct (drop (length script1 - length inputs') script1)
    as [|backup_choice script3]; [apply Hsame|].
  assert (∀ backup_dir script4,
    ∃ st dk,
      match script4 with
      | [] => Some (Manage.EndOfInput, Some fs)
      | final_confirm :: _ =>
          if decide (final_confirm = "EVET") then
            match Detector.delete_duplicate_files P F fs (file_path :: del) backup_dir with
            | None => None
            | Some (inl e) => Some (Manage.Raised e, None)
            | Some (inr r) =>
                match Manage.saved_space F (Detector.disk r) (Detector.deleted_files r) with
                | Some _ =>
                    Some (Manage.Completed (Detector.deleted_files r)
                            (Detector.failed_deletions r)
                            (Manage.preview_deletion F fs (file_path :: del)),
                          Some (Detector.disk r))
                | None => Some (Manage.Raised OSError, Some (Detector.disk r))
                end
            end
          else Some (Manage.NotConfirmed, Some fs)
      end = Some (st, dk) ∧
      ∀ fs', dk = Some fs' →
        ∀ h l, (h, l) ∈ g :: groups →
          omap (Detector.get_file_info F fs) l ≠ [] →
          ∃ k e, k ∈ l ∧ fs !! k = Some e ∧ fs' !! k = Some e ∧
               (link e = None → Fs.stat fs' k = Some e)) as Hlast.
  { intros backup_dir [|final_confirm script5]; [apply Hsame|].
    destruct (decide (final_confirm = "EVET")) as [_|_]; [|apply Hsame].
    destruct (delete_duplicate_files_returns P F fs (file_path :: del) backup_dir)
      as [[err|r] Hdel]; rewrite Hdel.
    { eexists _, _. split; [done|]. by intros fs' [=]. }
    assert (∀ h l, (h, l) ∈ g :: groups →
              omap (Detector.get_file_info F fs) l ≠ [] →
              ∃ k e, k ∈ l ∧ fs !! k = Some e ∧ Detector.disk r !! k = Some e ∧
                (link e = None → Fs.stat (Detector.disk r) k = Some e)) as Hkeep.
    { intros h l Hin Hinfos. rewrite <-Hd in Hin.
      unfold Detector.choose_files_to_keep in Hchoose.
      apply choose_loop_chosen in Hchoose as (keeps & deletes & _ & Hlist & Hc).
      simpl in Hlist. rewrite Hlist in Hdel.
      pose proof Hin as [Hlen Hl]%group_of_run.
      destruct (chosen_member_survives P F fs _ _ _ _ _ (h, l)
                  (separated_run P F fs n files) Hc Hdel Hin)
        as (k & e & f & ? & _ & ? & ? & _ & _ & Hplain);
        [simpl; by rewrite Hl | done |].
      exists k, e. split_and!; [done..|]. intros Hlink. by apply Hplain. }
    destruct (Manage.saved_space _ _ _); eexists _, _; (split; [done|]);
      by intros fs' [= <-]. }
  destruct (decide (Manage.lower T backup_choice = "e")).
  - destruct script3 as [|line script4]; [apply Hsame|]. apply Hlast.
  - apply Hlast.
Qed.

End dialogue.


Section sorting.
Context (P : platform) (F : faults) (fs : gmap string file) (source_dir : string).

Local Abbreviation check_all := (Sorting.check_all P F fs source_dir).
Local Abbreviation same_hash := (Sorting.same_hash P F fs source_dir).
Local Abbreviation with_hash := (Sorting.with_hash P F fs source_dir).
Local Abbreviation file_hash :=
  (λ f, Sorter.calculate_file_hash P F fs (Path.join source_dir f)).

Lemma check_all_snoc filenames f :
  check_all (filenames ++ [f]) =
  if decide (file_hash f = "") then check_all filenames
  else (ODict.append (check_all filenames).1 (file_hash f) f,
        if ODict.mem (check_all filenames).1 (file_hash f)
        then S (check_all filenames).2 else (check_all filenames).2).
Proof.
  unfold Sorting.check_all. rewrite foldl_snoc.
  unfold Sorter.check_duplicate. simpl.
  destruct (decide (file_hash f = "")); [|done].
  by destruct (foldl _ _ _).
Qed.

Lemma surplus_append (d : list (string * list string)) k (x : string) :
  (∀ g, g ∈ d → g.2 ≠ []) →
  sum_list ((λ g, length g.2 - 1) <$> ODict.append d k x)
  = sum_list ((λ g, length g.2 - 1) <$> d) + (if ODict.mem d k then 1 else 0) ∧
  length (ODict.append d k x) = length d + (if ODict.mem d k then 0 else 1) ∧
  (∀ g, g ∈ ODict.append d k x → g.2 ≠ []).
Proof.
  induction d as [|[k' l] d IH]; intros Hne.
  - simpl. split_and!; [done | done |].
    intros g ->%list_elem_of_singleton. done.
  - unfold ODict.mem in *. simpl.
    destruct (decide (k' = k)) as [->|Hk].
    + simpl.
      assert (l ≠ []) by (apply (Hne (k, l)); set_solver).
      split_and!.
      * rewrite length_app. simpl. destruct l; [done|]. simpl. lia.
      * lia.
      * intros g [->|Hg]%elem_of_cons; [simpl; by destruct l | apply Hne; set_solver].
    + destruct IH as (IH1 & IH2 & IH3); [intros g Hg; apply Hne; set_solver|].
      simpl. change (list_fmap _ _ ?f ?u) with (f <$> u). rewrite IH1, IH2.
      split_and!; [lia | lia |].
      intros g [->|Hg]%elem_of_cons; [apply (Hne (k', l)); set_solver | by apply IH3].
Qed.

Lemma duplicate_count_surplus (d : list (string * list string)) :
  Sorting.duplicate_count d = sum_list ((λ g, length g.2 - 1) <$> d).
Proof.
  unfold Sorting.duplicate_count.
  induction d as [|g d IH]; [done|].
  rewrite filter_cons. destruct (decide (1 < length g.2)).
  - rewrite !fmap_cons. simpl. by rewrite IH.
  - rewrite fmap_cons. simpl. rewrite IH. lia.
Qed.

Lemma with_hash_snoc filenames f :
  with_hash (filenames ++ [f]) =
  if decide (file_hash f = "") then with_hash filenames else with_hash filenames ++ [f].
Proof.
  unfold Sorting.with_hash. rewrite filter_app, filter_cons, filter_nil.
  destruct (decide (file_hash f = "")) as [Hf|Hf].
  - rewrite decide_False by (intros ?; done). by rewrite app_nil_r.
  - by rewrite decide_True.
Qed.

Lemma same_hash_snoc h filenames f :
  same_hash h (filenames ++ [f]) =
  if decide (file_hash f = h) then same_hash h filenames ++ [f]
  else same_hash h filenames.
Proof.
  unfold Sorting.same_hash. rewrite filter_app, filter_cons, filter_nil.
  destruct (decide (file_hash f = h)); [done | by rewrite app_nil_r].
Qed.

Lemma check_all_counts filenames :
  (check_all filenames).2
    = sum_list ((λ g, length g.2 - 1) <$> (check_all filenames).1) ∧
  (check_all filenames).2 + length (check_all filenames).1
    = length (with_hash filenames) ∧
  (∀ g, g ∈ (check_all filenames).1 → g.2 ≠ []).
Proof.
  induction filenames as [|f filenames IH] using rev_ind.
  - split_and!; [done | done | by intros g ?%elem_of_nil].
  - destruct IH as (IH1 & IH2 & IH3).
    rewrite check_all_snoc, with_hash_snoc.
    destruct (decide (file_hash f = "")); [done|].
    destruct (surplus_append _ (file_hash f) f IH3) as (H1 & H2 & H3).
    simpl. rewrite H1, H2, length_app. simpl.
    destruct (ODict.mem _ _); split_and!; try done; lia.
Qed.

Lemma check_all_index filenames :
  NoDup (check_all filenames).1.*1 ∧
  ∀ h, ODict.get (check_all filenames).1 h =
       if decide (h ≠ "" ∧ same_hash h filenames ≠ [])
       then Some (same_hash h filenames) else None.
Proof.
  induction filenames as [|f filenames [IH1 IH2]] using rev_ind.
  - split; [constructor|]. intros h. simpl.
    rewrite decide_False; [done|]. by intros [_ ?].
  - rewrite check_all_snoc.
    destruct (decide (file_hash f = "")) as [Hf|Hf].
    + split; [done|]. intros h. rewrite IH2, same_hash_snoc.
      destruct (decide (file_hash f = h)) as [<-|]; [|done].
      rewrite !decide_False; [done | |]; by intros [? _].
    + simpl. split; [by apply keys_append_NoDup|].
      intros h. rewrite same_hash_snoc.
      destruct (decide (file_hash f = h)) as [<-|Hne].
      * rewrite get_append_eq, IH2.
        rewrite (decide_True (P := _ ∧ _ ++ _ ≠ []));
          [|split; [done | by destruct (same_hash _ _)]].
        destruct (decide _) as [_|Hnot]; [done|]. simpl.
        destruct (same_hash (file_hash f) filenames); [done|].
        exfalso. by apply Hnot.
      * by rewrite get_append_ne, IH2.
Qed.

(** X15: the two counts of duplicates of the sorter agree.  After the
    files have gone through the duplicate check in any order,
    [stats['dublicate']] is the number that [print_detailed_results]
    computes from [self.duplicates], and it is the number of files with
    a hash less the number of entries of [self.duplicates]: all but one
    file of every hash are counted. *)
Theorem sorter_counts_agree filenames :
  (check_all filenames).2 = Sorting.duplicate_count (check_all filenames).1 ∧
  (check_all filenames).2 + length (check_all filenames).1
    = length (with_hash filenames).
Proof.
  destruct (check_all_counts filenames) as (H1 & H2 & _).
  by rewrite duplicate_count_surplus.
Qed.

(** X16: what the report of the sorter lists as duplicates.  The entries
    of [duplicates_found] have distinct hashes, and a list of files is
    reported under a hash exactly when the hash is not the empty string,
    at least two of the checked files have it, and the list holds the
    files that have it, in the order in which they were checked. *)
Theorem sorter_report_lists_shared_hashes filenames :
  NoDup (Sorting.duplicates_found (check_all filenames).1).*1 ∧
  ∀ h l,
    (h, l) ∈ Sorting.duplicates_found (check_all filenames).1 ↔
    h ≠ "" ∧ 2 ≤ length l ∧ l = same_hash h filenames.
Proof.
  destruct (check_all_index filenames) as [Hnd Hget]. split.
  - unfold Sorting.duplicates_found.
    eapply sublist_NoDup; [exact Hnd|]. apply fmap_sublist, sublist_filter.
  - intros h l. unfold Sorting.duplicates_found.
    rewrite list_elem_of_filter, (elem_of_get _ _ _ Hnd), Hget. simpl.
    destruct (decide _) as [[Hh Hl]|Hnot].
    + split; [intros [? [= <-]]; split_and!; [done | lia | done]|].
      intros (_ & ? & ->). split; [lia | done].
    + split; [by intros [_ ?]|]. intros (Hh & Hlen & ->).
      exfalso. apply Hnot. split; [done|].
      intros Heq. rewrite Heq in Hlen. simpl in Hlen. lia.
Qed.

End sorting.

Section walk.

Lemma has_sep_start file : Walk.has_sep file = false → Path.starts_with_sep file = false.
Proof.
  destruct file as [|c file]; simpl; [done|].
  by intros [? _]%orb_false_elim.
Qed.

Lemma split_last_sep_plain file : ∀ head cur,
  Walk.has_sep file = false →
  Path.split_last_sep head cur file = (head, cur +:+ file).
Proof.
  induction file as [|c file IH]; intros head cur; simpl.
  - intros _. by rewrite string_app_nil_r.
  - intros [Hc Hfile]%orb_false_elim. apply bool_decide_eq_false in Hc.
    rewrite decide_False by done. rewrite IH by done.
    by rewrite string_app_assoc.
Qed.

Lemma split_last_sep_dir s : ∀ head cur file,
  Walk.has_sep file = false →
  Path.split_last_sep head cur (s +:+ "/" +:+ file)
  = (head +:+ cur +:+ s +:+ "/", file).
Proof.
  induction s as [|c s IH]; intros head cur file Hfile.
  - rewrite string_app_nil_l, string_app_cons, string_app_nil_l. simpl.
    by rewrite split_last_sep_plain.
  - rewrite string_app_cons. simpl.
    destruct (decide (c = "/"%char)) as [->|Hc].
    + rewrite IH by done. by rewrite !string_app_assoc.
    + rewrite IH by done. by rewrite !string_app_assoc.
Qed.

Lemma join_dir_prefix root file :
  Walk.has_sep file = false → Path.join root file = Walk.dir_prefix root +:+ file.
Proof.
  intros Hfile. unfold Path.join, Walk.dir_prefix.
  rewrite (has_sep_start _ Hfile).
  destruct (bool_decide (root = "") || Path.endswith root "/"); [done|].
  by rewrite string_app_assoc.
Qed.

Lemma dir_prefix_shape root :
  Walk.dir_prefix root = "" ∨ ∃ s, Walk.dir_prefix root = s +:+ "/".
Proof.
  unfold Walk.dir_prefix.
  destruct (bool_decide (root = "")) eqn:Hempty; simpl.
  - left. by apply bool_decide_eq_true in Hempty.
  - right. destruct (Path.endswith root "/") eqn:Hends.
    + by apply endswith_spec in Hends.
    + by exists root.
Qed.

Lemma split_join root file :
  Walk.has_sep file = false →
  Path.split_last_sep "" "" (Path.join root file) = (Walk.dir_prefix root, file).
Proof.
  intros Hfile. rewrite (join_dir_prefix _ _ Hfile).
  destruct (dir_prefix_shape root) as [->|[s ->]].
  - by rewrite string_app_nil_l, split_last_sep_plain.
  - rewrite string_app_assoc. by rewrite split_last_sep_dir.
Qed.

Lemma dir_prefix_inj r1 r2 :
  Walk.dir_prefix r1 = Walk.dir_prefix r2 →
  r1 = r2 ∨ r1 = r2 +:+ "/" ∨ r2 = r1 +:+ "/".
Proof.
  unfold Walk.dir_prefix.
  destruct (bool_decide (r1 = "") || Path.endswith r1 "/"),
           (bool_decide (r2 = "") || Path.endswith r2 "/"); intros Heq.
  - by left.
  - right. by left.
  - right. by right.
  - left. by apply string_app_inj_r in Heq.
Qed.

Lemma join_inj walk root1 dirs1 files1 file1 root2 dirs2 files2 file2 :
  Walk.listing walk →
  (root1, dirs1, files1) ∈ walk → file1 ∈ files1 →
  (root2, dirs2, files2) ∈ walk → file2 ∈ files2 →
  Path.join root1 file1 = Path.join root2 file2 →
  root1 = root2 ∧ file1 = file2.
Proof.
  intros [_ Hplain _ Hnames] Hin1 Hf1 Hin2 Hf2 Heq.
  pose proof (split_join root1 file1 (Hnames _ _ _ _ Hin1 Hf1)) as H1.
  pose proof (split_join root2 file2 (Hnames _ _ _ _ Hin2 Hf2)) as H2.
  rewrite Heq, H2 in H1. injection H1 as Hdir ->. split; [|done].
  assert (root1 ∈ walk.*1.*1) as Hr1.
  { apply list_elem_of_fmap. exists (root1, dirs1). split; [done|].
    apply list_elem_of_fmap. by exists (root1, dirs1, files1). }
  assert (root2 ∈ walk.*1.*1) as Hr2.
  { apply list_elem_of_fmap. exists (root2, dirs2). split; [done|].
    apply list_elem_of_fmap. by exists (root2, dirs2, files2). }
  symmetry in Hdir.
  destruct (dir_prefix_inj _ _ Hdir) as [?|[?|?]]; [done | |].
  - by destruct (Hplain root1 root2).
  - by destruct (Hplain root2 root1).
Qed.

Lemma listing_tail t walk : Walk.listing (t :: walk) → Walk.listing walk.
Proof.
  intros [Hroots Hplain Hdistinct Hnames]. split.
  - rewrite !fmap_cons in Hroots. by apply NoDup_cons in Hroots as [_ ?].
  - intros r1 r2 Hr1 Hr2. apply Hplain; rewrite !fmap_cons; by apply elem_of_cons; right.
  - intros root dirs files Hin. apply (Hdistinct root dirs). set_solver.
  - intros root dirs files file Hin. apply (Hnames root dirs). set_solver.
Qed.

(** X2: under the guarantees of [os.walk], the scanner returns no path
    twice, and the last component of every path it returns is the listed
    name, so that the name under which a file is backed up is the name
    it has in its directory. *)
Theorem scanner_returns_each_file_once walk :
  Walk.listing walk →
  NoDup (Detector.find_image_files walk) ∧
  ∀ root dirs files file,
    (root, dirs, files) ∈ walk → file ∈ files →
    Path.basename (Path.join root file) = file.
Proof.
  intros Hwalk. split.
  - induction walk as [|[[root dirs] files] walk IH]; [constructor|].
    unfold Detector.find_image_files. simpl.
    change (flat_map _ walk) with (Detector.find_image_files walk).
    apply NoDup_app. split_and!.
    + apply NoDup_fmap_2_strong.
      * intros f1 f2 [_ Hf1]%list_elem_of_filter [_ Hf2]%list_elem_of_filter Heq.
        by destruct (join_inj _ root dirs files f1 root dirs files f2 Hwalk)
          as [_ ?]; [set_solver | done | set_solver | done | done |].
      * apply NoDup_filter. destruct Hwalk as [_ _ Hdistinct _].
        apply (Hdistinct root dirs). set_solver.
    + intros p (f1 & -> & [_ Hf1]%list_elem_of_filter)%list_elem_of_fmap
        (root2 & dirs2 & files2 & f2 & Hin2 & Hf2 & _ & Heq)%elem_of_find_image_files.
      destruct (join_inj _ root dirs files f1 root2 dirs2 files2 f2 Hwalk)
        as [<- _]; [set_solver | done | set_solver | done | done |].
      destruct Hwalk as [Hroots _ _ _]. rewrite !fmap_cons in Hroots.
      apply NoDup_cons in Hroots as [Hnot _]. apply Hnot. simpl.
      apply list_elem_of_fmap. exists (root, dirs2). split; [done|].
      apply list_elem_of_fmap. by exists (root, dirs2, files2).
    + apply IH. by eapply listing_tail.
  - intros root dirs files file Hin Hfile. unfold Path.basename.
    destruct Hwalk as [_ _ _ Hnames].
    by rewrite (split_join _ _ (Hnames _ _ _ _ Hin Hfile)).
Qed.

End walk.


Section more_examples.
Import Demo.

Local Ltac members H :=
  repeat (apply elem_of_cons in H as [H|H]);
    [..|by apply elem_of_nil in H].

Lemma every_listed_file_is_attempted_witness :
  ∃ r,
    Detector.delete_duplicate_files plain no_faults disk
      ["./a.jpg"; "./missing.jpg"; "./d.jpg"] None = Some (inr r) ∧
    Detector.deleted_files r ++ (Detector.failed_deletions r).*1
      ≡ₚ ["./a.jpg"; "./missing.jpg"; "./d.jpg"] ∧
    Detector.deleted_files r `sublist_of` ["./a.jpg"; "./missing.jpg"; "./d.jpg"] ∧
    (Detector.failed_deletions r).*1
      `sublist_of` ["./a.jpg"; "./missing.jpg"; "./d.jpg"].
Proof.
  destruct (delete_duplicate_files_returns plain no_faults disk
              ["./a.jpg"; "./missing.jpg"; "./d.jpg"] None) as [[e|r] Hr].
  { vm_compute in Hr. discriminate. }
  exists r. split; [exact Hr|].
  exact (every_listed_file_is_attempted plain no_faults disk _ None r Hr).
Defined.

Lemma unlisted_files_are_untouched_witness :
  ∃ r,
    Detector.delete_duplicate_files plain no_faults linked_disk
      ["./d.jpg"] (Some "./backup") = Some (inr r) ∧
    ("./link.jpg" ∉ ["./d.jpg"]) ∧
    linked_disk !! "./link.jpg" = Some (symlink "./a.jpg") ∧
    Detector.disk r !! "./link.jpg" = Some (symlink "./a.jpg") ∧
    Fs.stat linked_disk "./link.jpg" = Some (regular [x01; x02] 10) ∧
    Fs.stat (Detector.disk r) "./link.jpg" = Some (regular [x01; x02] 10).
Proof.
  destruct (delete_duplicate_files_returns plain no_faults linked_disk
              ["./d.jpg"] (Some "./backup")) as [[e|r] Hr].
  { vm_compute in Hr. discriminate. }
  assert ("./link.jpg" ∉ ["./d.jpg"]) as Hnot.
  { intros Hin. members Hin; discriminate. }
  assert (linked_disk !! "./link.jpg" = Some (symlink "./a.jpg")) as Hl
    by (vm_compute; reflexivity).
  assert (Fs.stat linked_disk "./link.jpg" = Some (regular [x01; x02] 10)) as Hf
    by (vm_compute; reflexivity).
  assert (∀ x, x ∈ Fs.trail Fs.symloop_max linked_disk "./link.jpg" →
               x ∉ ["./d.jpg"]) as Htrail.
  { assert (Fs.trail Fs.symloop_max linked_disk "./link.jpg"
            = ["./link.jpg"; "./a.jpg"]) as -> by (vm_compute; reflexivity).
    intros x Hx Hin. members Hx; members Hin; subst x; discriminate. }
  destruct (unlisted_files_are_untouched plain no_faults linked_disk _ _ r _ _
              Hr Hnot Hl) as [Hentry Hreads].
  exists r. split_and!; [exact Hr | exact Hnot | exact Hl | exact Hentry | exact Hf |].
  exact (Hreads _ Hf Htrail).
Defined.

Lemma backup_loses_no_content_witness :
  "./backup" ≠ "" ∧
  ∃ r,
    Detector.delete_duplicate_files plain no_faults linked_disk
      ["./a.jpg"; "./link.jpg"] (Some "./backup") = Some (inr r) ∧
    Fs.stat linked_disk "./a.jpg" = Some (regular [x01; x02] 10) ∧
    linked_disk !! "./a.jpg" = Some (regular [x01; x02] 10) ∧
    (∃ q', Fs.stat (Detector.disk r) q' = Some (regular [x01; x02] 10)) ∧
    (∃ q', Detector.disk r !! q' = Some (regular [x01; x02] 10)).
Proof.
  assert ("./backup" ≠ "") as Hdir by discriminate.
  split; [exact Hdir|].
  destruct (delete_duplicate_files_returns plain no_faults linked_disk
              ["./a.jpg"; "./link.jpg"] (Some "./backup")) as [[e|r] Hr].
  { vm_compute in Hr. discriminate. }
  assert (Fs.stat linked_disk "./a.jpg" = Some (regular [x01; x02] 10)) as Hf
    by (vm_compute; reflexivity).
  assert (linked_disk !! "./a.jpg" = Some (regular [x01; x02] 10)) as Ha
    by (vm_compute; reflexivity).
  destruct (backup_loses_no_content plain no_faults linked_disk _ _ r
              "./a.jpg" (regular [x01; x02] 10) Hdir Hr) as [Hreads Hentry].
  exists r. split_and!; [exact Hr | exact Hf | exact Ha | exact (Hreads Hf) |].
  exact (Hentry Ha eq_refl).
Defined.

(** A symbolic link that is deleted is backed up as a copy of the file
    that it names: the link is gone, and the backup has the bytes and the
    time of the file. *)
Example listed_link_is_backed_up_as_a_file :
  match Detector.delete_duplicate_files plain no_faults linked_disk
          ["./link.jpg"] (Some "./backup") with
  | Some (inr r) =>
      Detector.deleted_files r = ["./link.jpg"] ∧
      Detector.disk r !! "./link.jpg" = None ∧
      Detector.disk r !! "./backup/link.jpg" = Some (regular [x01; x02] 10) ∧
      Detector.disk r !! "./a.jpg" = Some (regular [x01; x02] 10)
  | _ => False
  end.
Proof. vm_compute. split_and!; reflexivity. Qed.

(** Without a backup, the deletion of the file that a symbolic link names
    leaves the link, which then leads nowhere. *)
Example link_to_deleted_file_dangles :
  match Detector.delete_duplicate_files plain no_faults linked_disk
          ["./a.jpg"] None with
  | Some (inr r) =>
      Detector.deleted_files r = ["./a.jpg"] ∧
      Detector.disk r !! "./link.jpg" = Some (symlink "./a.jpg") ∧
      Fs.stat (Detector.disk r) "./link.jpg" = None
  | _ => False
  end.
Proof. vm_compute. split_and!; reflexivity. Qed.

(** When a symbolic link and the file that it names are the two members
    of a group, and the link is the one that is kept, the image is kept
    under no name: the link stays and leads nowhere. *)
Example kept_link_can_dangle :
  match Detector.choose_files_to_keep no_faults linked_disk
          (Facts.run plain no_faults linked_disk 2 ["./link.jpg"; "./a.jpg"])
          "newest" [] with
  | Some (keep, del, _) =>
      keep = ["./link.jpg"] ∧ del = ["./a.jpg"] ∧
      match Detector.delete_duplicate_files plain no_faults linked_disk del None with
      | Some (inr r) =>
          Detector.disk r !! "./link.jpg" = Some (symlink "./a.jpg") ∧
          Fs.stat (Detector.disk r) "./link.jpg" = None ∧
          Fs.stat (Detector.disk r) "./a.jpg" = None
      | _ => False
      end
  | None => False
  end.
Proof. vm_compute. split_and!; reflexivity. Qed.

Lemma plain_deletion_removes_exactly_witness :
  ∃ r,
    Detector.delete_duplicate_files plain no_faults linked_disk
      ["./a.jpg"; "./missing.jpg"] None = Some (inr r) ∧
    (∀ q, Detector.disk r !! q =
          if decide (q ∈ Detector.deleted_files r) then None
          else linked_disk !! q) ∧
    (∀ q, Fs.stat (Detector.disk r) q =
          if decide (Exists (λ x, x ∈ Detector.deleted_files r)
                            (Fs.trail Fs.symloop_max linked_disk q))
          then None else Fs.stat linked_disk q).
Proof.
  destruct (delete_duplicate_files_returns plain no_faults linked_disk
              ["./a.jpg"; "./missing.jpg"] None) as [[e|r] Hr].
  { vm_compute in Hr. discriminate. }
  exists r. split; [exact Hr|].
  exact (plain_deletion_removes_exactly plain no_faults linked_disk _ r Hr).
Defined.

Lemma deletion_list_spares_keepers_witness :
  ∃ keep del,
    Detector.choose_files_to_keep no_faults disk
      (Facts.run plain no_faults disk 4
         ["./a.jpg"; "./b.jpg"; "./c.jpg"; "./d.jpg"])
      "manual" [None; Some 7%Z; Some 3%Z] = Some (keep, del, []) ∧
    (∀ p, p ∈ del →
       (p ∉ keep) ∧
       ∃ h l k,
         (h, l) ∈ Detector.duplicates
                    (Facts.run plain no_faults disk 4
                       ["./a.jpg"; "./b.jpg"; "./c.jpg"; "./d.jpg"]) ∧
         p ∈ l ∧ k ∈ l ∧ k ∈ keep ∧ k ≠ p) ∧
    (∀ k, k ∈ keep →
       ∃ h l,
         (h, l) ∈ Detector.duplicates
                    (Facts.run plain no_faults disk 4
                       ["./a.jpg"; "./b.jpg"; "./c.jpg"; "./d.jpg"]) ∧
         k ∈ l ∧ is_Some (Detector.get_file_info no_faults disk k)).
Proof.
  destruct (Detector.choose_files_to_keep no_faults disk
      (Facts.run plain no_faults disk 4
         ["./a.jpg"; "./b.jpg"; "./c.jpg"; "./d.jpg"])
      "manual" [None; Some 7%Z; Some 3%Z]) as [[[keep del] inputs']|] eqn:Hchoose;
    [|vm_compute in Hchoose; discriminate].
  assert (inputs' = []) as -> by (vm_compute in Hchoose; congruence).
  exists keep, del. split; [reflexivity|].
  exact (deletion_list_spares_keepers plain no_faults disk _ _ _ _ _ _ _ Hchoose).
Defined.

Lemma a_copy_of_every_group_survives_witness :
  ∃ keep del r,
    Detector.choose_files_to_keep no_faults disk
      (Facts.run plain no_faults disk 3 ["./a.jpg"; "./b.jpg"; "./d.jpg"])
      "oldest" [] = Some (keep, del, []) ∧
    Detector.delete_duplicate_files plain no_faults disk del (Some "./backup")
      = Some (inr r) ∧
    ("12", ["./a.jpg"; "./b.jpg"; "./d.jpg"])
      ∈ Detector.duplicates
          (Facts.run plain no_faults disk 3 ["./a.jpg"; "./b.jpg"; "./d.jpg"]) ∧
    omap (Detector.get_file_info no_faults disk)
         ["./a.jpg"; "./b.jpg"; "./d.jpg"] ≠ [] ∧
    ∃ k e f, k ∈ ["./a.jpg"; "./b.jpg"; "./d.jpg"] ∧ k ∈ keep ∧
      disk !! k = Some e ∧ Detector.disk r !! k = Some e ∧
      Fs.stat disk k = Some f ∧
      ((∀ x, x ∈ Fs.trail Fs.symloop_max disk k → x ∉ del) →
       Fs.stat (Detector.disk r) k = Some f) ∧
      (link e = None → f = e ∧ Fs.stat (Detector.disk r) k = Some e).
Proof.
  destruct (Detector.choose_files_to_keep no_faults disk
      (Facts.run plain no_faults disk 3 ["./a.jpg"; "./b.jpg"; "./d.jpg"])
      "oldest" []) as [[[keep del] inputs']|] eqn:Hchoose;
    [|vm_compute in Hchoose; discriminate].
  assert (inputs' = []) as -> by (vm_compute in Hchoose; congruence).
  destruct (delete_duplicate_files_returns plain no_faults disk del
              (Some "./backup")) as [[e|r] Hr].
  { exfalso. assert (del = ["./b.jpg"; "./d.jpg"]) as ->
      by (vm_compute in Hchoose; congruence).
    vm_compute in Hr. discriminate. }
  assert (("12", ["./a.jpg"; "./b.jpg"; "./d.jpg"])
      ∈ Detector.duplicates
          (Facts.run plain no_faults disk 3 ["./a.jpg"; "./b.jpg"; "./d.jpg"]))
    as Hin by (vm_compute; left).
  assert (omap (Detector.get_file_info no_faults disk)
            ["./a.jpg"; "./b.jpg"; "./d.jpg"] ≠ []) as Hinfos
    by (vm_compute; discriminate).
  exists keep, del, r. split_and!; [reflexivity | exact Hr | exact Hin | exact Hinfos |].
  exact (a_copy_of_every_group_survives plain no_faults disk _ _ _ _ _ _ _ _ _ _ _
           Hchoose Hr Hin Hinfos).
Defined.

Lemma one_file_per_fingerprint_is_left_witness :
  NoDup ["./a.jpg"; "./b.jpg"; "./c.jpg"; "./d.jpg"] ∧
  (∀ p, p ∈ ["./a.jpg"; "./b.jpg"; "./c.jpg"; "./d.jpg"] →
        is_Some (Detector.usable_hash plain no_faults disk p) →
        is_Some (Detector.get_file_info no_faults disk p)) ∧
  ∃ keep del,
    Detector.choose_files_to_keep no_faults disk
      (Facts.run plain no_faults disk 4
         ["./a.jpg"; "./b.jpg"; "./c.jpg"; "./d.jpg"])
      "largest" [] = Some (keep, del, []) ∧
    length keep
      = length (Detector.duplicates
                  (Facts.run plain no_faults disk 4
                     ["./a.jpg"; "./b.jpg"; "./c.jpg"; "./d.jpg"])) ∧
    length del
      + size (Detector.image_hashes
                (Facts.run plain no_faults disk 4
                   ["./a.jpg"; "./b.jpg"; "./c.jpg"; "./d.jpg"]))
    = Detector.processed_count
        (Facts.run plain no_faults disk 4
           ["./a.jpg"; "./b.jpg"; "./c.jpg"; "./d.jpg"]).
Proof.
  assert (NoDup ["./a.jpg"; "./b.jpg"; "./c.jpg"; "./d.jpg"]) as Hnd
    by (apply (bool_decide_unpack _); vm_compute; exact I).
  assert (∀ p, p ∈ ["./a.jpg"; "./b.jpg"; "./c.jpg"; "./d.jpg"] →
        is_Some (Detector.usable_hash plain no_faults disk p) →
        is_Some (Detector.get_file_info no_faults disk p)) as Hinfo.
  { intros p Hp _. members Hp; subst p; vm_compute; by eexists. }
  split_and!; [exact Hnd | exact Hinfo |].
  destruct (Detector.choose_files_to_keep no_faults disk
      (Facts.run plain no_faults disk 4
         ["./a.jpg"; "./b.jpg"; "./c.jpg"; "./d.jpg"])
      "largest" []) as [[[keep del] inputs']|] eqn:Hchoose;
    [|vm_compute in Hchoose; discriminate].
  assert (inputs' = []) as -> by (vm_compute in Hchoose; congruence).
  exists keep, del. split; [reflexivity|].
  exact (one_file_per_fingerprint_is_left plain no_faults disk _ _ _ _ _ _ _
           Hnd Hinfo Hchoose).
Defined.

Lemma untied_selection_is_schedule_independent_witness :
  Policy.rank "newest" = Some Detector.mtime ∧
  Ties.untied plain no_faults disk Detector.mtime ["./a.jpg"; "./b.jpg"] ∧
  ∃ s1,
    rtc (Pool.step plain no_faults disk)
        (Pool.start (Facts.fresh 2) ["./a.jpg"; "./b.jpg"]) s1 ∧
    Pool.all_finished s1 ∧
    rtc (Pool.step plain no_faults disk)
        (Pool.start (Facts.fresh 2) ["./a.jpg"; "./b.jpg"]) late_first ∧
    Pool.all_finished late_first ∧
    ∃ keep1 del1 keep2 del2,
      Detector.choose_files_to_keep no_faults disk (Pool.shared s1) "newest" []
        = Some (keep1, del1, []) ∧
      Detector.choose_files_to_keep no_faults disk (Pool.shared late_first)
        "newest" [] = Some (keep2, del2, []) ∧
      keep1 ≡ₚ keep2 ∧ del1 ≡ₚ del2.
Proof.
  assert (Policy.rank "newest" = Some Detector.mtime) as Hrank by reflexivity.
  assert (Ties.untied plain no_faults disk Detector.mtime ["./a.jpg"; "./b.jpg"])
    as Hties.
  { intros p q h ip iq Hp Hq _ _ Hip Hiq Hr.
    members Hp; members Hq; subst p q; try reflexivity;
      vm_compute in Hip, Hiq; injection Hip as <-; injection Hiq as <-;
      vm_compute in Hr; discriminate. }
  split_and!; [exact Hrank | exact Hties |].
  destruct (pool_can_finish plain no_faults disk ["./a.jpg"; "./b.jpg"]
              (Facts.fresh 2) []) as (s1 & Hrun1 & Hfin1); [constructor|].
  assert (Pool.all_finished late_first) as Hfin2 by repeat constructor.
  exists s1. split_and!; [exact Hrun1 | exact Hfin1 | exact late_first_run | exact Hfin2 |].
  exact (untied_selection_is_schedule_independent plain no_faults disk
           2 _ "newest" _ [] s1 late_first Hrank Hties Hrun1 Hfin1
           late_first_run Hfin2).
Defined.

Lemma pool_never_deadlocks_witness :
  ∃ s,
    rtc (Pool.step plain no_faults disk)
        (Pool.start (Facts.fresh 2) ["./a.jpg"; "./b.jpg"]) s ∧
    Pool.lock s = Some 1 ∧
    (Pool.all_finished s ∨ ∃ s1, Pool.step plain no_faults disk s s1) ∧
    ∃ s', rtc (Pool.step plain no_faults disk) s s' ∧ Pool.all_finished s'.
Proof.
  assert (∃ s,
    rtc (Pool.step plain no_faults disk)
        (Pool.start (Facts.fresh 2) ["./a.jpg"; "./b.jpg"]) s ∧
    Pool.lock s = Some 1) as (s & Hrun & Hlock).
  { eexists. split.
    - eapply rtc_l.
      { apply (Pool.step_hash _ _ _ _ 0 "./a.jpg" "12"); vm_compute; reflexivity. }
      eapply rtc_l.
      { apply (Pool.step_hash _ _ _ _ 1 "./b.jpg" "12"); vm_compute; reflexivity. }
      eapply rtc_l.
      { apply (Pool.step_acquire _ _ _ _ 1 "./b.jpg" "12"); vm_compute; reflexivity. }
      eapply rtc_l.
      { apply (Pool.step_test_new _ _ _ _ 1 "./b.jpg" "12"); vm_compute; reflexivity. }
      apply rtc_refl.
    - reflexivity. }
  exists s. split_and!; [exact Hrun | exact Hlock | |];
    apply (pool_never_deadlocks plain no_faults disk 2 _ s Hrun).
Defined.

Lemma nothing_is_deleted_without_confirmation_witness :
  ("EVET" ∉ ["9"; "1"; "h"; "evet"]) ∧
  ∃ st,
    Manage.manage_duplicates plain no_faults Console.ascii_ops disk
      (Facts.run plain no_faults disk 3 ["./a.jpg"; "./b.jpg"; "./d.jpg"])
      ["9"; "1"; "h"; "evet"] = Some (st, Some disk) ∧
    (∀ deleted failed total, st ≠ Manage.Completed deleted failed total) ∧
    (∀ e, st ≠ Manage.Raised e).
Proof.
  assert ("EVET" ∉ ["9"; "1"; "h"; "evet"]) as Hno.
  { intros Hin. members Hin; discriminate. }
  split; [exact Hno|].
  exact (nothing_is_deleted_without_confirmation plain no_faults Console.ascii_ops
           disk _ _ Hno).
Defined.

Lemma scanner_returns_each_file_once_witness :
  Walk.listing [(".", ["sub"], ["a.jpg"; "notes.txt"]);
                ("./sub", [], ["a.jpg"; "b.png"])] ∧
  NoDup (Detector.find_image_files
           [(".", ["sub"], ["a.jpg"; "notes.txt"]);
            ("./sub", [], ["a.jpg"; "b.png"])]) ∧
  ∀ root dirs files file,
    (root, dirs, files) ∈ [(".", ["sub"], ["a.jpg"; "notes.txt"]);
                           ("./sub", [], ["a.jpg"; "b.png"])] →
    file ∈ files →
    Path.basename (Path.join root file) = file.
Proof.
  assert (Walk.listing [(".", ["sub"], ["a.jpg"; "notes.txt"]);
                        ("./sub", [], ["a.jpg"; "b.png"])]) as Hwalk.
  { split.
    - apply (bool_decide_unpack _). vm_compute. exact I.
    - intros r1 r2 H1 H2. simpl in H1, H2.
      members H1; members H2; subst r1 r2; discriminate.
    - intros root dirs files Hin.
      members Hin; injection Hin as -> -> ->;
        apply (bool_decide_unpack _); vm_compute; exact I.
    - intros root dirs files file Hin Hfile.
      members Hin; injection Hin as -> -> ->;
        members Hfile; subst file; reflexivity. }
  split; [exact Hwalk|].
  exact (scanner_returns_each_file_once _ Hwalk).
Defined.

End more_examples.


